(** * MyQ2 renderer core: image cache, palette, reflector list, screen
    capture and the water / world / sky shaders.

    A shallow embedding of the C sources ([ref_gl/gl_image.c],
    [ref_gl/gl_rmisc.c], [myq2-original/ref_gl/gl_refl.c]) and of the GLSL
    shaders of the Vulkan renderer, with the properties stated about them.

    Conventions.
    - C [int] values that hold sizes, counters and texture numbers are [Z]
      (or [nat] for array indices); signed overflow is undefined in C and is
      not modelled.
    - A [byte] is a [Z] in [0, 256).  A 32-bit RGBA texel is the quadruple of
      its four bytes in memory order, which is what the byte-wise scans of the
      source look at.
    - C [float] values that are only compared ([g_refl_Z]) are IEEE values of
      [SpecFloat]; [float] arithmetic of the palette is exact rational
      arithmetic ([Q]); GLSL [float] arithmetic is real arithmetic ([R]).
    - Globals are fields of an explicit state record that every function
      takes and returns; [ERR_DROP] is an error result. *)

From Stdlib Require Import ZArith QArith Qround Reals Lra Lia String Ascii List Bool.
From Stdlib Require Import Machin.
From Stdlib Require Import RNsatz.
From Stdlib Require Import Floats.SpecFloat.
From stdpp Require Import base option list gmap strings.

Open Scope Z_scope.

(* ===================================================================== *)
(** * Reflection controller: the reflector list ([gl_refl.c])             *)
(* ===================================================================== *)

Module Refl.

(** [#define MAX_REFL 2] *)
Definition MAX_REFL : nat := 2.

(** [int g_num_refl; float g_refl_Z[MAX_REFL];] *)
Record refl_globals : Type := mk_refl {
  g_num_refl : nat;
  g_refl_Z : list spec_float
}.

(** C's [==] on [float]: IEEE equality ([+0 == -0], [NaN != NaN]). *)
Definition float_eq (a b : spec_float) : bool := SFeqb a b.

(** [void R_clear_refl() { g_num_refl = 0; }]: the array keeps its stale
    contents. *)
Definition R_clear_refl (g : refl_globals) : refl_globals :=
  mk_refl 0 (g_refl_Z g).

(** The duplicate loop of [R_add_refl]:
    [for (; i < g_num_refl; i++) if (g_refl_Z[i] == Z) return;]
    started at index [i] with [todo = g_num_refl - i] iterations left. *)
Fixpoint is_duplicate (arr : list spec_float) (Zv : spec_float)
    (i todo : nat) : bool :=
  match todo with
  | O => false
  | S todo' =>
      match arr !! i with
      | Some z => if float_eq z Zv then true
                  else is_duplicate arr Zv (S i) todo'
      | None => is_duplicate arr Zv (S i) todo'
      end
  end.

(** [void R_add_refl(float Z)] *)
Definition R_add_refl (Zv : spec_float) (g : refl_globals) : refl_globals :=
  if is_duplicate (g_refl_Z g) Zv 0 (g_num_refl g) then g
  else if (g_num_refl g <? MAX_REFL)%nat then
    mk_refl (S (g_num_refl g)) (<[g_num_refl g := Zv]> (g_refl_Z g))
  else g.

(** The reflectors a frame renders: [g_refl_Z[0 .. g_num_refl)]. *)
Definition reflectors (g : refl_globals) : list spec_float :=
  take (g_num_refl g) (g_refl_Z g).

(** A frame's discovery: [R_clear_refl] then one [R_add_refl] per
    surface found, in the order of the walk. *)
Definition discover_frame (zs : list spec_float) (g : refl_globals)
    : refl_globals :=
  fold_left (fun g z => R_add_refl z g) zs (R_clear_refl g).





(** ** Facts *)










(** Water heights as binary32 values: [m * 2^e]. *)
Definition float_of (m : positive) (e : Z) : spec_float := S754_finite false m e.
Definition z_64 : spec_float := float_of 8388608 (-17).
Definition z_128 : spec_float := float_of 8388608 (-16).
Definition z_256 : spec_float := float_of 8388608 (-15).

Definition stale : refl_globals := mk_refl 2 [z_256; z_256].

(** Three reflectors visible, the first found twice: two are rendered. *)
Example three_reflectors_two_rendered :
  reflectors (discover_frame [z_64; z_64; z_128; z_256] stale) = [z_64; z_128].
Proof. reflexivity. Qed.


End Refl.

(* ===================================================================== *)
(** * Texels                                                              *)
(* ===================================================================== *)

(** A 32-bit texel as its four bytes in memory order: what
    [((byte * )data)[4*i + k]] reads. *)
Record rgba : Type := mk_rgba { c_r : Z; c_g : Z; c_b : Z; c_a : Z }.

(** The memory bytes of [LittleLong(v)] for an [unsigned v]. *)
Definition word_texel (v : Z) : rgba :=
  let v := v mod 2 ^ 32 in
  mk_rgba (Z.land v 255) (Z.land (Z.shiftr v 8) 255)
          (Z.land (Z.shiftr v 16) 255) (Z.land (Z.shiftr v 24) 255).

(* ===================================================================== *)
(** * Palette ([Draw_GetPalette], gl_image.c)                             *)
(* ===================================================================== *)

Module Palette.

(** [int] to [float], and the truncating [float] to [int] conversion. *)
Definition int_to_float (z : Z) : Q := inject_Z z.
Definition float_to_int (q : Q) : Z := Z.quot (Qnum q) (Zpos (Qden q)).

Definition Qgt_bool (a b : Q) : bool := negb (Qle_bool a b).

(** The [if (d1 > d2) ...] cascade that picks the existing saturation. *)
Definition existing_saturation (r g b : Z) : Q :=
  let d1 := int_to_float (Z.abs (r - g)) in
  let d2 := int_to_float (Z.abs (g - b)) in
  let d3 := int_to_float (Z.abs (b - r)) in
  if Qgt_bool d1 d2 then
    if Qgt_bool d1 d3 then d1
    else if Qgt_bool d2 d3 then d2 else d3
  else
    if Qgt_bool d2 d3 then d2 else d3.

(** The value of [sat] when it is applied to [dr], [dg], [db]:
    [sat /= 255.0; sat = 1.0 - sat; sat *= (1.0 - 0.75);] *)
Definition desaturation_factor (r g b : Z) : Q :=
  let sat := existing_saturation r g b in
  let sat := (sat / 255)%Q in
  let sat := (1 - sat)%Q in
  (sat * (1 - (75 # 100)))%Q.

(** One iteration of the palette loop, up to the new gun values. *)
Definition desaturate (r g b : Z) : Z * Z * Z :=
  let avg := int_to_float (Z.quot (r + g + b + 2) 3) in
  let dr := (avg - int_to_float r)%Q in
  let dg := (avg - int_to_float g)%Q in
  let db := (avg - int_to_float b)%Q in
  let sat := desaturation_factor r g b in
  let dr := (dr * sat)%Q in
  let dg := (dg * sat)%Q in
  let db := (db * sat)%Q in
  (float_to_int (int_to_float r + dr)%Q,
   float_to_int (int_to_float g + dg)%Q,
   float_to_int (int_to_float b + db)%Q).

(** [v = (255<<24) + (r<<0) + (g<<8) + (b<<16); d_8to24table[i] = LittleLong(v);] *)
Definition palette_entry (r g b : Z) : rgba :=
  let '(r', g', b') := desaturate r g b in
  word_texel (Z.shiftl 255 24 + Z.shiftl r' 0 + Z.shiftl g' 8 + Z.shiftl b' 16).

Definition pal_byte (pal : list Z) (n : nat) : Z := default 0 (pal !! n).

(** [d_8to24table[255] &= LittleLong(0xffffff);] *)
Definition make_transparent (t : rgba) : rgba :=
  mk_rgba (c_r t) (c_g t) (c_b t) 0.

(** [Draw_GetPalette], given the 768 palette bytes [LoadPCX] returned for
    pics/colormap.pcx; [None] is the [ERR_FATAL] of a missing palette. *)
Definition Draw_GetPalette (pal : option (list Z)) : option (list rgba) :=
  match pal with
  | None => None
  | Some pal =>
      let table :=
        map (fun i => palette_entry (pal_byte pal (i * 3 + 0))
                                    (pal_byte pal (i * 3 + 1))
                                    (pal_byte pal (i * 3 + 2)))
            (seq 0 256) in
      Some (alter make_transparent 255%nat table)
  end.

(** The greatest distance between the guns. *)
Definition max_gun_delta (r g b : Z) : Z :=
  Z.max (Z.abs (r - g)) (Z.max (Z.abs (g - b)) (Z.abs (b - r))).


(** ** Facts *)

Lemma Qgt_bool_inject (a b : Z) :
  Qgt_bool (inject_Z a) (inject_Z b) = (b <? a)%Z.
Proof.
  unfold Qgt_bool, Qle_bool, inject_Z; simpl.
  rewrite !Z.mul_1_r. rewrite Z.ltb_antisym. reflexivity.
Qed.

Lemma existing_saturation_max r g b :
  existing_saturation r g b = inject_Z (max_gun_delta r g b).
Proof.
  unfold existing_saturation, max_gun_delta, int_to_float.
  rewrite !Qgt_bool_inject.
  destruct (Z.ltb_spec (Z.abs (g - b)) (Z.abs (r - g)));
    destruct (Z.ltb_spec (Z.abs (b - r)) (Z.abs (r - g)));
    destruct (Z.ltb_spec (Z.abs (b - r)) (Z.abs (g - b)));
    f_equal; lia.
Qed.

(** The first entry of a grey ramp: all guns equal. *)
Example desaturation_factor_grey :
  (desaturation_factor 128 128 128 == 1 # 4)%Q.
Proof. vm_compute. reflexivity. Qed.

Example desaturate_red : desaturate 255 0 0 = (255, 0, 0).
Proof. vm_compute. reflexivity. Qed.

Example desaturate_orange : desaturate 200 100 50 = (191, 101, 56).
Proof. vm_compute. reflexivity. Qed.



End Palette.

(* ===================================================================== *)
(** * GLSL vectors                                                        *)
(* ===================================================================== *)

Module Glsl.
Local Open Scope R_scope.

Record vec2 : Type := mk_vec2 { v2_s : R; v2_t : R }.
Record vec3 : Type := mk_vec3 { v3_x : R; v3_y : R; v3_z : R }.
Record vec4 : Type := mk_vec4 { v4_x : R; v4_y : R; v4_z : R; v4_w : R }.

(** A bound texture: [texture(sampler, uv)]. *)
Definition sampler2D : Type := vec2 -> vec4.

(** Column-major matrices, as the GLSL constructors fill them. *)
Record mat3 : Type := mk_mat3 { m3_c0 : vec3; m3_c1 : vec3; m3_c2 : vec3 }.
Record mat4 : Type := mk_mat4 { m4_c0 : vec4; m4_c1 : vec4; m4_c2 : vec4; m4_c3 : vec4 }.

Definition rgb (c : vec4) : vec3 := mk_vec3 (v4_x c) (v4_y c) (v4_z c).

Definition vec3_scale (k : R) (v : vec3) : vec3 :=
  mk_vec3 (k * v3_x v) (k * v3_y v) (k * v3_z v).

(** Component-wise product of two [vec3]. *)
Definition vec3_mul (a b : vec3) : vec3 :=
  mk_vec3 (v3_x a * v3_x b) (v3_y a * v3_y b) (v3_z a * v3_z b).

Definition vec3_add_scalar (k : R) (v : vec3) : vec3 :=
  mk_vec3 (k + v3_x v) (k + v3_y v) (k + v3_z v).

Definition dot3 (a b : vec3) : R :=
  v3_x a * v3_x b + v3_y a * v3_y b + v3_z a * v3_z b.

Definition length3 (v : vec3) : R := sqrt (dot3 v v).

(** [normalize(v)]: [v / length(v)]. *)
Definition normalize (v : vec3) : vec3 :=
  mk_vec3 (v3_x v / length3 v) (v3_y v / length3 v) (v3_z v / length3 v).

(** [radians(degrees)]: [PI / 180 * degrees]. *)
Definition radians (degrees : R) : R := PI / 180 * degrees.

(** [clamp(x, lo, hi)]: [min(max(x, lo), hi)]. *)
Definition clamp (x lo hi : R) : R := Rmin (Rmax x lo) hi.

Definition clamp3 (v : vec3) (lo hi : R) : vec3 :=
  mk_vec3 (clamp (v3_x v) lo hi) (clamp (v3_y v) lo hi) (clamp (v3_z v) lo hi).

(** [m * v] for a [mat3] and a [vec3]. *)
Definition mat3_mul_vec (m : mat3) (v : vec3) : vec3 :=
  mk_vec3
    (v3_x (m3_c0 m) * v3_x v + v3_x (m3_c1 m) * v3_y v + v3_x (m3_c2 m) * v3_z v)
    (v3_y (m3_c0 m) * v3_x v + v3_y (m3_c1 m) * v3_y v + v3_y (m3_c2 m) * v3_z v)
    (v3_z (m3_c0 m) * v3_x v + v3_z (m3_c1 m) * v3_y v + v3_z (m3_c2 m) * v3_z v).

(** [m * v] for a [mat4] and a [vec4]. *)
Definition mat4_mul_vec (m : mat4) (v : vec4) : vec4 :=
  mk_vec4
    (v4_x (m4_c0 m) * v4_x v + v4_x (m4_c1 m) * v4_y v
     + v4_x (m4_c2 m) * v4_z v + v4_x (m4_c3 m) * v4_w v)
    (v4_y (m4_c0 m) * v4_x v + v4_y (m4_c1 m) * v4_y v
     + v4_y (m4_c2 m) * v4_z v + v4_y (m4_c3 m) * v4_w v)
    (v4_z (m4_c0 m) * v4_x v + v4_z (m4_c1 m) * v4_y v
     + v4_z (m4_c2 m) * v4_z v + v4_z (m4_c3 m) * v4_w v)
    (v4_w (m4_c0 m) * v4_x v + v4_w (m4_c1 m) * v4_y v
     + v4_w (m4_c2 m) * v4_z v + v4_w (m4_c3 m) * v4_w v).

End Glsl.

(* ===================================================================== *)
(** * Turbulent water fragment shader ([water.frag.glsl])                 *)
(* ===================================================================== *)

Module WaterFrag.
Import Glsl.
Local Open Scope R_scope.

Record FragUniforms : Type := mk_uniforms {
  u_Time : R;
  u_Alpha : R;
  u_IsFlowing : Z;
  u_ScrollOffset : R
}.

(** The coordinate [main] samples [u_WaterTexture] at. *)
Definition warpedCoord (u : FragUniforms) (v_TexCoord : vec2) : vec2 :=
  let os := v2_s v_TexCoord in
  let ot := v2_t v_TexCoord in
  let sOffset := sin ((ot * 0.125 + u_Time u) * 6.28318) * 8.0 in
  let tOffset := sin ((os * 0.125 + u_Time u) * 6.28318) * 8.0 in
  let warped_s := (os + sOffset) / 64.0 in
  let warped_t := (ot + tOffset) / 64.0 in
  let warped_s :=
    if (u_IsFlowing u =? 0)%Z then warped_s
    else warped_s + u_ScrollOffset u / 64.0 in
  mk_vec2 warped_s warped_t.

(** [void main()]: the value written to [FragColor]. *)
Definition main (u : FragUniforms) (u_WaterTexture : sampler2D)
    (v_TexCoord : vec2) : vec4 :=
  let waterColor := u_WaterTexture (warpedCoord u v_TexCoord) in
  mk_vec4 (v4_x waterColor) (v4_y waterColor) (v4_z waterColor) (u_Alpha u).

(** The warp as the specification writes it. *)
Definition spec_warp (s t time : R) : vec2 :=
  mk_vec2 ((s + sin ((t * 0.125 + time) * 2 * PI) * 8) / 64)
          ((t + sin ((s * 0.125 + time) * 2 * PI) * 8) / 64).

(** ** Facts *)

(** C5 (as the code has it). For every texture coordinate [(s,t)] and time
    the water pass samples the texture at
    [s' = (s + sin((t*0.125 + time)*6.28318)*8)/64], plus
    [u_ScrollOffset/64] when the surface is flowing, and
    [t' = (t + sin((s*0.125 + time)*6.28318)*8)/64]; the colour is that
    sample's and the output alpha is [u_Alpha]. *)
Theorem water_warp_and_alpha (u : FragUniforms) (tex : sampler2D) (s t : R) :
  warpedCoord u (mk_vec2 s t) =
    mk_vec2 ((s + sin ((t * 0.125 + u_Time u) * 6.28318) * 8) / 64
             + (if (u_IsFlowing u =? 0)%Z then 0 else u_ScrollOffset u / 64))
            ((t + sin ((s * 0.125 + u_Time u) * 6.28318) * 8) / 64) /\
  rgb (main u tex (mk_vec2 s t)) = rgb (tex (warpedCoord u (mk_vec2 s t))) /\
  v4_w (main u tex (mk_vec2 s t)) = u_Alpha u.
Proof.
  split; [|split; reflexivity].
  unfold warpedCoord; simpl.
  destruct (u_IsFlowing u =? 0)%Z; f_equal; lra.
Qed.

(** The shader's literal 6.28318 lies strictly between pi and 2 pi. *)
Lemma PI_brackets : 3.14159 < PI < 3.1416.
Proof.
  pose proof (PI_2_3_7_ineq 3) as [Hlo Hhi].
  unfold sum_f_R0, tg_alt, PI_2_3_7_tg, Ratan_seq in Hlo, Hhi.
  simpl in Hlo, Hhi. lra.
Qed.

(** So the warp is not the one written with 2 pi, even on a still surface:
    at [(s,t) = (0,0)] and time 1 the shader's [s'] is negative, the
    specification's is 0. *)
Lemma water_warp_literal_is_not_2pi :
  v2_s (warpedCoord (mk_uniforms 1 1 0 0) (mk_vec2 0 0)) < 0 /\
  v2_s (spec_warp 0 0 1) = 0.
Proof.
  unfold warpedCoord, spec_warp; simpl.
  replace ((0 * 0.125 + 1) * 6.28318) with 6.28318 by lra.
  replace ((0 * 0.125 + 1) * 2 * PI) with (2 * PI) by lra.
  rewrite sin_2PI. split; [|lra].
  assert (sin 6.28318 < 0) as Hneg.
  { pose proof PI_brackets. apply sin_lt_0; lra. }
  lra.
Qed.

(** C5 as stated fails on a flowing surface: at [(s,t) = (0,0)], time 0 and
    a scroll offset of 64 the shader samples at [s' = 1], the formula of the
    specification gives [s' = 0]. *)
Lemma water_warp_flowing_differs :
  warpedCoord (mk_uniforms 0 1 1 64) (mk_vec2 0 0) <> spec_warp 0 0 0.
Proof.
  unfold warpedCoord, spec_warp; simpl.
  replace ((0 * 0.125 + 0) * 6.28318) with 0 by lra.
  replace ((0 * 0.125 + 0) * 2 * PI) with 0 by lra.
  rewrite sin_0. intros H. injection H as H. lra.
Qed.

End WaterFrag.

(* ===================================================================== *)
(** * World fragment shader ([world.frag.glsl])                           *)
(* ===================================================================== *)

Module WorldFrag.
Import Glsl.
Local Open Scope R_scope.

Record FragUniforms : Type := mk_uniforms {
  u_OverbrightScale : R;
  u_Fullbright : Z;
  u_SaturateLighting : Z;
  u_EnableDetail : Z;
  u_DetailScale : R;
  u_EnableCaustics : Z;
  u_CausticScroll : R;
  u_IsUnderwater : Z;
  u_LightmapOnly : Z
}.

Definition nonzero (i : Z) : bool := negb (i =? 0)%Z.

(** [void main()]: the value written to [FragColor]. *)
Definition main (u : FragUniforms)
    (u_DiffuseTexture u_LightmapTexture u_OverlayTexture : sampler2D)
    (v_TexCoord v_LightmapCoord : vec2) : vec4 :=
  let diffuse := u_DiffuseTexture v_TexCoord in
  if nonzero (u_Fullbright u) then diffuse
  else
    let lightmap := u_LightmapTexture v_LightmapCoord in
    let lightmap_rgb :=
      if nonzero (u_SaturateLighting u) then clamp3 (rgb lightmap) 0.0 1.0
      else rgb lightmap in
    if nonzero (u_LightmapOnly u) then
      let c := vec3_scale (u_OverbrightScale u) lightmap_rgb in
      mk_vec4 (v3_x c) (v3_y c) (v3_z c) 1.0
    else
      let color :=
        vec3_scale (u_OverbrightScale u) (vec3_mul (rgb diffuse) lightmap_rgb) in
      let color :=
        if nonzero (u_EnableDetail u) && negb (nonzero (u_IsUnderwater u)) then
          let detailUV := mk_vec2 (v2_s v_TexCoord * u_DetailScale u)
                                  (v2_t v_TexCoord * u_DetailScale u) in
          let detail := rgb (u_OverlayTexture detailUV) in
          vec3_mul color (vec3_scale 2.0 detail)
        else color in
      let color :=
        if nonzero (u_EnableCaustics u) && nonzero (u_IsUnderwater u) then
          let causticUV := mk_vec2 (v2_s v_TexCoord + u_CausticScroll u)
                                   (v2_t v_TexCoord + u_CausticScroll u) in
          let caustic := rgb (u_OverlayTexture causticUV) in
          vec3_mul color (vec3_add_scalar 1.0 (vec3_scale 0.3 caustic))
        else color in
      mk_vec4 (v3_x color) (v3_y color) (v3_z color) (v4_w diffuse).

(** The saturation the specification asks for: every output channel is at
    most the corresponding channel of diffuse times lightmap, clamped to 1. *)
Definition saturates_at_diffuse_product (diffuse lightmap out : vec4) : Prop :=
  v4_x out <= Rmin (v4_x diffuse * v4_x lightmap) 1 /\
  v4_y out <= Rmin (v4_y diffuse * v4_y lightmap) 1 /\
  v4_z out <= Rmin (v4_z diffuse * v4_z lightmap) 1.

(** Plain lit rendering: no fullbright, no lightmap-only view, no overlay. *)
Definition plain_lit (scale : R) (saturate : Z) : FragUniforms :=
  mk_uniforms scale 0 saturate 0 8 0 0 0 0.

Definition white : vec4 := mk_vec4 1 1 1 1.

(** ** Facts *)

Lemma clamp_unit_bounds x : 0 <= clamp x 0 1 <= 1.
Proof.
  unfold clamp. split.
  - apply Rmin_glb; [apply Rmax_r | lra].
  - apply Rmin_r.
Qed.

(** C6 (as the code has it). In the lit world path without overlays every
    output channel is diffuse times lightmap times [u_OverbrightScale], and
    alpha is the diffuse alpha; the shader clamps nothing after the
    multiply.  Only when [u_SaturateLighting] is set is the lightmap sample
    clamped to [0,1] before the multiply, and then every output channel is
    at most diffuse times the scale (for non-negative diffuse and scale). *)
Theorem world_overbright_product (u : FragUniforms)
    (dtex ltex otex : sampler2D) (tc lc : vec2) :
  u_Fullbright u = 0%Z -> u_LightmapOnly u = 0%Z ->
  u_EnableDetail u = 0%Z -> u_EnableCaustics u = 0%Z ->
  let d := dtex tc in
  let l := ltex lc in
  let k := u_OverbrightScale u in
  let out := main u dtex ltex otex tc lc in
  (u_SaturateLighting u = 0%Z ->
     out = mk_vec4 (k * (v4_x d * v4_x l)) (k * (v4_y d * v4_y l))
                   (k * (v4_z d * v4_z l)) (v4_w d)) /\
  (u_SaturateLighting u <> 0%Z ->
     out = mk_vec4 (k * (v4_x d * clamp (v4_x l) 0 1))
                   (k * (v4_y d * clamp (v4_y l) 0 1))
                   (k * (v4_z d * clamp (v4_z l) 0 1)) (v4_w d) /\
     (0 <= k -> 0 <= v4_x d -> 0 <= v4_y d -> 0 <= v4_z d ->
        v4_x out <= k * v4_x d /\ v4_y out <= k * v4_y d /\
        v4_z out <= k * v4_z d)).
Proof.
  intros Hf Hl Hd Hc d l k out. subst out. unfold main, nonzero.
  rewrite Hf, Hl, Hd, Hc. simpl. fold d l k. split.
  - intros Hs. rewrite Hs. simpl. reflexivity.
  - intros Hs. apply Z.eqb_neq in Hs. rewrite Hs. simpl.
    replace 0.0 with 0 by lra. replace 1.0 with 1 by lra.
    split; [reflexivity|].
    intros Hk Hx Hy Hz.
    simpl. repeat split; apply Rmult_le_compat_l; try assumption.
    + pose proof (clamp_unit_bounds (v4_x l)). nra.
    + pose proof (clamp_unit_bounds (v4_y l)). nra.
    + pose proof (clamp_unit_bounds (v4_z l)). nra.
Qed.

Lemma world_overbright_product_witness :
  let u := plain_lit 2 1 in
  let out := main u (fun _ => white) (fun _ => white) (fun _ => white)
                  (mk_vec2 0 0) (mk_vec2 0 0) in
  (u_Fullbright u = 0%Z /\ u_LightmapOnly u = 0%Z /\
   u_EnableDetail u = 0%Z /\ u_EnableCaustics u = 0%Z /\
   u_SaturateLighting u <> 0%Z) /\
  (0 <= 2 -> 0 <= 1 -> 0 <= 1 -> 0 <= 1 ->
     v4_x out <= 2 * 1 /\ v4_y out <= 2 * 1 /\ v4_z out <= 2 * 1).
Proof.
  intros u out.
  assert (u_SaturateLighting u <> 0%Z) as Hs by (simpl; lia).
  split; [repeat split; solve [reflexivity | exact Hs] |].
  exact (proj2 (proj2 (world_overbright_product u (fun _ => white)
           (fun _ => white) (fun _ => white) (mk_vec2 0 0) (mk_vec2 0 0)
           eq_refl eq_refl eq_refl eq_refl) Hs)).
Defined.

(** C6 as stated fails: with white diffuse and lightmap samples and an
    overbright scale of 2 the red channel written is 2, above the diffuse
    product clamped to 1. *)
Lemma world_overbright_not_saturated :
  ~ saturates_at_diffuse_product white white
      (main (plain_lit 2 0) (fun _ => white) (fun _ => white)
            (fun _ => white) (mk_vec2 0 0) (mk_vec2 0 0)).
Proof.
  unfold saturates_at_diffuse_product, main, plain_lit, white; simpl.
  intros (H & _). unfold Rmin in H.
  destruct (Rle_dec (1 * 1) 1); lra.
Qed.

End WorldFrag.

(* ===================================================================== *)
(** * Sky vertex shader (the [SkyUniforms] shader)                        *)
(* ===================================================================== *)

Module SkyVert.
Import Glsl.
Local Open Scope R_scope.

Record SkyUniforms : Type := mk_uniforms {
  u_ViewProjection : mat4;
  u_SkyAxis : vec3;
  u_SkyRotate : R;
  u_Time : R
}.

(** [mat3 rotationMatrix(vec3 axis, float angle)] *)
Definition rotationMatrix (axis : vec3) (angle : R) : mat3 :=
  let s := sin angle in
  let c := cos angle in
  let oc := 1.0 - c in
  let x := v3_x axis in
  let y := v3_y axis in
  let z := v3_z axis in
  mk_mat3
    (mk_vec3 (oc * x * x + c) (oc * x * y - z * s) (oc * z * x + y * s))
    (mk_vec3 (oc * x * y + z * s) (oc * y * y + c) (oc * y * z - x * s))
    (mk_vec3 (oc * z * x - y * s) (oc * y * z + x * s) (oc * z * z + c)).

(** [void main()]: the pair [(v_TexCoord, gl_Position)]. *)
Definition main (u : SkyUniforms) (a_Position : vec3) : vec3 * vec4 :=
  let angle := radians (u_SkyRotate u * u_Time u) in
  let rot := rotationMatrix (normalize (u_SkyAxis u)) angle in
  let v_TexCoord := mat3_mul_vec rot a_Position in
  let pos := mat4_mul_vec (u_ViewProjection u)
               (mk_vec4 (v3_x a_Position) (v3_y a_Position) (v3_z a_Position) 1.0) in
  (v_TexCoord, mk_vec4 (v4_x pos) (v4_y pos) (v4_w pos) (v4_w pos)).

(** The sample direction the specification describes: the rotation about
    the axis exactly as supplied. *)
Definition spec_sample_direction (u : SkyUniforms) (a_Position : vec3) : vec3 :=
  mat3_mul_vec
    (rotationMatrix (u_SkyAxis u) (radians (u_SkyRotate u * u_Time u)))
    a_Position.

Definition with_axis (u : SkyUniforms) (axis : vec3) : SkyUniforms :=
  mk_uniforms (u_ViewProjection u) axis (u_SkyRotate u) (u_Time u).

Definition identity4 : mat4 :=
  mk_mat4 (mk_vec4 1 0 0 0) (mk_vec4 0 1 0 0) (mk_vec4 0 0 1 0) (mk_vec4 0 0 0 1).

Definition zero3 : vec3 := mk_vec3 0 0 0.

(** ** Facts *)

Lemma dot3_self_pos v : v <> zero3 -> 0 < dot3 v v.
Proof.
  destruct v as [x y z]. unfold dot3, zero3; simpl. intros Hne.
  destruct (Req_dec x 0) as [Hx|Hx]; [|nra].
  destruct (Req_dec y 0) as [Hy|Hy]; [|nra].
  destruct (Req_dec z 0) as [Hz|Hz]; [|nra].
  subst. contradiction.
Qed.

Lemma length3_scale k v : 0 <= k -> length3 (vec3_scale k v) = k * length3 v.
Proof.
  intros Hk. unfold length3.
  replace (dot3 (vec3_scale k v) (vec3_scale k v)) with ((k * k) * dot3 v v)
    by (destruct v; unfold dot3, vec3_scale; simpl; ring).
  rewrite sqrt_mult.
  - rewrite sqrt_square by assumption. reflexivity.
  - nra.
  - destruct v as [x y z]; unfold dot3; simpl. nra.
Qed.

Lemma normalize_scale k v : 0 < k -> v <> zero3 ->
  normalize (vec3_scale k v) = normalize v.
Proof.
  intros Hk Hv. unfold normalize.
  rewrite length3_scale by lra.
  assert (0 < length3 v) as Hl by (apply sqrt_lt_R0, dot3_self_pos, Hv).
  destruct v as [x y z]; simpl. f_equal; field; lra.
Qed.

Lemma normalize_unit v : v <> zero3 -> dot3 (normalize v) (normalize v) = 1.
Proof.
  intros Hv. pose proof (dot3_self_pos v Hv) as Hd.
  assert (0 < length3 v) as Hl by (apply sqrt_lt_R0, Hd).
  assert (length3 v * length3 v = dot3 v v) as Hsq
    by (apply sqrt_sqrt; lra).
  unfold normalize, dot3 at 1; simpl.
  replace (v3_x v / length3 v * (v3_x v / length3 v) +
           v3_y v / length3 v * (v3_y v / length3 v) +
           v3_z v / length3 v * (v3_z v / length3 v))
    with (dot3 v v / (length3 v * length3 v))
    by (unfold dot3; field; lra).
  rewrite Hsq. field. lra.
Qed.

(** C9 (as the code has it). The sky pass rotates the sample direction by
    [radians(u_SkyRotate * u_Time)] about the sky axis normalised to unit
    length: for a non-zero axis the axis used has length 1, and supplying
    the axis scaled by any positive factor gives the same sample direction. *)
Theorem sky_axis_is_normalized (u : SkyUniforms) (a_Position : vec3) (k : R) :
  u_SkyAxis u <> zero3 -> 0 < k ->
  fst (main u a_Position) =
    mat3_mul_vec (rotationMatrix (normalize (u_SkyAxis u))
                    (radians (u_SkyRotate u * u_Time u))) a_Position /\
  dot3 (normalize (u_SkyAxis u)) (normalize (u_SkyAxis u)) = 1 /\
  fst (main (with_axis u (vec3_scale k (u_SkyAxis u))) a_Position) =
    fst (main u a_Position).
Proof.
  intros Hv Hk. split; [reflexivity|]. split.
  - apply normalize_unit, Hv.
  - unfold main, with_axis; simpl.
    rewrite normalize_scale by assumption. reflexivity.
Qed.

Lemma sky_axis_is_normalized_witness :
  let u := mk_uniforms identity4 (mk_vec3 0 0 1) 180 1 in
  (u_SkyAxis u <> zero3 /\ 0 < 2) /\
  fst (main (with_axis u (vec3_scale 2 (u_SkyAxis u))) (mk_vec3 0 0 1)) =
    fst (main u (mk_vec3 0 0 1)).
Proof.
  intros u.
  assert (u_SkyAxis u <> zero3) as Hv
    by (simpl; unfold zero3; intros H; injection H as H; lra).
  assert (0 < 2) as Hk by lra.
  split; [split; assumption|].
  exact (proj2 (proj2 (sky_axis_is_normalized u (mk_vec3 0 0 1) 2 Hv Hk))).
Defined.

(** C9 as stated fails: for the non-unit axis [(0,0,2)], a rotation of 180
    degrees and the direction [(0,0,1)], the shader's sample direction is
    not the rotation about the axis as supplied (its z component is 1, that
    of the unnormalised rotation is 7). *)
Lemma sky_axis_not_used_as_supplied :
  let u := mk_uniforms identity4 (mk_vec3 0 0 2) 180 1 in
  fst (main u (mk_vec3 0 0 1)) <> spec_sample_direction u (mk_vec3 0 0 1).
Proof.
  intros u H.
  apply (f_equal v3_z) in H.
  unfold main, spec_sample_direction, rotationMatrix, mat3_mul_vec, normalize,
    length3, dot3, radians in H; simpl in H.
  replace (PI / 180 * (180 * 1)) with PI in H by field.
  rewrite cos_PI, sin_PI in H.
  replace (0 * 0 + 0 * 0 + 2 * 2) with (2 * 2) in H by ring.
  rewrite sqrt_square in H by lra.
  lra.
Qed.

End SkyVert.

(* ===================================================================== *)
(** * Image cache ([gl_image.c])                                          *)
(* ===================================================================== *)

Module Image.

(** ** Results of fallible code *)

(** The reason of a [VID_Printf (ERR_DROP, ...)], which does not return. *)
Inductive drop_reason : Type :=
| drop_MAX_GLTEXTURES
| drop_name_too_long.

(** [Done]: normal return.  [Drop]: an [ERR_DROP].  [Undef]: a read
    outside the buffer a pointer argument designates. *)
Inductive outcome (A : Type) : Type :=
| Done (a : A)
| Drop (e : drop_reason)
| Undef.
Arguments Done {A} a.
Arguments Drop {A} e.
Arguments Undef {A}.

#[global] Instance outcome_ret : MRet outcome := fun A a => Done a.
#[global] Instance outcome_bind : MBind outcome := fun A B f m =>
  match m with
  | Done a => f a
  | Drop e => Drop e
  | Undef => Undef
  end.

(** A buffer read: [None] outside the buffer. *)
Definition of_read {A} (o : option A) : outcome A :=
  match o with Some a => Done a | None => Undef end.

(** ** Types and globals *)

(** [imagetype_t] *)
Inductive imagetype_t : Type := it_skin | it_sprite | it_wall | it_pic | it_sky.

#[global] Instance imagetype_eq_dec : EqDecision imagetype_t.
Proof. solve_decision. Defined.

(** [image_t]: the fields [gl_image.c] reads or writes. *)
Record image_t : Type := mk_image {
  img_name : string;
  img_type : imagetype_t;
  img_width : Z;
  img_height : Z;
  img_upload_width : Z;
  img_upload_height : Z;
  img_registration_sequence : Z;
  img_texnum : Z;
  img_sl : Q; img_tl : Q; img_sh : Q; img_th : Q;
  img_has_alpha : bool
}.

(** [memset (image, 0, sizeof( *image))] *)
Definition image_zero : image_t :=
  mk_image "" it_skin 0 0 0 0 0 0 0 0 0 0 false.

(** Constants of [gl_local.h] and [q_shared.h], which the sources at hand
    use but do not declare. *)
Class gl_local : Type := {
  TEXNUM_SCRAPS : Z;
  TEXNUM_IMAGES : Z;
  MAX_GLTEXTURES : nat;
  MAX_QPATH : nat;
  PT_MAX : nat
}.

(** The values of Quake II 3.21, with five particle textures. *)
Definition quake2_gl_local : gl_local :=
  {| TEXNUM_SCRAPS := 1152; TEXNUM_IMAGES := 1153;
     MAX_GLTEXTURES := 1024; MAX_QPATH := 64; PT_MAX := 5 |}.

(** Renderer settings read by the upload path. *)
Record gl_settings : Type := mk_settings {
  gl_round_down : bool;      (* gl_round_down->value != 0 *)
  gl_picmip : Z;             (* (int)gl_picmip->value *)
  max_tsize : Z;
  sgismipmap : bool          (* gl_config.sgismipmap *)
}.

Definition gl_solid_format : Z := 3.
Definition gl_alpha_format : Z := 4.

Definition BLOCK_WIDTH : Z := 256.
Definition BLOCK_HEIGHT : Z := 256.
Definition MAX_SCRAPS : nat := 1.

(** ** [GL_Upload32] *)

(** [for (scaled = 1 ; scaled < dim ; scaled <<= 1) ;] *)
Fixpoint pow2_loop (fuel : nat) (scaled dim : Z) : Z :=
  match fuel with
  | O => scaled
  | S fuel' => if scaled <? dim then pow2_loop fuel' (Z.shiftl scaled 1) dim
               else scaled
  end.

(** The mip loop, which halves both dimensions down to 1x1. *)
Fixpoint mip_loop (fuel : nat) (scaled_width scaled_height : Z) : Z * Z :=
  match fuel with
  | O => (scaled_width, scaled_height)
  | S fuel' =>
      if (scaled_width >? 1) || (scaled_height >? 1) then
        let scaled_width := Z.shiftr scaled_width 1 in
        let scaled_height := Z.shiftr scaled_height 1 in
        let scaled_width := if scaled_width <? 1 then 1 else scaled_width in
        let scaled_height := if scaled_height <? 1 then 1 else scaled_height in
        mip_loop fuel' scaled_width scaled_height
      else (scaled_width, scaled_height)
  end.

(** The alpha scan:
    [scan = ((byte * )data) + 3;
     for (i=0 ; i<c ; i++, scan += 4) if ( *scan != 255 ) { samples = gl_alpha_format; break; }]
    from texel [i], with [todo = c - i] iterations left; the result is
    [samples]. *)
Fixpoint alpha_scan (data : list Z) (i todo : nat) : option Z :=
  match todo with
  | O => Some gl_solid_format
  | S todo' =>
      match data !! (4 * i + 3)%nat with
      | None => None
      | Some a => if a =? 255 then alpha_scan data (S i) todo'
                  else Some gl_alpha_format
      end
  end.

(** [qboolean GL_Upload32 (unsigned *data, int width, int height,
    qboolean mipmap, int bpp, image_t *image)]: the returned [has_alpha]
    and the [upload_width], [upload_height] it leaves.  [data] is the memory
    the pointer designates, byte by byte; [None] is a scan that runs past
    it.  The texels handed to [qglTexImage2D] (resampled, light-scaled,
    mip-mapped) are not part of the model, and with them the [image]
    argument; [malloc] succeeds. *)
Definition GL_Upload32 (cfg : gl_settings) (data : list Z) (width height : Z)
    (mipmap : bool) (bpp : Z) : option (bool * (Z * Z)) :=
  let scaled_width := pow2_loop 32 1 width in
  let scaled_width :=
    if gl_round_down cfg && (scaled_width >? width) && mipmap
    then Z.shiftr scaled_width 1 else scaled_width in
  let scaled_height := pow2_loop 32 1 height in
  let scaled_height :=
    if gl_round_down cfg && (scaled_height >? height) && mipmap
    then Z.shiftr scaled_height 1 else scaled_height in
  let scaled_width :=
    if mipmap then Z.shiftr scaled_width (gl_picmip cfg) else scaled_width in
  let scaled_height :=
    if mipmap then Z.shiftr scaled_height (gl_picmip cfg) else scaled_height in
  let scaled_width :=
    if scaled_width >? max_tsize cfg then max_tsize cfg
    else if scaled_width <? 1 then 1 else scaled_width in
  let scaled_height :=
    if scaled_height >? max_tsize cfg then max_tsize cfg
    else if scaled_height <? 1 then 1 else scaled_height in
  samples ← (if negb (bpp =? 24)
             then alpha_scan data 0 (Z.to_nat (width * height))
             else Some gl_solid_format);
  let dims :=
    if (scaled_width =? width) && (scaled_height =? height) && negb mipmap
    then (scaled_width, scaled_height)
    else if mipmap && negb (sgismipmap cfg)
         then mip_loop 32 scaled_width scaled_height
         else (scaled_width, scaled_height) in
  Some (samples =? gl_alpha_format, dims).


(** An opaque orange texel and the 8x8 image made of it. *)
Definition orange : list Z := [200; 100; 50; 255].


Definition default_settings : gl_settings := mk_settings false 0 4096 false.

(** ** Files and globals *)

(** [miptex_t], as [GL_LoadWal] and [GL_LoadPic] read it: the header's
    dimensions and the texels at [offsets[0]]. *)
Record miptex_t : Type := mk_miptex {
  mt_width : Z;
  mt_height : Z;
  mt_texels : list Z
}.

(** A decoded picture: [pic], [width], [height]. *)
Definition picture : Type := (list Z * (Z * Z))%type.

(** The file layer and the helpers the image cache calls: the decoders
    return [None] for [pic == NULL]. *)
Record assets : Type := mk_assets {
  LoadPNG : string -> option picture;        (* 32-bit RGBA *)
  LoadTGA : string -> option picture;        (* 32-bit RGBA *)
  LoadPCX : string -> option picture;        (* 8-bit indices *)
  FS_LoadFile : string -> option miptex_t;   (* a .wal file *)
  COM_StripExtension : string -> string;
  (* rewrites the texels of an 8-bit skin in place *)
  R_FloodFillSkin : list rgba -> list Z -> Z -> Z -> list Z
}.

Record gl_globals : Type := mk_globals {
  gltextures : list image_t;
  numgltextures : nat;
  registration_sequence : Z;
  d_8to24table : list rgba;
  scrap_allocated : list (list Z);       (* [MAX_SCRAPS][BLOCK_WIDTH] *)
  scrap_texels : gmap (nat * Z) Z;       (* [MAX_SCRAPS][BLOCK_WIDTH*BLOCK_HEIGHT], zero where absent *)
  scrap_dirty : bool;
  upload_width : Z;
  upload_height : Z;
  r_notexture : nat;                     (* a pointer into gltextures *)
  r_particletexture : list nat;          (* PT_MAX pointers into gltextures *)
  deleted_textures : list Z              (* the qglDeleteTextures calls so far *)
}.

(** ** [GL_Upload8] *)

Definition rd (data : list Z) (i : Z) : outcome Z :=
  of_read (data !! Z.to_nat i).

(** [if (guard && data[idx] != 255) p = data[idx]; else ...] *)
Definition try_neighbour (guard : bool) (data : list Z) (idx : Z)
    (otherwise : outcome Z) : outcome Z :=
  if guard then
    p ← rd data idx;
    if negb (p =? 255) then Done p else otherwise
  else otherwise.

(** The colour index a transparent texel borrows its rgb from. *)
Definition fringe_index (data : list Z) (width s i : Z) : outcome Z :=
  try_neighbour (i >? width) data (i - width)
   (try_neighbour (i <? s - width) data (i + width)
     (try_neighbour (i >? 0) data (i - 1)
       (try_neighbour (i <? s - 1) data (i + 1) (Done 0)))).

(** The four bytes of [trans[i]]. *)
Definition upload8_texel (table : list rgba) (data : list Z) (width s i : Z)
    : outcome (list Z) :=
  p ← rd data i;
  t ← of_read (table !! Z.to_nat p);
  if p =? 255 then
    p' ← fringe_index data width s i;
    t' ← of_read (table !! Z.to_nat p');
    Done [c_r t'; c_g t'; c_b t'; c_a t]
  else Done [c_r t; c_g t; c_b t; c_a t].

Fixpoint upload8_loop (table : list rgba) (data : list Z) (width s : Z)
    (i todo : nat) : outcome (list Z) :=
  match todo with
  | O => Done []
  | S todo' =>
      t ← upload8_texel table data width s (Z.of_nat i);
      rest ← upload8_loop table data width s (S i) todo';
      Done (t ++ rest)
  end.

(** [qboolean GL_Upload8 (byte *data, int width, int height, qboolean mipmap, image_t *image)] *)
Definition GL_Upload8 (cfg : gl_settings) (table : list rgba) (data : list Z)
    (width height : Z) (mipmap : bool) : outcome (bool * (Z * Z)) :=
  let s := width * height in
  trans ← upload8_loop table data width s 0 (Z.to_nat s);
  of_read (GL_Upload32 cfg trans width height mipmap 8).

(** ** Scrap allocation *)

(** The inner loop of [Scrap_AllocBlock] over [j]: [Some best2] when it
    runs to [j == w], [None] when it breaks. *)
Fixpoint column_fits (row : list Z) (best best2 : Z) (idx todo : nat)
    : option Z :=
  match todo with
  | O => Some best2
  | S todo' =>
      let a := default 0 (row !! idx) in
      if a >=? best then None
      else column_fits row best (if a >? best2 then a else best2) (S idx) todo'
  end.

(** The loop over [i]: the last valid spot found and its height. *)
Fixpoint find_spot (row : list Z) (w : Z) (i todo : nat) (x y best : Z)
    : Z * Z * Z :=
  match todo with
  | O => (x, y, best)
  | S todo' =>
      match column_fits row best 0 i (Z.to_nat w) with
      | Some best2 => find_spot row w (S i) todo' (Z.of_nat i) best2 best2
      | None => find_spot row w (S i) todo' x y best
      end
  end.

(** [for (i=0 ; i<w ; i++) scrap_allocated[texnum][*x + i] = best + h;] *)
Definition mark_columns (row : list Z) (x w v : Z) : list Z :=
  fold_left (fun row i => <[Z.to_nat (x + Z.of_nat i) := v]> row)
            (seq 0 (Z.to_nat w)) row.

Fixpoint Scrap_AllocBlock_from (allocated : list (list Z)) (w h x y : Z)
    (texnum todo : nat) : Z * (Z * Z) * list (list Z) :=
  match todo with
  | O => (-1, (x, y), allocated)
  | S todo' =>
      let row := default [] (allocated !! texnum) in
      let '(x, y, best) :=
        find_spot row w 0 (Z.to_nat (BLOCK_WIDTH - w)) x y BLOCK_HEIGHT in
      if best + h >? BLOCK_HEIGHT
      then Scrap_AllocBlock_from allocated w h x y (S texnum) todo'
      else (Z.of_nat texnum, (x, y),
            <[texnum := mark_columns row x w (best + h)]> allocated)
  end.

(** [int Scrap_AllocBlock (int w, int h, int *x, int *y)]: the texture
    number or -1, the values left in [*x], [*y], and [scrap_allocated]. *)
Definition Scrap_AllocBlock (allocated : list (list Z)) (w h x y : Z)
    : Z * (Z * Z) * list (list Z) :=
  Scrap_AllocBlock_from allocated w h x y 0 MAX_SCRAPS.

(** The texel copy into the scrap block, row [i], from column [j]. *)
Fixpoint copy_row (pic : list Z) (texels : gmap (nat * Z) Z) (texnum : nat)
    (x y i : Z) (j k todo : nat) : outcome (gmap (nat * Z) Z * nat) :=
  match todo with
  | O => Done (texels, k)
  | S todo' =>
      p ← of_read (pic !! k);
      copy_row pic
        (<[(texnum, (y + i) * BLOCK_WIDTH + x + Z.of_nat j) := p]> texels)
        texnum x y i (S j) (S k) todo'
  end.

Fixpoint copy_rows (pic : list Z) (texels : gmap (nat * Z) Z) (texnum : nat)
    (x y w : Z) (i k todo : nat) : outcome (gmap (nat * Z) Z) :=
  match todo with
  | O => Done texels
  | S todo' =>
      '(texels, k) ← copy_row pic texels texnum x y (Z.of_nat i) 0 k (Z.to_nat w);
      copy_rows pic texels texnum x y w (S i) k todo'
  end.

(** ** [GL_LoadPic], [GL_LoadWal], [GL_FindImage] *)

Section Cache.
Context `{!gl_local}.
Variable env : assets.
Variable cfg : gl_settings.

(** [for (i=0, image=gltextures ; i<numgltextures ; i++,image++)
      if (!image->texnum) break;] *)
Fixpoint find_free_slot (textures : list image_t) (i todo : nat) : nat :=
  match todo with
  | O => i
  | S todo' =>
      match textures !! i with
      | Some image => if img_texnum image =? 0 then i
                      else find_free_slot textures (S i) todo'
      | None => find_free_slot textures (S i) todo'
      end
  end.

(** [s + len - 4], for the [strcmp] against an extension. *)
Definition tail4 (s : string) : string :=
  substring (String.length s - 4) 4 s.

(** HIRES_TEX_SCALING: a .tga or .png picture takes the dimensions of the
    .wal of the same name, when there is one. *)
Definition hires_size (name : string) (width height : Z) : Z * Z :=
  if String.eqb (tail4 name) ".tga" || String.eqb (tail4 name) ".png" then
    let s := (substring 0 (String.length name - 3) name ++ "wal")%string in
    match FS_LoadFile env s with
    | Some mt => (mt_width mt, mt_height mt)
    | None => (width, height)
    end
  else (width, height).

Definition set_textures (s : gl_globals) (textures : list image_t)
    (num : nat) : gl_globals :=
  mk_globals textures num (registration_sequence s) (d_8to24table s)
    (scrap_allocated s) (scrap_texels s) (scrap_dirty s)
    (upload_width s) (upload_height s) (r_notexture s)
    (r_particletexture s) (deleted_textures s).

(** [image_t *GL_LoadPic (char *name, byte *pic, int width, int height,
    imagetype_t type, int bits)]: the slot of the image returned and the
    globals it leaves. *)
Definition GL_LoadPic (name : string) (pic : list Z) (width height : Z)
    (type : imagetype_t) (bits : Z) (s : gl_globals)
    : outcome (nat * gl_globals) :=
  let i := find_free_slot (gltextures s) 0 (numgltextures s) in
  num ← (if (i =? numgltextures s)%nat then
           if (numgltextures s =? MAX_GLTEXTURES)%nat
           then Drop drop_MAX_GLTEXTURES
           else Done (S (numgltextures s))
         else Done (numgltextures s));
  _ ← (if (MAX_QPATH <=? String.length name)%nat
       then Drop drop_name_too_long else Done tt);
  let old := default image_zero (gltextures s !! i) in
  let '(iw, ih) := hires_size name width height in
  let pic :=
    if bool_decide (type = it_skin) && (bits =? 8)
    then R_FloodFillSkin env (d_8to24table s) pic width height else pic in
  let nonscrap :=
    let texnum := TEXNUM_IMAGES + Z.of_nat i in
    let mipmap :=
      bool_decide (type <> it_pic) && bool_decide (type <> it_sky) in
    '(has_alpha, (uw, uh)) ←
      (if bits =? 8
       then GL_Upload8 cfg (d_8to24table s) pic width height mipmap
       else of_read (GL_Upload32 cfg pic width height mipmap bits));
    let image :=
      mk_image name type iw ih uw uh (registration_sequence s) texnum
               0 0 1 1 has_alpha in
    Done (i, mk_globals (<[i := image]> (gltextures s)) num
               (registration_sequence s) (d_8to24table s)
               (scrap_allocated s) (scrap_texels s) (scrap_dirty s)
               uw uh (r_notexture s) (r_particletexture s)
               (deleted_textures s)) in
  if bool_decide (type = it_pic) && (iw <? 64) && (ih <? 64) && (bits =? 8)
  then
    let '(texnum, (x, y), allocated) :=
      Scrap_AllocBlock (scrap_allocated s) iw ih 0 0 in
    if texnum =? -1 then nonscrap
    else
      texels ← copy_rows pic (scrap_texels s) (Z.to_nat texnum) x y iw
                          0 0 (Z.to_nat ih);
      let image :=
        mk_image name type iw ih
          (img_upload_width old) (img_upload_height old)
          (registration_sequence s) (TEXNUM_SCRAPS + texnum)
          ((inject_Z x + (1 # 100)) / inject_Z BLOCK_WIDTH)%Q
          ((inject_Z y + (1 # 100)) / inject_Z BLOCK_WIDTH)%Q
          ((inject_Z x + inject_Z iw - (1 # 100)) / inject_Z BLOCK_WIDTH)%Q
          ((inject_Z y + inject_Z ih - (1 # 100)) / inject_Z BLOCK_WIDTH)%Q
          true in
      Done (i, mk_globals (<[i := image]> (gltextures s)) num
                 (registration_sequence s) (d_8to24table s)
                 allocated texels true
                 (upload_width s) (upload_height s) (r_notexture s)
                 (r_particletexture s) (deleted_textures s))
  else nonscrap.

(** [image_t *GL_LoadWal (char *name)] *)
Definition GL_LoadWal (name : string) (s : gl_globals)
    : outcome (nat * gl_globals) :=
  match FS_LoadFile env name with
  | None => Done (r_notexture s, s)
  | Some mt =>
      GL_LoadPic name (mt_texels mt) (mt_width mt) (mt_height mt) it_wall 8 s
  end.

(** [image->registration_sequence = registration_sequence;] *)
Definition touch (cur : Z) (image : image_t) : image_t :=
  mk_image (img_name image) (img_type image) (img_width image)
    (img_height image) (img_upload_width image) (img_upload_height image)
    cur (img_texnum image) (img_sl image) (img_tl image) (img_sh image)
    (img_th image) (img_has_alpha image).

(** The "look for it" loop of [GL_FindImage]: the first slot whose name is
    the .png name, the .tga name or the name as given. *)
Fixpoint find_cached (textures : list image_t) (pngname tganame name : string)
    (i todo : nat) : option nat :=
  match todo with
  | O => None
  | S todo' =>
      match textures !! i with
      | Some image =>
          if String.eqb pngname (img_name image) then Some i
          else if String.eqb tganame (img_name image) then Some i
          else if String.eqb name (img_name image) then Some i
          else find_cached textures pngname tganame name (S i) todo'
      | None => find_cached textures pngname tganame name (S i) todo'
      end
  end.

Definition with_slot {A} (r : outcome (nat * A)) : outcome (option nat * A) :=
  '(i, s) ← r; Done (Some i, s).

(** [image_t *GL_FindImage (char *name, imagetype_t type)] with
    TGAPNG_TEX_LOADING defined; [None] is a NULL [name] or result. *)
Definition GL_FindImage (name : option string) (type : imagetype_t)
    (s : gl_globals) : outcome (option nat * gl_globals) :=
  match name with
  | None => Done (None, s)
  | Some name =>
      let len := String.length name in
      if (len <? 5)%nat then Done (None, s)
      else
        let tganame := (COM_StripExtension env name ++ ".tga")%string in
        let pngname := (COM_StripExtension env name ++ ".png")%string in
        match find_cached (gltextures s) pngname tganame name 0
                          (numgltextures s) with
        | Some i =>
            Done (Some i,
                  set_textures s
                    (alter (touch (registration_sequence s)) i (gltextures s))
                    (numgltextures s))
        | None =>
            match LoadPNG env pngname with
            | Some (pic, (width, height)) =>
                with_slot (GL_LoadPic pngname pic width height type 32 s)
            | None =>
                match LoadTGA env tganame with
                | Some (pic, (width, height)) =>
                    with_slot (GL_LoadPic tganame pic width height type 32 s)
                | None =>
                    if String.eqb (tail4 name) ".pcx" then
                      match LoadPCX env name with
                      | None => Done (None, s)
                      | Some (pic, (width, height)) =>
                          with_slot (GL_LoadPic name pic width height type 8 s)
                      end
                    else if String.eqb (tail4 name) ".wal" then
                      with_slot (GL_LoadWal name s)
                    else Done (None, s)
                end
            end
        end
  end.

(** ** [GL_FreeUnusedImages] *)

(** [for (i = 0; i < PT_MAX; i++)
      r_particletexture[i]->registration_sequence = registration_sequence;] *)
Definition touch_particles (cur : Z) (pointers : list nat)
    (textures : list image_t) : list image_t :=
  fold_left
    (fun textures i =>
       match pointers !! i with
       | Some p => alter (touch cur) p textures
       | None => textures
       end)
    (seq 0 PT_MAX) textures.

(** The sweep loop from slot [i], with [todo = numgltextures - i] slots
    left: the slots and the textures deleted. *)
Fixpoint sweep_loop (cur : Z) (textures : list image_t) (deleted : list Z)
    (i todo : nat) : list image_t * list Z :=
  match todo with
  | O => (textures, deleted)
  | S todo' =>
      match textures !! i with
      | None => sweep_loop cur textures deleted (S i) todo'
      | Some image =>
          if img_registration_sequence image =? cur
          then sweep_loop cur textures deleted (S i) todo'
          else if img_registration_sequence image =? 0
          then sweep_loop cur textures deleted (S i) todo'
          else if bool_decide (img_type image = it_pic)
          then sweep_loop cur textures deleted (S i) todo'
          else sweep_loop cur (<[i := image_zero]> textures)
                 (deleted ++ [img_texnum image]) (S i) todo'
      end
  end.

(** [void GL_FreeUnusedImages (void)] *)
Definition GL_FreeUnusedImages (s : gl_globals) : gl_globals :=
  let cur := registration_sequence s in
  let textures := alter (touch cur) (r_notexture s) (gltextures s) in
  let textures := touch_particles cur (r_particletexture s) textures in
  let '(textures, deleted) :=
    sweep_loop cur textures (deleted_textures s) 0 (numgltextures s) in
  mk_globals textures (numgltextures s) (registration_sequence s)
    (d_8to24table s) (scrap_allocated s) (scrap_texels s) (scrap_dirty s)
    (upload_width s) (upload_height s) (r_notexture s)
    (r_particletexture s) deleted.

(** The images the cache holds: the slots in use. *)
Definition image_count (s : gl_globals) : nat :=
  length (filter (fun image => img_registration_sequence image <> 0)
                 (take (numgltextures s) (gltextures s))).

End Cache.

(** ** Facts: alpha classification *)







(** ** Facts: small pics in the scrap *)

Lemma copy_row_done pic texnum x y i todo : forall texels j k,
  (k + todo <= length pic)%nat ->
  exists texels',
    copy_row pic texels texnum x y i j k todo = Done (texels', (k + todo)%nat).
Proof.
  induction todo as [|todo IH]; intros texels j k Hlen; cbn [copy_row].
  - exists texels. rewrite Nat.add_0_r. reflexivity.
  - destruct (pic !! k) as [p|] eqn:Hp.
    + cbn. destruct (IH (<[(texnum, (y + i) * BLOCK_WIDTH + x + Z.of_nat j) := p]> texels)
                        (S j) (S k)) as (t' & Ht'); [lia|].
      exists t'. rewrite Ht'. f_equal. f_equal. lia.
    + apply lookup_ge_None in Hp. lia.
Qed.

Lemma copy_rows_done pic texnum x y w todo : forall texels i k,
  (k + todo * Z.to_nat w <= length pic)%nat ->
  exists texels',
    copy_rows pic texels texnum x y w i k todo = Done texels'.
Proof.
  induction todo as [|todo IH]; intros texels i k Hlen; cbn [copy_rows].
  - exists texels. reflexivity.
  - destruct (copy_row_done pic texnum x y (Z.of_nat i) (Z.to_nat w) texels
                0%nat k) as (t1 & Ht1); [lia|].
    rewrite Ht1. cbn.
    apply IH. lia.
Qed.

Section CacheFacts.
Context `{!gl_local}.
Variable env : assets.
Variable cfg : gl_settings.

(** C10. An 8-bit [it_pic] image whose (stored) width and height are both
    below 64 and for which [Scrap_AllocBlock] finds a block is loaded into
    the scrap and gets [has_alpha = true], whatever its texels are: no
    alpha scan takes part. *)
Theorem GL_LoadPic_scrap_has_alpha (name : string) (pic : list Z)
    (width height : Z) (s : gl_globals)
    (iw ih texnum x y : Z) (allocated : list (list Z)) :
  let i := find_free_slot (gltextures s) 0 (numgltextures s) in
  (String.length name < MAX_QPATH)%nat ->
  (i < numgltextures s \/ numgltextures s < MAX_GLTEXTURES)%nat ->
  (i < length (gltextures s))%nat ->
  hires_size env name width height = (iw, ih) ->
  iw < 64 -> ih < 64 ->
  Scrap_AllocBlock (scrap_allocated s) iw ih 0 0 = (texnum, (x, y), allocated) ->
  texnum <> -1 ->
  (Z.to_nat ih * Z.to_nat iw <= length pic)%nat ->
  exists s' image,
    GL_LoadPic env cfg name pic width height it_pic 8 s = Done (i, s') /\
    gltextures s' !! i = Some image /\
    img_has_alpha image = true /\
    img_texnum image = TEXNUM_SCRAPS + texnum /\
    img_name image = name /\
    scrap_allocated s' = allocated.
Proof.
  intros i Hname Hslot Hi Hsize Hw Hh Halloc Htex Hpic.
  unfold GL_LoadPic. fold i.
  assert ((if (i =? numgltextures s)%nat
           then if (numgltextures s =? MAX_GLTEXTURES)%nat
                then Drop drop_MAX_GLTEXTURES
                else Done (S (numgltextures s))
           else Done (numgltextures s)) =
          Done (if (i =? numgltextures s)%nat then S (numgltextures s)
                else numgltextures s)) as ->.
  { destruct (Nat.eqb_spec i (numgltextures s)) as [E|E]; [|reflexivity].
    destruct (Nat.eqb_spec (numgltextures s) MAX_GLTEXTURES); [lia|reflexivity]. }
  cbn [mbind outcome_bind].
  destruct (Nat.leb_spec MAX_QPATH (String.length name)) as [E|E]; [lia|].
  cbn [mbind outcome_bind].
  rewrite Hsize.
  replace (bool_decide (it_pic = it_skin)) with false by reflexivity.
  replace (bool_decide (it_pic = it_pic)) with true by reflexivity.
  cbn [andb].
  destruct (Z.ltb_spec iw 64) as [_|]; [|lia].
  destruct (Z.ltb_spec ih 64) as [_|]; [|lia].
  cbn [andb]. change (8 =? 8) with true. cbv iota.
  rewrite Halloc.
  destruct (Z.eqb_spec texnum (-1)) as [|_]; [contradiction|].
  destruct (copy_rows_done pic (Z.to_nat texnum) x y iw (Z.to_nat ih)
              (scrap_texels s) 0%nat 0%nat) as (texels & Hcopy); [lia|].
  rewrite Hcopy. cbn [mbind outcome_bind].
  eexists _, _. split; [reflexivity|]. cbn [gltextures].
  split; [apply list_lookup_insert_eq; exact Hi|].
  repeat split.
Qed.

End CacheFacts.

(** ** Facts: the sweep *)

(** The three [continue] of the sweep loop. *)
Definition skipped (cur : Z) (image : image_t) : Prop :=
  img_registration_sequence image = cur \/
  img_registration_sequence image = 0 \/
  img_type image = it_pic.

(** Every image stored at slot [p] carries the current sequence. *)
Definition current_at (cur : Z) (textures : list image_t) (p : nat) : Prop :=
  forall image, textures !! p = Some image ->
    img_registration_sequence image = cur.

Lemma touch_current cur image :
  img_registration_sequence image = cur -> touch cur image = image.
Proof. intros <-. destruct image; reflexivity. Qed.

Lemma alter_touch_id cur textures p :
  current_at cur textures p -> alter (touch cur) p textures = textures.
Proof.
  intros Hc. apply list_eq. intros j.
  destruct (decide (j = p)) as [->|Hne].
  - rewrite list_lookup_alter_eq.
    destruct (textures !! p) as [image|] eqn:E; [|reflexivity].
    simpl. rewrite touch_current; [reflexivity | apply Hc, E].
  - rewrite list_lookup_alter_ne by congruence. reflexivity.
Qed.

Lemma alter_touch_current cur textures p q :
  q = p \/ current_at cur textures q ->
  current_at cur (alter (touch cur) p textures) q.
Proof.
  intros Hq image Him.
  destruct (decide (q = p)) as [->|Hne].
  - rewrite list_lookup_alter_eq in Him.
    destruct (textures !! p); simpl in Him; [|discriminate].
    inversion Him. reflexivity.
  - rewrite list_lookup_alter_ne in Him by congruence.
    destruct Hq as [?|Hq]; [contradiction|]. apply Hq, Him.
Qed.

Section SweepFacts.
Context `{!gl_local}.

Definition touch_step (cur : Z) (pointers : list nat)
    (textures : list image_t) (i : nat) : list image_t :=
  match pointers !! i with
  | Some p => alter (touch cur) p textures
  | None => textures
  end.

Lemma touch_fold_current cur pointers slots : forall textures q,
  (current_at cur textures q \/
   exists i, i ∈ slots /\ pointers !! i = Some q) ->
  current_at cur (fold_left (touch_step cur pointers) slots textures) q.
Proof.
  induction slots as [|i slots IH]; intros textures q Hq; simpl.
  - destruct Hq as [Hq|(i & Hi & _)]; [exact Hq|]. inversion Hi.
  - apply IH. unfold touch_step.
    destruct Hq as [Hq|(j & Hj & Hp)].
    + left. destruct (pointers !! i); [|exact Hq].
      apply alter_touch_current. now right.
    + apply elem_of_cons in Hj as [->|Hj].
      * left. rewrite Hp. apply alter_touch_current. now left.
      * right. exists j. split; assumption.
Qed.

Lemma touch_fold_id cur pointers slots : forall textures,
  (forall i p, i ∈ slots -> pointers !! i = Some p ->
     current_at cur textures p) ->
  fold_left (touch_step cur pointers) slots textures = textures.
Proof.
  induction slots as [|i slots IH]; intros textures Hc; simpl; [reflexivity|].
  assert (touch_step cur pointers textures i = textures) as ->.
  { unfold touch_step. destruct (pointers !! i) as [p|] eqn:Hp; [|reflexivity].
    apply alter_touch_id. apply (Hc i p); [apply elem_of_cons; now left | exact Hp]. }
  apply IH. intros j p Hj Hp. apply (Hc j p); [|exact Hp].
  apply elem_of_cons. now right.
Qed.

Lemma skipped_zero cur : skipped cur image_zero.
Proof. right. left. reflexivity. Qed.

(** What one run of the loop over the slots [i, i + todo) does: it keeps
    the length, keeps every skipped image where it is, and leaves only
    skipped images in the slots it visited. *)
Lemma sweep_loop_spec cur todo : forall textures deleted i,
  let r := sweep_loop cur textures deleted i todo in
  length (fst r) = length textures /\
  (forall j image, textures !! j = Some image -> skipped cur image ->
     fst r !! j = Some image) /\
  (forall j image, (i <= j < i + todo)%nat -> fst r !! j = Some image ->
     skipped cur image).
Proof.
  induction todo as [|todo IH]; intros textures deleted i; cbn [sweep_loop].
  - simpl. split; [reflexivity|]. split; [auto|]. intros; lia.
  - destruct (textures !! i) as [image|] eqn:Hi.
    + assert (forall deleted',
        let r := sweep_loop cur textures deleted' (S i) todo in
        skipped cur image ->
        length (fst r) = length textures /\
        (forall j im, textures !! j = Some im -> skipped cur im ->
           fst r !! j = Some im) /\
        (forall j im, (i <= j < i + S todo)%nat -> fst r !! j = Some im ->
           skipped cur im)) as Hskip.
      { intros deleted' r Hs. subst r.
        destruct (IH textures deleted' (S i)) as (Hl & Hk & Hc).
        split; [exact Hl|]. split; [exact Hk|].
        intros j im Hj Him.
        destruct (decide (j = i)) as [->|Hne].
        - rewrite (Hk i image Hi Hs) in Him. inversion Him; subst. exact Hs.
        - apply (Hc j im); [lia | exact Him]. }
      destruct (Z.eqb_spec (img_registration_sequence image) cur) as [E1|E1];
        [apply Hskip; now left|].
      destruct (Z.eqb_spec (img_registration_sequence image) 0) as [E2|E2];
        [apply Hskip; right; now left|].
      destruct (decide (img_type image = it_pic)) as [E3|E3].
      * rewrite bool_decide_eq_true_2 by exact E3.
        apply Hskip; right; now right.
      * rewrite bool_decide_eq_false_2 by exact E3.
        destruct (IH (<[i := image_zero]> textures)
                     (deleted ++ [img_texnum image]) (S i)) as (Hl & Hk & Hc).
        assert (i < length textures)%nat as Hlt
          by (eapply lookup_lt_Some; exact Hi).
        split; [rewrite Hl; apply length_insert|]. split.
        -- intros j im Hj Hs. apply Hk; [|exact Hs].
           destruct (decide (j = i)) as [->|Hne].
           ++ rewrite Hi in Hj. inversion Hj; subst im.
              destruct Hs as [?|[?|?]]; contradiction.
           ++ rewrite list_lookup_insert_ne by congruence. exact Hj.
        -- intros j im Hj Him.
           destruct (decide (j = i)) as [->|Hne].
           ++ rewrite (Hk i image_zero) in Him.
              ** inversion Him; subst. apply skipped_zero.
              ** apply list_lookup_insert_eq. exact Hlt.
              ** apply skipped_zero.
           ++ apply (Hc j im); [lia | exact Him].
    + destruct (IH textures deleted (S i)) as (Hl & Hk & Hc).
      split; [exact Hl|]. split; [exact Hk|].
      intros j im Hj Him.
      destruct (decide (j = i)) as [->|Hne].
      * apply lookup_ge_None in Hi.
        apply lookup_lt_Some in Him. lia.
      * apply (Hc j im); [lia | exact Him].
Qed.

(** Over slots that hold only skipped images the loop changes nothing and
    deletes nothing. *)
Lemma sweep_loop_noop cur todo : forall textures deleted i,
  (forall j image, (i <= j < i + todo)%nat -> textures !! j = Some image ->
     skipped cur image) ->
  sweep_loop cur textures deleted i todo = (textures, deleted).
Proof.
  induction todo as [|todo IH]; intros textures deleted i Hs;
    cbn [sweep_loop]; [reflexivity|].
  assert (sweep_loop cur textures deleted (S i) todo = (textures, deleted))
    as Hrest by (apply IH; intros j im Hj; apply Hs; lia).
  destruct (textures !! i) as [image|] eqn:Hi; [|exact Hrest].
  destruct (Z.eqb_spec (img_registration_sequence image) cur); [exact Hrest|].
  destruct (Z.eqb_spec (img_registration_sequence image) 0); [exact Hrest|].
  destruct (decide (img_type image = it_pic)) as [E3|E3].
  - rewrite bool_decide_eq_true_2 by exact E3. exact Hrest.
  - destruct (Hs i image) as [?|[?|?]]; try contradiction; [lia | exact Hi].
Qed.

Lemma touch_particles_fold cur pointers textures :
  touch_particles cur pointers textures =
  fold_left (touch_step cur pointers) (seq 0 PT_MAX) textures.
Proof. reflexivity. Qed.

(** C8. The sweep is idempotent: a second [GL_FreeUnusedImages] right after
    a first leaves the globals as the first left them; it deletes no
    texture and the number of images in the cache does not change. *)
Theorem GL_FreeUnusedImages_idempotent (s : gl_globals) :
  let s1 := GL_FreeUnusedImages s in
  let s2 := GL_FreeUnusedImages s1 in
  s2 = s1 /\
  deleted_textures s2 = deleted_textures s1 /\
  image_count s2 = image_count s1.
Proof.
  intros s1 s2.
  assert (s2 = s1) as Heq; [|rewrite Heq; auto].
  subst s2 s1. unfold GL_FreeUnusedImages.
  set (cur := registration_sequence s).
  set (tex1 := touch_particles cur (r_particletexture s)
                 (alter (touch cur) (r_notexture s) (gltextures s))).
  pose proof (sweep_loop_spec cur (numgltextures s) tex1 (deleted_textures s) 0)
    as (Hlen & Hkeep & Hclean).
  destruct (sweep_loop cur tex1 (deleted_textures s) 0 (numgltextures s))
    as [tex2 del2] eqn:Hrun.
  cbn [fst] in Hlen, Hkeep, Hclean.
  cbn [registration_sequence r_notexture r_particletexture gltextures
       numgltextures deleted_textures d_8to24table scrap_allocated
       scrap_texels scrap_dirty upload_width upload_height].
  fold cur.
  assert (forall p, current_at cur tex1 p -> current_at cur tex2 p) as Hcur.
  { intros p Hp image Him.
    destruct (tex1 !! p) as [im1|] eqn:E1.
    - rewrite (Hkeep p im1 E1) in Him by (left; apply Hp; exact E1).
      inversion Him; subst. apply Hp. exact E1.
    - apply lookup_ge_None in E1. apply lookup_lt_Some in Him. lia. }
  assert (alter (touch cur) (r_notexture s) tex2 = tex2) as ->.
  { apply alter_touch_id, Hcur. subst tex1.
    rewrite touch_particles_fold. apply touch_fold_current. left.
    apply alter_touch_current. now left. }
  assert (touch_particles cur (r_particletexture s) tex2 = tex2) as ->.
  { rewrite touch_particles_fold. apply touch_fold_id.
    intros i p Hi Hp. apply Hcur. subst tex1.
    rewrite touch_particles_fold. apply touch_fold_current. right.
    exists i. split; assumption. }
  rewrite sweep_loop_noop; [reflexivity|].
  intros j image Hj Him. apply (Hclean j image); [lia | exact Him].
Qed.

End SweepFacts.

(** ** Facts: finding an image *)

Section FindFacts.
Context `{!gl_local}.
Variable env : assets.
Variable cfg : gl_settings.

(** Slot [j] holds an image cached under one of the three names. *)
Definition cached_at (textures : list image_t) (pngname tganame name : string)
    (j : nat) : Prop :=
  exists image, textures !! j = Some image /\
    (img_name image = pngname \/ img_name image = tganame \/
     img_name image = name).

Lemma find_cached_spec textures pngname tganame name todo : forall i,
  match find_cached textures pngname tganame name i todo with
  | Some k =>
      (i <= k < i + todo)%nat /\
      cached_at textures pngname tganame name k /\
      forall j, (i <= j < k)%nat -> ~ cached_at textures pngname tganame name j
  | None =>
      forall j, (i <= j < i + todo)%nat ->
        ~ cached_at textures pngname tganame name j
  end.
Proof.
  induction todo as [|todo IH]; intros i; cbn [find_cached].
  - intros j Hj. lia.
  - assert (~ cached_at textures pngname tganame name i ->
            match find_cached textures pngname tganame name (S i) todo with
            | Some k =>
                (i <= k < i + S todo)%nat /\
                cached_at textures pngname tganame name k /\
                forall j, (i <= j < k)%nat ->
                  ~ cached_at textures pngname tganame name j
            | None =>
                forall j, (i <= j < i + S todo)%nat ->
                  ~ cached_at textures pngname tganame name j
            end) as Hnext.
    { intros Hi. specialize (IH (S i)).
      destruct (find_cached textures pngname tganame name (S i) todo) as [k|].
      - destruct IH as (Hk & Hc & Hmin). split; [lia|]. split; [exact Hc|].
        intros j Hj. destruct (decide (j = i)) as [->|]; [exact Hi|].
        apply Hmin. lia.
      - intros j Hj. destruct (decide (j = i)) as [->|]; [exact Hi|].
        apply IH. lia. }
    destruct (textures !! i) as [image|] eqn:Hi.
    + assert (forall n, String.eqb n (img_name image) = true ->
                img_name image = n) as Heq
        by (intros n Hn; apply String.eqb_eq in Hn; congruence).
      assert (cached_at textures pngname tganame name i ->
              (i <= i < i + S todo)%nat /\
              cached_at textures pngname tganame name i /\
              forall j, (i <= j < i)%nat ->
                ~ cached_at textures pngname tganame name j) as Hhit
        by (intros Hc; split; [lia|]; split; [exact Hc | intros; lia]).
      destruct (String.eqb pngname (img_name image)) eqn:E1.
      { apply Hhit. exists image. split; [exact Hi|]. left. now apply Heq. }
      destruct (String.eqb tganame (img_name image)) eqn:E2.
      { apply Hhit. exists image. split; [exact Hi|]. right. left. now apply Heq. }
      destruct (String.eqb name (img_name image)) eqn:E3.
      { apply Hhit. exists image. split; [exact Hi|]. right. right. now apply Heq. }
      apply Hnext. intros (im & Him & Hn). rewrite Hi in Him.
      inversion Him; subst im.
      apply String.eqb_neq in E1, E2, E3.
      destruct Hn as [?|[?|?]]; congruence.
    + apply Hnext. intros (im & Him & _). congruence.
Qed.

(** The image [GL_LoadPic] returns is stored under the name it was given,
    with the current registration sequence. *)
Lemma GL_LoadPic_name name pic width height type bits s i s' :
  GL_LoadPic env cfg name pic width height type bits s = Done (i, s') ->
  (i < length (gltextures s))%nat ->
  exists image, gltextures s' !! i = Some image /\
    img_name image = name /\
    img_registration_sequence image = registration_sequence s.
Proof.
  unfold GL_LoadPic. intros Hrun Hi.
  unfold mbind, outcome_bind in Hrun.
  repeat case_match; simplify_eq; cbn [gltextures];
    (eexists; split; [apply list_lookup_insert_eq; assumption|]);
    split; reflexivity.
Qed.


End FindFacts.

(** ** A booted renderer without game files *)

(** Quake II's [COM_StripExtension]: the name up to its first dot. *)
Fixpoint strip_extension (s : string) : string :=
  match s with
  | EmptyString => EmptyString
  | String c rest =>
      if Ascii.eqb c "."%char then EmptyString
      else String c (strip_extension rest)
  end.

(** No file can be loaded; pictures of [it_pic] type are never flood
    filled, so the fill is left out here. *)
Definition no_files : assets :=
  mk_assets (fun _ => None) (fun _ => None) (fun _ => None) (fun _ => None)
            strip_extension (fun _ pic _ _ => pic).

(** The same, with one console background as a PNG of 2x2 texels. *)
Definition conback_png : picture := (concat (replicate 4 orange), (2, 2)).

Definition one_png : assets :=
  mk_assets
    (fun n => if String.eqb n "pics/conback.png" then Some conback_png else None)
    (fun _ => None) (fun _ => None) (fun _ => None)
    strip_extension (fun _ pic _ _ => pic).

#[local] Existing Instance quake2_gl_local.

Definition particle_image (i : Z) : image_t :=
  mk_image "***particle***" it_sprite 16 16 1 1 1 (1153 + i) 0 0 1 1 true.

Definition notexture_image : image_t :=
  mk_image "***r_notexture***" it_wall 16 16 1 1 1 (1153 + 5) 0 0 1 1 false.

(** The globals after [R_InitParticleTexture]: five particle textures, then
    [r_notexture]. *)
Definition booted : gl_globals :=
  mk_globals
    (map particle_image [0; 1; 2; 3; 4] ++ [notexture_image]
       ++ replicate 1018 image_zero)
    6 1 (replicate 256 (mk_rgba 0 0 0 255)) [replicate 256 0] ∅ false 1 1
    5%nat [0; 1; 2; 3; 4]%nat [].


Example strip_extension_wal :
  strip_extension "textures/e1u1/water1.wal" = "textures/e1u1/water1"%string.
Proof. reflexivity. Qed.

(** A small 8-bit pic goes to the scrap, a 64-wide one does not. *)
Example small_pic_in_scrap :
  (fun r => match r with
            | Done (i, s') => img_texnum <$> gltextures s' !! i
            | _ => None
            end)
    (GL_LoadPic no_files default_settings "pics/a_small.pcx" [1; 2; 3; 4]
                2 2 it_pic 8 booted) = Some 1152.
Proof. vm_compute. reflexivity. Qed.

Example wide_pic_not_in_scrap :
  (fun r => match r with
            | Done (i, s') => img_texnum <$> gltextures s' !! i
            | _ => None
            end)
    (GL_LoadPic no_files default_settings "pics/a_wide.pcx" (replicate 64 1)
                64 1 it_pic 8 booted) = Some (1153 + 6).
Proof. vm_compute. reflexivity. Qed.

(** The texels [1; 2; 3; 4] hold no transparent index: in the scrap the pic
    has alpha all the same; uploaded on its own (64 wide) it has none. *)
Example small_pic_has_alpha :
  (fun r => match r with
            | Done (i, s') => img_has_alpha <$> gltextures s' !! i
            | _ => None
            end)
    (GL_LoadPic no_files default_settings "pics/a_small.pcx" [1; 2; 3; 4]
                2 2 it_pic 8 booted) = Some true.
Proof. vm_compute. reflexivity. Qed.

Example wide_pic_has_no_alpha :
  (fun r => match r with
            | Done (i, s') => img_has_alpha <$> gltextures s' !! i
            | _ => None
            end)
    (GL_LoadPic no_files default_settings "pics/a_wide.pcx" (replicate 64 1)
                64 1 it_pic 8 booted) = Some false.
Proof. vm_compute. reflexivity. Qed.

Lemma GL_LoadPic_scrap_has_alpha_witness :
  let name := "pics/a_small.pcx"%string in
  let allocated := [[2; 2] ++ replicate 254 0] in
  let i := find_free_slot (gltextures booted) 0 (numgltextures booted) in
  ((String.length name < MAX_QPATH)%nat /\
   (i < numgltextures booted \/ numgltextures booted < MAX_GLTEXTURES)%nat /\
   (i < length (gltextures booted))%nat /\
   hires_size no_files name 2 2 = (2, 2) /\
   2 < 64 /\ 2 < 64 /\
   Scrap_AllocBlock (scrap_allocated booted) 2 2 0 0 = (0, (0, 0), allocated) /\
   0 <> -1 /\
   (Z.to_nat 2 * Z.to_nat 2 <= length [1; 2; 3; 4])%nat) /\
  exists s' image,
    GL_LoadPic no_files default_settings name [1; 2; 3; 4] 2 2 it_pic 8 booted
      = Done (i, s') /\
    gltextures s' !! i = Some image /\
    img_has_alpha image = true /\
    img_texnum image = TEXNUM_SCRAPS + 0 /\
    img_name image = name /\
    scrap_allocated s' = allocated.
Proof.
  intros name allocated i.
  assert ((String.length name < MAX_QPATH)%nat) as H1 by (vm_compute; lia).
  assert (i < numgltextures booted \/ numgltextures booted < MAX_GLTEXTURES)%nat
    as H2 by (right; vm_compute; lia).
  assert (i < length (gltextures booted))%nat as H3 by (vm_compute; lia).
  assert (hires_size no_files name 2 2 = (2, 2)) as H4 by reflexivity.
  assert (2 < 64) as H5 by lia.
  assert (Scrap_AllocBlock (scrap_allocated booted) 2 2 0 0
          = (0, (0, 0), allocated)) as H6 by (vm_compute; reflexivity).
  assert (0 <> -1) as H7 by lia.
  assert (Z.to_nat 2 * Z.to_nat 2 <= length [1; 2; 3; 4])%nat as H8
    by (vm_compute; lia).
  split; [repeat split; assumption|].
  exact (GL_LoadPic_scrap_has_alpha no_files default_settings name [1; 2; 3; 4]
           2 2 booted 2 2 0 0 0 allocated H1 H2 H3 H4 H5 H5 H6 H7 H8).
Defined.




(** The cache is searched before anything is loaded: with the .pcx cached
    and a loadable .png, the cached .pcx is returned. *)
Example GL_FindImage_cached_pcx_before_png :
  let s := set_textures booted
             (<[6%nat := mk_image "pics/conback.pcx" it_pic 2 2 2 2 1 1159
                                  0 0 1 1 false]> (gltextures booted)) 7 in
  fst <$> (fun r => match r with Done a => Some a | _ => None end)
            (GL_FindImage one_png default_settings (Some "pics/conback.pcx")
                          it_pic s) = Some (Some 6%nat).
Proof. vm_compute. reflexivity. Qed.

End Image.

(* ===================================================================== *)
(** * Screen capture ([GL_ScreenShot_f], gl_rmisc.c)                      *)
(* ===================================================================== *)

Module ScreenShot.

(** What the command reads from the renderer: the game directory, the video
    mode, the frame [qglReadPixels] returns (RGB bytes), whether a hardware
    gamma ramp is active, and the gamma curve
    [255 * pow ((i+0.5) * (1/255.5), vid_gamma) + 0.5] truncated to [int]. *)
Record capture : Type := mk_capture {
  FS_Gamedir : string;
  vid_width : Z;
  vid_height : Z;
  frame : list Z;
  gammaramp : bool;
  gamma_curve : Z -> Z
}.

(** The file system and the console. *)
Record system : Type := mk_system {
  files : gmap string (list Z);
  dirs : gset string;
  console : list string
}.

Definition newline : string := String (ascii_of_nat 10) EmptyString.

(** [Sys_Mkdir]: creates the directory unless it exists. *)
Definition Sys_Mkdir (path : string) (s : system) : system :=
  mk_system (files s) ({[path]} ∪ dirs s) (console s).

(** [VID_Printf (PRINT_ALL, ...)] *)
Definition VID_Printf (msg : string) (s : system) : system :=
  mk_system (files s) (dirs s) (console s ++ [msg]).

(** [f = fopen (path, "wb"); fwrite (buffer, 1, c, f); fclose (f);] *)
Definition write_file (path : string) (bytes : list Z) (s : system) : system :=
  mk_system (<[path := bytes]> (files s)) (dirs s) (console s).

(** [picname] after [picname[5] = i/10 + '0'; picname[6] = i%10 + '0';] *)
Definition picname (i : nat) : string :=
  ("quake" ++ String (ascii_of_nat (i / 10 + 48))
                (String (ascii_of_nat (i mod 10 + 48)) ".tga"))%string.

Definition scrnshot_dir (gamedir : string) : string :=
  (gamedir ++ "/scrnshot")%string.

(** [Com_sprintf (checkname, sizeof(checkname), "%s/scrnshot/%s",
    FS_Gamedir(), picname)], for paths that fit [MAX_OSPATH]. *)
Definition checkname (gamedir : string) (i : nat) : string :=
  (gamedir ++ "/scrnshot/" ++ picname i)%string.

(** The name loop from [i], with [todo = 100 - i] names left: the value of
    [i] when it ends. *)
Fixpoint find_free_name (fs : gmap string (list Z)) (gamedir : string)
    (i todo : nat) : nat :=
  match todo with
  | O => i
  | S todo' =>
      match fs !! checkname gamedir i with
      | None => i
      | Some _ => find_free_name fs gamedir (S i) todo'
      end
  end.

Definition to_byte (v : Z) : Z := v mod 256.

(** The 18 bytes of the Targa header. *)
Definition tga_header (width height : Z) : list Z :=
  [0; 0; 2; 0; 0; 0; 0; 0; 0; 0; 0; 0;
   to_byte (Z.land width 255); to_byte (Z.shiftr width 8);
   to_byte (Z.land height 255); to_byte (Z.shiftr height 8);
   24; 0].

(** [gammaTable[i]] *)
Definition gammaTable (curve : Z -> Z) (i : Z) : Z :=
  let v := curve i in
  let v := if (v >? 255)%Z then 255 else v in
  if (v <? 0)%Z then 0 else v.

(** The swap of rgb to bgr, three bytes at a time. *)
Fixpoint swap_rgb (l : list Z) : list Z :=
  match l with
  | r :: g :: b :: rest => b :: g :: r :: swap_rgb rest
  | _ => l
  end.

(** The [c] bytes written to the file. *)
Definition tga_bytes (hw : capture) : list Z :=
  let pixels := take (Z.to_nat (vid_width hw * vid_height hw * 3)) (frame hw) in
  let pixels :=
    if gammaramp hw then map (gammaTable (gamma_curve hw)) pixels else pixels in
  tga_header (vid_width hw) (vid_height hw) ++ swap_rgb pixels.

(** [void GL_ScreenShot_f (void)] *)
Definition GL_ScreenShot_f (hw : capture) (s : system) : system :=
  let s := Sys_Mkdir (scrnshot_dir (FS_Gamedir hw)) s in
  let i := find_free_name (files s) (FS_Gamedir hw) 0 100 in
  if (i =? 100)%nat then
    VID_Printf ("SCR_ScreenShot_f: Couldn't create a file" ++ newline)%string s
  else
    let s := write_file (checkname (FS_Gamedir hw) i) (tga_bytes hw) s in
    VID_Printf ("Wrote " ++ picname i ++ newline)%string s.

(** A directory that already holds the screenshots [quake00 .. quake(n-1)]. *)
Definition with_screenshots (gamedir : string) (n : nat) : system :=
  mk_system
    (fold_right (fun i fs => <[checkname gamedir i := [0]]> fs) ∅ (seq 0 n))
    {[scrnshot_dir gamedir]} [].

Definition black_2x1 : capture :=
  mk_capture "baseq2" 2 1 [1; 2; 3; 4; 5; 6] false (fun i => i).

(** ** Facts *)

Lemma find_free_name_spec fs gamedir todo : forall i,
  let r := find_free_name fs gamedir i todo in
  (i <= r <= i + todo)%nat /\
  (forall m, (i <= m < r)%nat -> is_Some (fs !! checkname gamedir m)) /\
  ((r < i + todo)%nat -> fs !! checkname gamedir r = None).
Proof.
  induction todo as [|todo IH]; intros i; cbn [find_free_name].
  - simpl. split; [lia|]. split; intros; lia.
  - destruct (fs !! checkname gamedir i) as [f|] eqn:Hi.
    + destruct (IH (S i)) as (Hr & Hbusy & Hfree).
      split; [lia|]. split.
      * intros m Hm. destruct (decide (m = i)) as [->|Hne].
        -- rewrite Hi. eauto.
        -- apply Hbusy. lia.
      * intros Hlt. apply Hfree. lia.
    + simpl. split; [lia|]. split; [intros; lia|]. intros _. exact Hi.
Qed.

Lemma find_free_name_first fs gamedir n :
  (n < 100)%nat -> fs !! checkname gamedir n = None ->
  (forall m, (m < n)%nat -> is_Some (fs !! checkname gamedir m)) ->
  find_free_name fs gamedir 0 100 = n.
Proof.
  intros Hn Hfree Hbusy.
  destruct (find_free_name_spec fs gamedir 100 0) as (Hr & Hb & Hf).
  set (r := find_free_name fs gamedir 0 100) in *.
  destruct (Nat.lt_trichotomy r n) as [Hlt|[Heq|Hgt]]; [|exact Heq|].
  - specialize (Hf ltac:(lia)). destruct (Hbusy r Hlt) as [f Hsome].
    congruence.
  - destruct (Hb n ltac:(lia)) as [f Hsome]. congruence.
Qed.

Lemma find_free_name_full fs gamedir :
  (forall m, (m < 100)%nat -> is_Some (fs !! checkname gamedir m)) ->
  find_free_name fs gamedir 0 100 = 100%nat.
Proof.
  intros Hbusy.
  destruct (find_free_name_spec fs gamedir 100 0) as (Hr & Hb & Hf).
  set (r := find_free_name fs gamedir 0 100) in *.
  destruct (decide (r = 100%nat)) as [|Hne]; [assumption|].
  specialize (Hf ltac:(lia)). destruct (Hbusy r ltac:(lia)) as [f Hsome].
  congruence.
Qed.

(** The run when no name is free. *)
Lemma GL_ScreenShot_f_all_taken (hw : capture) (s : system) :
  (forall m, (m < 100)%nat ->
     is_Some (files s !! checkname (FS_Gamedir hw) m)) ->
  GL_ScreenShot_f hw s =
    VID_Printf ("SCR_ScreenShot_f: Couldn't create a file" ++ newline)%string
      (Sys_Mkdir (scrnshot_dir (FS_Gamedir hw)) s).
Proof.
  intros Hbusy. unfold GL_ScreenShot_f. cbn [files Sys_Mkdir].
  rewrite (find_free_name_full _ _ Hbusy). reflexivity.
Qed.

Lemma Sys_Mkdir_existing path s :
  path ∈ dirs s -> dirs (Sys_Mkdir path s) = dirs s.
Proof.
  intros Hdir. cbn [dirs Sys_Mkdir].
  apply (subseteq_union_1_L (C := gset string)).
  apply singleton_subseteq_l. exact Hdir.
Qed.

(** C3. The screenshot command writes to the first name [quakeNN.tga], [NN]
    from 00 to 99 in increasing order, for which no file exists, and leaves
    the other files as they are; when all hundred names exist it prints the
    "Couldn't create a file" line and writes no file, and the file system
    is unchanged (the scrnshot directory, which holds those files, already
    exists). *)
Theorem GL_ScreenShot_f_first_free_name (hw : capture) (s : system) :
  let gamedir := FS_Gamedir hw in
  let s' := GL_ScreenShot_f hw s in
  (forall n, (n < 100)%nat ->
     files s !! checkname gamedir n = None ->
     (forall m, (m < n)%nat -> is_Some (files s !! checkname gamedir m)) ->
     files s' = <[checkname gamedir n := tga_bytes hw]> (files s) /\
     console s' = console s ++ [("Wrote " ++ picname n ++ newline)%string]) /\
  ((forall m, (m < 100)%nat -> is_Some (files s !! checkname gamedir m)) ->
     files s' = files s /\
     console s' =
       console s ++ [("SCR_ScreenShot_f: Couldn't create a file" ++ newline)%string] /\
     (scrnshot_dir gamedir ∈ dirs s -> dirs s' = dirs s)).
Proof.
  intros gamedir s'. split.
  - intros n Hn Hfree Hbusy. subst s'. unfold GL_ScreenShot_f. fold gamedir.
    cbn [files Sys_Mkdir].
    rewrite (find_free_name_first _ _ n Hn Hfree Hbusy).
    destruct (Nat.eqb_spec n 100) as [|_]; [lia|].
    split; reflexivity.
  - intros Hbusy. subst s'. rewrite (GL_ScreenShot_f_all_taken hw s Hbusy).
    split; [reflexivity|]. split; [reflexivity|].
    apply Sys_Mkdir_existing.
Qed.

Lemma GL_ScreenShot_f_first_free_name_witness :
  let s := with_screenshots "baseq2" 5 in
  let s' := GL_ScreenShot_f black_2x1 s in
  ((5 < 100)%nat /\
   files s !! checkname "baseq2" 5 = None /\
   (forall m, (m < 5)%nat -> is_Some (files s !! checkname "baseq2" m))) /\
  files s' = <[checkname "baseq2" 5 := tga_bytes black_2x1]> (files s) /\
  console s' = console s ++ [("Wrote " ++ picname 5 ++ newline)%string].
Proof.
  intros s s'.
  assert (5 < 100)%nat as H1 by lia.
  assert (files s !! checkname "baseq2" 5 = None) as H2
    by (vm_compute; reflexivity).
  assert (forall m, (m < 5)%nat -> is_Some (files s !! checkname "baseq2" m))
    as H3.
  { intros m Hm.
    do 5 (destruct m as [|m]; [vm_compute; eexists; reflexivity|]). lia. }
  split; [repeat split; assumption|].
  exact (proj1 (GL_ScreenShot_f_first_free_name black_2x1 s) 5%nat H1 H2 H3).
Defined.

(** With quake00.tga .. quake04.tga present the command writes
    quake05.tga: a Targa header for 2x1 and the texels as BGR. *)
Example screenshot_writes_quake05 :
  let s' := GL_ScreenShot_f black_2x1 (with_screenshots "baseq2" 5) in
  files s' !! "baseq2/scrnshot/quake05.tga" =
    Some ([0; 0; 2; 0; 0; 0; 0; 0; 0; 0; 0; 0; 2; 0; 1; 0; 24; 0]
            ++ [3; 2; 1; 6; 5; 4]) /\
  console s' = [("Wrote quake05.tga" ++ newline)%string].
Proof. vm_compute. split; reflexivity. Qed.

(** With quake00.tga .. quake99.tga present nothing is written. *)
Example screenshot_all_names_taken :
  let s := with_screenshots "baseq2" 100 in
  let s' := GL_ScreenShot_f black_2x1 s in
  files s' = files s /\ dirs s' = dirs s /\
  console s' = [("SCR_ScreenShot_f: Couldn't create a file" ++ newline)%string].
Proof.
  intros s s'.
  assert (forall m, (m < 100)%nat ->
            is_Some (files s !! checkname "baseq2" m)) as Hbusy.
  { intros m Hm.
    do 100 (destruct m as [|m]; [vm_compute; eexists; reflexivity|]). lia. }
  subst s'. rewrite (GL_ScreenShot_f_all_taken black_2x1 s Hbusy).
  split; [reflexivity|]. split; [|reflexivity].
  apply Sys_Mkdir_existing.
  change (scrnshot_dir "baseq2" ∈ ({[scrnshot_dir "baseq2"]} : gset string)).
  apply elem_of_singleton_2. reflexivity.
Qed.

End ScreenShot.

(* ===================================================================== *)
(** * The scrap allocator ([Scrap_AllocBlock], gl_image.c)                *)
(* ===================================================================== *)

Module Scrap.
Import Image.

(** The height already allocated in column [c] of a scrap row. *)
Definition height (row : list Z) (c : nat) : Z := default 0 (row !! c).

(** The skyline under the window of [n] columns that starts at [i]: the
    greatest allocated height there, 0 for an empty window. *)
Fixpoint skyline (row : list Z) (i n : nat) : Z :=
  match n with
  | O => 0
  | S n' => Z.max (height row i) (skyline row (S i) n')
  end.

(** A block as the scrap hands it out: position and size. *)
Record block : Type := mk_block { b_x : Z; b_y : Z; b_w : Z; b_h : Z }.

Definition disjoint_blocks (a b : block) : Prop :=
  b_x a + b_w a <= b_x b \/ b_x b + b_w b <= b_x a \/
  b_y a + b_h a <= b_y b \/ b_y b + b_h b <= b_y a.

Definition inside_scrap (a : block) : Prop :=
  0 <= b_x a /\ b_x a + b_w a <= BLOCK_WIDTH /\
  0 <= b_y a /\ b_y a + b_h a <= BLOCK_HEIGHT.

(** A run of allocation requests, as [GL_LoadPic] makes them one small pic
    after the other: the blocks of the requests that succeed. *)
Fixpoint allocate_all (requests : list (Z * Z)) (allocated : list (list Z))
    : list block :=
  match requests with
  | [] => []
  | (w, h) :: rest =>
      let '(texnum, (x, y), allocated') := Scrap_AllocBlock allocated w h 0 0 in
      if texnum =? -1 then allocate_all rest allocated'
      else mk_block x y w h :: allocate_all rest allocated'
  end.

(** A row of the scrap: [BLOCK_WIDTH] columns of non-negative heights. *)
Definition scrap_row (row : list Z) : Prop :=
  length row = 256%nat /\ forall c, 0 <= height row c.

Definition empty_scrap : list (list Z) := [replicate 256 0].

(** ** Facts *)

Lemma skyline_nonneg row n : forall i, 0 <= skyline row i n.
Proof. induction n as [|n IH]; intros i; simpl; [lia|]. specialize (IH (S i)). lia. Qed.

Lemma skyline_above row n : forall i c,
  (i <= c < i + n)%nat -> height row c <= skyline row i n.
Proof.
  induction n as [|n IH]; intros i c Hc; simpl; [lia|].
  destruct (decide (c = i)) as [->|Hne]; [lia|].
  specialize (IH (S i) c). lia.
Qed.

Lemma skyline_below row bound n : forall i,
  0 <= bound -> (forall c, (i <= c < i + n)%nat -> height row c <= bound) ->
  skyline row i n <= bound.
Proof.
  induction n as [|n IH]; intros i Hb Hc; simpl; [lia|].
  specialize (IH (S i) Hb). specialize (Hc i) as Hi.
  assert (skyline row (S i) n <= bound) by (apply IH; intros; apply Hc; lia).
  lia.
Qed.

Lemma column_fits_Some row best n : forall best2 i r,
  0 <= best2 ->
  column_fits row best best2 i n = Some r ->
  r = Z.max best2 (skyline row i n) /\
  forall c, (i <= c < i + n)%nat -> height row c < best.
Proof.
  induction n as [|n IH]; intros best2 i r Hb Hrun; cbn [column_fits] in Hrun.
  - inversion Hrun; subst. simpl. split; [lia | intros; lia].
  - fold (height row i) in Hrun.
    destruct (Z.geb_spec (height row i) best) as [|Hlt]; [discriminate|].
    apply IH in Hrun as (Hr & Hall).
    + split.
      * rewrite Hr. cbn [skyline].
        destruct (Z.gtb_spec (height row i) best2); lia.
      * intros c Hc. destruct (decide (c = i)) as [->|]; [exact Hlt|].
        apply Hall. lia.
    + destruct (Z.gtb_spec (height row i) best2); lia.
Qed.

Lemma column_fits_None row best n : forall best2 i,
  column_fits row best best2 i n = None ->
  exists c, (i <= c < i + n)%nat /\ best <= height row c.
Proof.
  induction n as [|n IH]; intros best2 i Hrun; cbn [column_fits] in Hrun;
    [discriminate|].
  fold (height row i) in Hrun.
  destruct (Z.geb_spec (height row i) best) as [Hge|Hlt].
  - exists i. split; [lia | exact Hge].
  - apply IH in Hrun as (c & Hc & Hbest). exists c. split; [lia | exact Hbest].
Qed.

(** The search keeps the lowest window seen so far. *)
Lemma find_spot_spec row w todo : forall i x y best,
  let n := Z.to_nat w in
  (0 < n)%nat -> (forall c, 0 <= height row c) ->
  let '(x', y', best') := find_spot row w i todo x y best in
  best' <= best /\
  (forall j, (i <= j < i + todo)%nat -> best' <= skyline row j n) /\
  ((x' = x /\ y' = y /\ best' = best) \/
   (exists j, (i <= j < i + todo)%nat /\ x' = Z.of_nat j /\
              y' = best' /\ best' = skyline row j n /\ best' < best)).
Proof.
  induction todo as [|todo IH]; intros i x y best n Hn Hrow; cbn [find_spot].
  - split; [lia|]. split; [intros; lia|]. now left.
  - fold n.
    destruct (column_fits row best 0 i n) as [best2|] eqn:Hfit.
    + apply column_fits_Some in Hfit as (Hb2 & Hall); [|lia].
      pose proof (skyline_nonneg row n i) as Hsk.
      assert (best2 = skyline row i n) as Hb by lia.
      assert (best2 < best) as Hlt.
      { assert (skyline row i n <= best - 1); [|lia].
        apply skyline_below.
        - specialize (Hall i ltac:(lia)). specialize (Hrow i). lia.
        - intros c Hc. specialize (Hall c Hc). lia. }
      specialize (IH (S i) (Z.of_nat i) best2 best2 Hn Hrow). fold n in IH.
      destruct (find_spot row w (S i) todo (Z.of_nat i) best2 best2)
        as [[x' y'] best'].
      destruct IH as (Hle & Hmin & Hcase).
      split; [lia|]. split.
      * intros j Hj. destruct (decide (j = i)) as [->|]; [lia|]. apply Hmin. lia.
      * right. destruct Hcase as [(-> & -> & ->)|(j & Hj & Hx & Hy & Hs & Hl)].
        -- exists i. split; [lia|]. repeat split; try assumption; lia.
        -- exists j. split; [lia|]. repeat split; try assumption; lia.
    + apply column_fits_None in Hfit as (c & Hc & Hbest).
      specialize (IH (S i) x y best Hn Hrow). fold n in IH.
      destruct (find_spot row w (S i) todo x y best) as [[x' y'] best'].
      destruct IH as (Hle & Hmin & Hcase).
      split; [exact Hle|]. split.
      * intros j Hj. destruct (decide (j = i)) as [->|]; [|apply Hmin; lia].
        pose proof (skyline_above row n i c Hc). lia.
      * destruct Hcase as [?|(j & Hj & Hrest)]; [now left|].
        right. exists j. split; [lia | exact Hrest].
Qed.

Lemma mark_from_lookup v n : forall (row : list Z) (x a : nat) (c : nat),
  let row' := fold_left (fun row i => <[Z.to_nat (Z.of_nat x + Z.of_nat i) := v]> row)
                        (seq a n) row in
  length row' = length row /\
  row' !! c = if decide ((x + a <= c < x + a + n)%nat /\ (c < length row)%nat)
              then Some v else row !! c.
Proof.
  induction n as [|n IH]; intros row x a c; cbn [seq fold_left].
  - split; [reflexivity|]. destruct (decide _) as [[H _]|_]; [lia | reflexivity].
  - destruct (IH (<[Z.to_nat (Z.of_nat x + Z.of_nat a) := v]> row) x (S a) c)
      as (Hlen & Hlook).
    rewrite length_insert in Hlen, Hlook.
    split; [exact Hlen|]. rewrite Hlook.
    replace (Z.to_nat (Z.of_nat x + Z.of_nat a)) with (x + a)%nat by lia.
    destruct (decide ((x + S a <= c < x + S a + n)%nat /\ (c < length row)%nat))
      as [[H1 H2]|Hout].
    + destruct (decide _) as [_|Hno]; [reflexivity | exfalso; apply Hno; lia].
    + destruct (decide (c = (x + a)%nat)) as [->|Hne].
      * destruct (decide (_ /\ (x + a < length row)%nat)) as [[_ Hl]|Hno].
        -- apply list_lookup_insert_eq. exact Hl.
        -- rewrite list_insert_ge; [reflexivity|]. lia.
      * rewrite list_lookup_insert_ne by lia.
        destruct (decide _) as [[H1 H2]|_]; [exfalso; apply Hout; lia | reflexivity].
Qed.

Lemma mark_columns_spec row (j : nat) w v :
  0 < w -> (j + Z.to_nat w <= length row)%nat ->
  let row' := mark_columns row (Z.of_nat j) w v in
  length row' = length row /\
  forall c,
    height row' c =
      if decide (j <= c < j + Z.to_nat w)%nat then v else height row c.
Proof.
  intros Hw Hfit row'. subst row'. unfold mark_columns.
  split; [apply (mark_from_lookup v (Z.to_nat w) row j 0 0)|].
  intros c. unfold height.
  rewrite (proj2 (mark_from_lookup v (Z.to_nat w) row j 0 c)).
  destruct (decide ((j + 0 <= c < j + 0 + Z.to_nat w)%nat /\ (c < length row)%nat))
    as [[H1 H2]|Hout].
  - destruct (decide _) as [_|Hno]; [reflexivity | exfalso; apply Hno; lia].
  - destruct (decide _) as [Hin|_]; [exfalso; apply Hout; lia | reflexivity].
Qed.

(** The one scrap page: the search then the test against the page height. *)
Lemma Scrap_AllocBlock_page row w h x0 y0 :
  Scrap_AllocBlock [row] w h x0 y0 =
  let '(x, y, best) :=
    find_spot row w 0 (Z.to_nat (BLOCK_WIDTH - w)) x0 y0 BLOCK_HEIGHT in
  if best + h >? BLOCK_HEIGHT then (-1, (x, y), [row])
  else (0, (x, y), [mark_columns row x w (best + h)]).
Proof.
  unfold Scrap_AllocBlock, MAX_SCRAPS. cbn [Scrap_AllocBlock_from].
  change (default [] ([row] !! 0%nat)) with row.
  destruct (find_spot row w 0 (Z.to_nat (BLOCK_WIDTH - w)) x0 y0 BLOCK_HEIGHT)
    as [[x y] best].
  destruct (best + h >? BLOCK_HEIGHT); reflexivity.
Qed.

(** Either nothing fits, or the block goes on the skyline of some window. *)
Lemma Scrap_AllocBlock_cases row w h x0 y0 :
  scrap_row row -> 0 < w -> 0 < h ->
  (exists x y, Scrap_AllocBlock [row] w h x0 y0 = (-1, (x, y), [row])) \/
  (exists j : nat,
     let y := skyline row j (Z.to_nat w) in
     Z.of_nat j + w < BLOCK_WIDTH /\ y + h <= BLOCK_HEIGHT /\
     Scrap_AllocBlock [row] w h x0 y0 =
       (0, (Z.of_nat j, y), [mark_columns row (Z.of_nat j) w (y + h)])).
Proof.
  intros (Hlen & Hpos) Hw Hh.
  rewrite Scrap_AllocBlock_page.
  pose proof (find_spot_spec row w (Z.to_nat (BLOCK_WIDTH - w)) 0 x0 y0
                BLOCK_HEIGHT ltac:(lia) Hpos) as Hspot.
  destruct (find_spot row w 0 (Z.to_nat (BLOCK_WIDTH - w)) x0 y0 BLOCK_HEIGHT)
    as [[x' y'] best].
  destruct Hspot as (Hle & Hmin & Hcase).
  destruct (Z.gtb_spec (best + h) BLOCK_HEIGHT) as [Hfull|Hroom].
  - left. eauto.
  - right.
    destruct Hcase as [(_ & _ & ->)|(j & Hj & -> & -> & Hsky & Hlt)];
      [unfold BLOCK_HEIGHT in *; lia|].
    exists j. cbn zeta. rewrite <- Hsky.
    split; [unfold BLOCK_WIDTH in *; lia|]. split; [exact Hroom | reflexivity].
Qed.

(** Marking a window that fits in the row at the top of a block set on its
    skyline. *)
Lemma mark_on_skyline row (j : nat) w h :
  scrap_row row -> 0 < w -> 0 < h -> Z.of_nat j + w < BLOCK_WIDTH ->
  let y := skyline row j (Z.to_nat w) in
  let row' := mark_columns row (Z.of_nat j) w (y + h) in
  0 <= y /\ scrap_row row' /\
  forall c : nat,
    (Z.of_nat j <= Z.of_nat c < Z.of_nat j + w ->
       height row c <= y /\ height row' c = y + h) /\
    (~ (Z.of_nat j <= Z.of_nat c < Z.of_nat j + w) ->
       height row' c = height row c).
Proof.
  intros (Hlen & Hpos) Hw Hh Hfit y row'. unfold BLOCK_WIDTH in Hfit.
  pose proof (skyline_nonneg row (Z.to_nat w) j) as Hnn. fold y in Hnn.
  destruct (mark_columns_spec row j w (y + h) Hw ltac:(lia)) as (Hl' & Hh').
  fold row' in Hl', Hh'.
  split; [exact Hnn|]. split.
  - split; [lia|]. intros c. rewrite Hh'. destruct (decide _); [lia | apply Hpos].
  - intros c. rewrite Hh'. split.
    + intros Hc. destruct (decide _) as [Hin|Hno]; [|lia].
      split; [|reflexivity]. apply skyline_above. lia.
    + intros Hc. destruct (decide _) as [Hin|Hno]; [lia | reflexivity].
Qed.





(** Every block handed out so far has some width and lies under the
    skyline. *)
Definition under_skyline (row : list Z) (blocks : list block) : Prop :=
  forall b, b ∈ blocks ->
    0 < b_w b /\
    forall c : nat,
      b_x b <= Z.of_nat c < b_x b + b_w b -> b_y b + b_h b <= height row c.

Definition positive_size (request : Z * Z) : Prop :=
  0 < fst request /\ 0 < snd request.

Lemma disjoint_blocks_sym a b : disjoint_blocks a b -> disjoint_blocks b a.
Proof. unfold disjoint_blocks. lia. Qed.

Lemma allocate_all_disjoint requests : forall row blocks,
  scrap_row row -> under_skyline row blocks ->
  Forall positive_size requests ->
  let handed := allocate_all requests [row] in
  Forall inside_scrap handed /\
  (forall a b, a ∈ handed -> b ∈ blocks -> disjoint_blocks a b) /\
  (forall i j a b, (i < j)%nat -> handed !! i = Some a -> handed !! j = Some b ->
     disjoint_blocks a b).
Proof.
  induction requests as [|[w h] rest IH]; intros row blocks Hrow Hunder Hpos;
    cbn [allocate_all].
  - split; [constructor|]. split.
    + intros a b Ha. inversion Ha.
    + intros i j a b _ Ha. rewrite lookup_nil in Ha. discriminate.
  - apply Forall_cons in Hpos as ((Hw & Hh) & Hrest). simpl in Hw, Hh.
    destruct (Scrap_AllocBlock_cases row w h 0 0 Hrow Hw Hh)
      as [(x & y & ->)|(k & Hfit & Hroom & ->)].
    + cbn [Z.eqb]. apply IH; assumption.
    + change (0 =? -1) with false. cbv iota.
      destruct (mark_on_skyline row k w h Hrow Hw Hh Hfit)
        as (Hnn & Hrow' & Hcols).
      set (x := Z.of_nat k) in *.
      set (y := skyline row k (Z.to_nat w)) in *.
      set (row' := mark_columns row x w (y + h)) in *.
      assert (inside_scrap (mk_block x y w h)) as Hin
        by (unfold inside_scrap, BLOCK_WIDTH, BLOCK_HEIGHT in *; simpl; lia).
      set (new := mk_block x y w h).
      assert (under_skyline row' (new :: blocks)) as Hunder'.
      { intros b Hb. apply elem_of_cons in Hb as [->|Hb].
        { split; [exact Hw|]. intros c Hc.
          unfold new in Hc |- *. simpl in Hc |- *.
          destruct (Hcols c) as (Hwin & _).
          destruct (Hwin Hc) as (_ & Hnew). rewrite Hnew. lia. }
        destruct (Hunder b Hb) as (Hbw & Hb'). split; [exact Hbw|].
        intros c Hc. specialize (Hb' c Hc). rename Hb' into Hunder_c.
        - destruct (Hcols c) as (Hwin & Hout).
          destruct (decide (x <= Z.of_nat c < x + w)) as [Hc'|Hc'].
          + destruct (Hwin Hc') as (Hold & Hnew). rewrite Hnew. lia.
          + rewrite (Hout Hc'). exact Hunder_c. }
      assert (forall b, b ∈ blocks -> disjoint_blocks new b) as Hnew.
      { intros b Hb. unfold disjoint_blocks, new; simpl.
        destruct (Hunder b Hb) as (Hbw & Hb').
        destruct (decide (Z.max x (b_x b) < Z.min (x + w) (b_x b + b_w b)))
          as [Hmeet|]; [|lia].
        right. right. right.
        unfold inside_scrap in Hin; simpl in Hin.
        set (c := Z.to_nat (Z.max x (b_x b))).
        specialize (Hb' c ltac:(lia)).
        destruct (Hcols c) as (Hwin & _).
        destruct (Hwin ltac:(lia)) as (Hold & _). lia. }
      destruct (IH row' (new :: blocks) Hrow' Hunder' Hrest)
        as (Hins & Hold & Hpair).
      split; [constructor; assumption|]. split.
      * intros a b Ha Hb. apply elem_of_cons in Ha as [->|Ha].
        -- apply Hnew, Hb.
        -- apply Hold; [exact Ha|]. apply elem_of_cons. now right.
      * intros i j a b Hij Ha Hb.
        destruct j as [|j]; [lia|]. cbn in Hb.
        destruct i as [|i]; cbn in Ha.
        -- inversion Ha; subst a. apply disjoint_blocks_sym.
           apply Hold; [|apply elem_of_cons; now left].
           eapply list_elem_of_lookup_2. exact Hb.
        -- apply (Hpair i j); [lia | exact Ha | exact Hb].
Qed.

Lemma empty_scrap_row : scrap_row (replicate 256 0).
Proof.
  split; [reflexivity|]. intros c. unfold height.
  destruct (replicate 256 0 !! c) as [v|] eqn:E; [|simpl; lia].
  apply lookup_replicate in E as [-> _]. simpl. lia.
Qed.

(** X3. The scrap never hands out overlapping blocks: whatever the run of
    requests (of positive sizes) made on an empty scrap, the blocks of the
    requests that succeed lie inside the page and are pairwise disjoint. *)
Theorem Scrap_blocks_never_overlap (requests : list (Z * Z)) :
  Forall positive_size requests ->
  let handed := allocate_all requests empty_scrap in
  Forall inside_scrap handed /\
  forall i j a b, i <> j -> handed !! i = Some a -> handed !! j = Some b ->
    disjoint_blocks a b.
Proof.
  intros Hpos handed.
  destruct (allocate_all_disjoint requests (replicate 256 0) []
              empty_scrap_row) as (Hin & _ & Hpair); [|exact Hpos|].
  { intros b Hb. inversion Hb. }
  split; [exact Hin|].
  intros i j a b Hij Ha Hb.
  destruct (Nat.lt_trichotomy i j) as [Hlt|[Heq|Hgt]]; [|contradiction|].
  - apply (Hpair i j); assumption.
  - apply disjoint_blocks_sym. apply (Hpair j i); assumption.
Qed.

Lemma Scrap_blocks_never_overlap_witness :
  let requests := [(32, 32); (24, 8); (200, 240); (63, 63)] in
  Forall positive_size requests /\
  Forall inside_scrap (allocate_all requests empty_scrap).
Proof.
  intros requests.
  assert (Forall positive_size requests) as Hpos
    by (repeat constructor; simpl; lia).
  split; [exact Hpos|].
  exact (proj1 (Scrap_blocks_never_overlap requests Hpos)).
Defined.

(** Four requests: the third cannot start at column 56 (the last window
    tried starts at column 55) and goes on top of the second; nothing is
    left for the fourth. *)
Example scrap_packing :
  allocate_all [(32, 32); (24, 8); (200, 240); (63, 63)] empty_scrap =
    [mk_block 0 0 32 32; mk_block 32 0 24 8; mk_block 32 8 200 240].
Proof. vm_compute. reflexivity. Qed.

End Scrap.

(* ===================================================================== *)
(** * The palette table and 8-bit uploads                                 *)
(* ===================================================================== *)

Module PaletteTable.
Import Palette Image.

(** A byte. *)
Definition is_byte (v : Z) : Prop := 0 <= v <= 255.

(** The grey value an entry is desaturated towards. *)
Definition grey (r g b : Z) : Z := Z.quot (r + g + b + 2) 3.

(** A gun value that lies between the old value and the grey value. *)
Definition towards (old target new : Z) : Prop :=
  Z.min old target <= new <= Z.max old target.

(** ** Facts *)

Lemma float_to_int_between (lo hi : Z) (q : Q) :
  0 <= lo -> (inject_Z lo <= q)%Q -> (q <= inject_Z hi)%Q ->
  lo <= float_to_int q <= hi.
Proof.
  intros Hlo Hq1 Hq2.
  assert (float_to_int q = Qfloor q) as ->.
  { assert (0 <= q)%Q as Hq0.
    { apply Qle_trans with (y := inject_Z lo); [|exact Hq1].
      change 0%Q with (inject_Z 0). rewrite <- Zle_Qle. exact Hlo. }
    destruct q as [n d]. unfold float_to_int, Qfloor; simpl.
    apply Z.quot_div_nonneg; [|lia].
    unfold Qle in Hq0; simpl in Hq0. lia. }
  split.
  - rewrite <- (Qfloor_Z lo). apply Qfloor_resp_le. exact Hq1.
  - rewrite <- (Qfloor_Z hi). apply Qfloor_resp_le. exact Hq2.
Qed.

Lemma desaturation_factor_unit r g b :
  is_byte r -> is_byte g -> is_byte b ->
  (0 <= desaturation_factor r g b)%Q /\ (desaturation_factor r g b <= 1)%Q.
Proof.
  unfold is_byte. intros Hr Hg Hb.
  unfold desaturation_factor. rewrite existing_saturation_max.
  set (m := max_gun_delta r g b).
  assert (0 <= m <= 255) as Hm by (unfold m, max_gun_delta; lia).
  assert (inject_Z 0 <= inject_Z m)%Q as H0 by (rewrite <- Zle_Qle; lia).
  assert (inject_Z m <= inject_Z 255)%Q as H1 by (rewrite <- Zle_Qle; lia).
  change (inject_Z 0) with 0%Q in H0. change (inject_Z 255) with 255%Q in H1.
  cbn zeta. unfold Qdiv. change (/ 255)%Q with (1 # 255)%Q.
  split; Lqa.lra.
Qed.

(** A gun moved by a fraction of its distance to the grey value stays
    between the two once truncated. *)
Lemma gun_towards (gun target : Z) (f : Q) :
  0 <= gun -> 0 <= target -> (0 <= f)%Q -> (f <= 1)%Q ->
  towards gun target
    (float_to_int (int_to_float gun
                   + (int_to_float target - int_to_float gun) * f)%Q).
Proof.
  intros Hg Ht Hf0 Hf1. unfold towards, int_to_float.
  set (q := (inject_Z gun + (inject_Z target - inject_Z gun) * f)%Q).
  destruct (Z.le_ge_cases gun target) as [Hle|Hge].
  - assert (inject_Z gun <= inject_Z target)%Q as Hq by (rewrite <- Zle_Qle; lia).
    rewrite Z.min_l, Z.max_r by lia.
    apply float_to_int_between; [lia| |]; unfold q; Lqa.nra.
  - assert (inject_Z target <= inject_Z gun)%Q as Hq by (rewrite <- Zle_Qle; lia).
    rewrite Z.min_r, Z.max_l by lia.
    apply float_to_int_between; [lia| |]; unfold q; Lqa.nra.
Qed.

Lemma byte_low (a k : Z) : 0 <= a < 256 -> Z.land (a + 256 * k) 255 = a.
Proof.
  intros Ha. change 255 with (Z.ones 8). rewrite Z.land_ones by lia.
  change (2 ^ 8) with 256.
  replace (a + 256 * k) with (a + k * 256) by ring.
  rewrite Z.mod_add by lia. apply Z.mod_small. exact Ha.
Qed.

Lemma byte_rest (a k : Z) : 0 <= a < 256 -> Z.shiftr (a + 256 * k) 8 = k.
Proof.
  intros Ha. rewrite Z.shiftr_div_pow2 by lia. change (2 ^ 8) with 256.
  replace (a + 256 * k) with (a + k * 256) by ring.
  rewrite Z.div_add by lia.
  rewrite (Z.div_small a 256) by exact Ha. lia.
Qed.

Lemma word_texel_bytes (r g b a : Z) :
  is_byte r -> is_byte g -> is_byte b -> is_byte a ->
  word_texel (Z.shiftl a 24 + Z.shiftl r 0 + Z.shiftl g 8 + Z.shiftl b 16)
  = mk_rgba r g b a.
Proof.
  unfold is_byte. intros Hr Hg Hb Ha. unfold word_texel.
  rewrite !Z.shiftl_mul_pow2 by lia.
  change (2 ^ 24) with 16777216. change (2 ^ 16) with 65536.
  change (2 ^ 8) with 256. change (2 ^ 0) with 1. change (2 ^ 32) with 4294967296.
  rewrite Z.mod_small by lia.
  replace (a * 16777216 + r * 1 + g * 256 + b * 65536)
    with (r + 256 * (g + 256 * (b + 256 * a))) by ring.
  change 16 with (8 + 8) at 1. change 24 with (8 + 8 + 8).
  rewrite <- !Z.shiftr_shiftr by lia.
  rewrite byte_low by lia.
  rewrite (byte_rest r) by lia. rewrite byte_low by lia.
  rewrite (byte_rest g) by lia. rewrite byte_low by lia.
  rewrite (byte_rest b) by lia.
  replace a with (a + 256 * 0) at 1 by ring. rewrite byte_low by lia.
  reflexivity.
Qed.

(** Each gun moves towards the grey value, which is a byte. *)
Lemma desaturated_guns (r g b : Z) :
  is_byte r -> is_byte g -> is_byte b ->
  is_byte (grey r g b) /\
  let '(r', g', b') := desaturate r g b in
  towards r (grey r g b) r' /\ towards g (grey r g b) g' /\
  towards b (grey r g b) b'.
Proof.
  intros Hr Hg Hb.
  destruct (desaturation_factor_unit r g b Hr Hg Hb) as (Hf0 & Hf1).
  assert (is_byte (grey r g b)) as Hgrey.
  { unfold is_byte, grey in *.
    rewrite Z.quot_div_nonneg by lia.
    split; [apply Z.div_pos; lia|].
    assert ((r + g + b + 2) / 3 < 256); [|lia].
    apply Z.div_lt_upper_bound; lia. }
  split; [exact Hgrey|].
  unfold is_byte in Hr, Hg, Hb, Hgrey.
  pose proof (gun_towards r (grey r g b) _ ltac:(lia) ltac:(lia) Hf0 Hf1) as Tr.
  pose proof (gun_towards g (grey r g b) _ ltac:(lia) ltac:(lia) Hf0 Hf1) as Tg.
  pose proof (gun_towards b (grey r g b) _ ltac:(lia) ltac:(lia) Hf0 Hf1) as Tb.
  change (desaturate r g b) with
    (float_to_int (int_to_float r + (int_to_float (grey r g b) - int_to_float r)
                                    * desaturation_factor r g b)%Q,
     float_to_int (int_to_float g + (int_to_float (grey r g b) - int_to_float g)
                                    * desaturation_factor r g b)%Q,
     float_to_int (int_to_float b + (int_to_float (grey r g b) - int_to_float b)
                                    * desaturation_factor r g b)%Q).
  cbv iota beta. auto.
Qed.

Lemma towards_byte (old target new : Z) :
  is_byte old -> is_byte target -> towards old target new -> is_byte new.
Proof. unfold is_byte, towards. lia. Qed.

(** Every entry computed from bytes is an opaque texel of bytes. *)
Lemma palette_entry_opaque (r g b : Z) :
  is_byte r -> is_byte g -> is_byte b ->
  exists r' g' b', palette_entry r g b = mk_rgba r' g' b' 255 /\
    is_byte r' /\ is_byte g' /\ is_byte b'.
Proof.
  intros Hr Hg Hb.
  destruct (desaturated_guns r g b Hr Hg Hb) as (Hgrey & Hguns).
  unfold palette_entry.
  destruct (desaturate r g b) as [[r' g'] b'].
  destruct Hguns as (Tr & Tg & Tb).
  exists r', g', b'.
  pose proof (towards_byte _ _ _ Hr Hgrey Tr) as Br.
  pose proof (towards_byte _ _ _ Hg Hgrey Tg) as Bg.
  pose proof (towards_byte _ _ _ Hb Hgrey Tb) as Bb.
  split; [|auto].
  apply word_texel_bytes; try assumption. unfold is_byte. lia.
Qed.

(** X4. Desaturation stays inside the gamut: for an entry of bytes every
    new gun value lies between the old one and the grey value
    [(r+g+b+2)/3], so it is a byte again, and the table entry stored is
    that triple with alpha 255. *)
Theorem desaturate_towards_grey (r g b : Z) :
  is_byte r -> is_byte g -> is_byte b ->
  let '(r', g', b') := desaturate r g b in
  towards r (grey r g b) r' /\ towards g (grey r g b) g' /\
  towards b (grey r g b) b' /\
  is_byte r' /\ is_byte g' /\ is_byte b' /\
  palette_entry r g b = mk_rgba r' g' b' 255.
Proof.
  intros Hr Hg Hb.
  destruct (desaturated_guns r g b Hr Hg Hb) as (Hgrey & Hguns).
  unfold palette_entry.
  destruct (desaturate r g b) as [[r' g'] b'].
  destruct Hguns as (Tr & Tg & Tb).
  pose proof (towards_byte _ _ _ Hr Hgrey Tr) as Br.
  pose proof (towards_byte _ _ _ Hg Hgrey Tg) as Bg.
  pose proof (towards_byte _ _ _ Hb Hgrey Tb) as Bb.
  split; [exact Tr|]. split; [exact Tg|]. split; [exact Tb|].
  split; [exact Br|]. split; [exact Bg|]. split; [exact Bb|].
  apply word_texel_bytes; try assumption. unfold is_byte. lia.
Qed.

Lemma desaturate_towards_grey_witness :
  (is_byte 200 /\ is_byte 100 /\ is_byte 50) /\
  let '(r', g', b') := desaturate 200 100 50 in
  towards 200 (grey 200 100 50) r' /\ towards 100 (grey 200 100 50) g' /\
  towards 50 (grey 200 100 50) b' /\
  is_byte r' /\ is_byte g' /\ is_byte b' /\
  palette_entry 200 100 50 = mk_rgba r' g' b' 255.
Proof.
  assert (is_byte 200) as H1 by (unfold is_byte; lia).
  assert (is_byte 100) as H2 by (unfold is_byte; lia).
  assert (is_byte 50) as H3 by (unfold is_byte; lia).
  split; [split; [exact H1 | split; [exact H2 | exact H3]]|].
  exact (desaturate_towards_grey 200 100 50 H1 H2 H3).
Defined.


(** A table as [Draw_GetPalette] leaves it: 256 entries, all opaque but
    number 255. *)
Definition transparent_255 (table : list rgba) : Prop :=
  length table = 256%nat /\
  forall (i : nat) e, table !! i = Some e ->
    c_a e = if (i =? 255)%nat then 0 else 255.

Lemma Forall_pal_byte pal n : Forall is_byte pal -> is_byte (pal_byte pal n).
Proof.
  intros Hpal. unfold pal_byte.
  destruct (pal !! n) as [v|] eqn:E; simpl; [|unfold is_byte; lia].
  eapply Forall_lookup_1; eassumption.
Qed.

(** What [d_8to24table[i]] holds once [Draw_GetPalette] is through. *)
Definition entry_of (pal : list Z) (i : nat) : rgba :=
  let e := palette_entry (pal_byte pal (i * 3 + 0)) (pal_byte pal (i * 3 + 1))
                         (pal_byte pal (i * 3 + 2)) in
  if (i =? 255)%nat then make_transparent e else e.

Lemma palette_table_lookup (pal : list Z) (table : list rgba) (i : nat) e :
  Draw_GetPalette (Some pal) = Some table -> table !! i = Some e ->
  (i < 256)%nat /\ e = entry_of pal i.
Proof.
  intros Ht He.
  set (entry := fun i : nat =>
         palette_entry (pal_byte pal (i * 3 + 0)) (pal_byte pal (i * 3 + 1))
                       (pal_byte pal (i * 3 + 2))).
  assert (Some table
          = Some (alter make_transparent 255%nat (map entry (seq 0 256))))
    as Heq by (rewrite <- Ht; reflexivity).
  apply (inj Some) in Heq.
  rewrite Heq in He. clear Ht Heq. unfold entry_of. fold (entry i).
  destruct (Nat.eqb_spec i 255) as [->|Hne].
  - rewrite list_lookup_alter_eq in He. split; [lia|].
    rewrite list_lookup_fmap in He.
    rewrite lookup_seq_lt in He by lia. simpl in He. congruence.
  - rewrite list_lookup_alter_ne in He by congruence.
    rewrite list_lookup_fmap in He.
    destruct (decide (i < 256)%nat) as [Hlt|Hge].
    + rewrite lookup_seq_lt in He by lia. simpl in He. split; [lia|congruence].
    + rewrite lookup_seq_ge in He by lia. discriminate.
Qed.

Lemma palette_table_length (pal : list Z) (table : list rgba) :
  Draw_GetPalette (Some pal) = Some table -> length table = 256%nat.
Proof.
  intros Ht.
  set (entry := fun i : nat =>
         palette_entry (pal_byte pal (i * 3 + 0)) (pal_byte pal (i * 3 + 1))
                       (pal_byte pal (i * 3 + 2))).
  assert (Some table
          = Some (alter make_transparent 255%nat (map entry (seq 0 256))))
    as Heq by (rewrite <- Ht; reflexivity).
  apply (inj Some) in Heq. rewrite Heq.
  rewrite length_alter, length_map, length_seq. reflexivity.
Qed.

Lemma entry_of_channels (pal : list Z) (i : nat) :
  Forall is_byte pal ->
  exists r g b, entry_of pal i = mk_rgba r g b (if (i =? 255)%nat then 0 else 255) /\
    is_byte r /\ is_byte g /\ is_byte b.
Proof.
  intros Hpal. unfold entry_of.
  destruct (palette_entry_opaque (pal_byte pal (i * 3 + 0))
              (pal_byte pal (i * 3 + 1)) (pal_byte pal (i * 3 + 2)))
    as (r & g & b & -> & Br & Bg & Bb); try (apply Forall_pal_byte; exact Hpal).
  exists r, g, b. destruct (i =? 255)%nat; simpl; auto.
Qed.

Lemma palette_table_transparent (pal : list Z) (table : list rgba) :
  Forall is_byte pal -> Draw_GetPalette (Some pal) = Some table ->
  transparent_255 table.
Proof.
  intros Hpal Ht. split; [eapply palette_table_length; exact Ht|].
  intros i e He.
  destruct (palette_table_lookup pal table i e Ht He) as (_ & ->).
  destruct (entry_of_channels pal i Hpal) as (r & g & b & -> & _).
  reflexivity.
Qed.

(** X5. [Draw_GetPalette] fails without a palette; from 768 palette bytes
    it builds a table of 256 entries whose channels are bytes and whose
    alpha is 255 everywhere but at index 255, which is transparent. *)
Theorem Draw_GetPalette_table :
  Draw_GetPalette None = None /\
  forall pal, Forall is_byte pal ->
    exists table, Draw_GetPalette (Some pal) = Some table /\
      transparent_255 table /\
      forall (i : nat) e, table !! i = Some e ->
        is_byte (c_r e) /\ is_byte (c_g e) /\ is_byte (c_b e).
Proof.
  split; [reflexivity|]. intros pal Hpal.
  destruct (Draw_GetPalette (Some pal)) as [table|] eqn:Ht;
    [|discriminate Ht].
  exists table. split; [reflexivity|].
  split; [eapply palette_table_transparent; eassumption|].
  intros i e He.
  destruct (palette_table_lookup pal table i e Ht He) as (_ & ->).
  destruct (entry_of_channels pal i Hpal) as (r & g & b & -> & Br & Bg & Bb).
  simpl. auto.
Qed.

Lemma Draw_GetPalette_table_witness :
  let pal := replicate 768 128 in
  Forall is_byte pal /\
  exists table, Draw_GetPalette (Some pal) = Some table /\
    transparent_255 table.
Proof.
  intros pal.
  assert (Forall is_byte pal) as Hpal
    by (apply Forall_replicate; unfold is_byte; lia).
  split; [exact Hpal|].
  destruct (proj2 Draw_GetPalette_table pal Hpal) as (table & Ht & Htr & _).
  exists table. split; assumption.
Defined.

(** ** 8-bit uploads against the palette *)









End PaletteTable.

(** * The size [GL_Upload32] uploads at *)

Module UploadSize.
Import Image.













End UploadSize.

(** * The image cache: what the sweep keeps, what it frees *)

Module ImageCache.
Import Image.

(** The three [continue] of the sweep loop, as one test. *)
Definition kept (cur : Z) (image : image_t) : bool :=
  (img_registration_sequence image =? cur)
  || (img_registration_sequence image =? 0)
  || bool_decide (img_type image = it_pic).

(** The texture the sweep deletes for slot [j], if any. *)
Definition freed_at (cur : Z) (textures : list image_t) (j : nat) : option Z :=
  image ← textures !! j;
  if kept cur image then None else Some (img_texnum image).

Lemma omap_seq_ext {A} (f g : nat -> option A) n : forall i,
  (forall j, (i <= j < i + n)%nat -> f j = g j) ->
  omap f (seq i n) = omap g (seq i n).
Proof.
  induction n as [|n IH]; intros i Hfg; [reflexivity|].
  cbn [seq omap list_omap]. rewrite (Hfg i) by lia.
  rewrite (IH (S i)) by (intros j Hj; apply Hfg; lia). reflexivity.
Qed.

Lemma sweep_step cur textures deleted i todo image :
  textures !! i = Some image ->
  sweep_loop cur textures deleted i (S todo) =
  if kept cur image then sweep_loop cur textures deleted (S i) todo
  else sweep_loop cur (<[i := image_zero]> textures)
         (deleted ++ [img_texnum image]) (S i) todo.
Proof.
  intros Hi. cbn [sweep_loop]. rewrite Hi. unfold kept.
  destruct (img_registration_sequence image =? cur); [reflexivity|].
  destruct (img_registration_sequence image =? 0); [reflexivity|].
  destruct (bool_decide (img_type image = it_pic)); reflexivity.
Qed.

(** Slot by slot, what the sweep loop over [i, i + todo) leaves. *)
Lemma sweep_loop_lookup cur todo : forall textures deleted i j,
  fst (sweep_loop cur textures deleted i todo) !! j =
  if bool_decide (i <= j < i + todo)%nat
  then (fun image => if kept cur image then image else image_zero)
         <$> textures !! j
  else textures !! j.
Proof.
  induction todo as [|todo IH]; intros textures deleted i j.
  - cbn [sweep_loop fst]. rewrite bool_decide_eq_false_2 by lia. reflexivity.
  - destruct (textures !! i) as [image|] eqn:Hi.
    + rewrite (sweep_step _ _ _ _ _ _ Hi).
      assert (i < length textures)%nat as Hlt
        by (eapply lookup_lt_Some; exact Hi).
      destruct (kept cur image) eqn:Hk; rewrite IH.
      * destruct (decide (j = i)) as [->|Hne].
        -- rewrite bool_decide_eq_false_2, bool_decide_eq_true_2 by lia.
           rewrite Hi. simpl. rewrite Hk. reflexivity.
        -- destruct (decide (S i <= j < S i + todo)%nat).
           ++ rewrite !bool_decide_eq_true_2 by lia. reflexivity.
           ++ rewrite !bool_decide_eq_false_2 by lia. reflexivity.
      * destruct (decide (j = i)) as [->|Hne].
        -- rewrite bool_decide_eq_false_2, bool_decide_eq_true_2 by lia.
           rewrite list_lookup_insert_eq by exact Hlt.
           rewrite Hi. simpl. rewrite Hk. reflexivity.
        -- rewrite list_lookup_insert_ne by congruence.
           destruct (decide (S i <= j < S i + todo)%nat).
           ++ rewrite !bool_decide_eq_true_2 by lia. reflexivity.
           ++ rewrite !bool_decide_eq_false_2 by lia. reflexivity.
    + cbn [sweep_loop]. rewrite Hi, IH.
      destruct (decide (j = i)) as [->|Hne].
      * rewrite bool_decide_eq_false_2, bool_decide_eq_true_2 by lia.
        rewrite Hi. reflexivity.
      * destruct (decide (S i <= j < S i + todo)%nat).
        -- rewrite !bool_decide_eq_true_2 by lia. reflexivity.
        -- rewrite !bool_decide_eq_false_2 by lia. reflexivity.
Qed.

(** The [qglDeleteTextures] calls of the loop, in slot order. *)
Lemma sweep_loop_deleted cur todo : forall textures deleted i,
  snd (sweep_loop cur textures deleted i todo) =
  deleted ++ omap (freed_at cur textures) (seq i todo).
Proof.
  induction todo as [|todo IH]; intros textures deleted i.
  - cbn [sweep_loop snd seq omap list_omap]. rewrite app_nil_r. reflexivity.
  - cbn [seq omap list_omap]. destruct (textures !! i) as [image|] eqn:Hi.
    + rewrite (sweep_step _ _ _ _ _ _ Hi).
      unfold freed_at at 1. rewrite Hi. cbn [mbind option_bind].
      destruct (kept cur image) eqn:Hk; rewrite IH; [reflexivity|].
      rewrite <- app_assoc. cbn [app]. f_equal. f_equal.
      apply omap_seq_ext. intros j Hj. unfold freed_at.
      rewrite list_lookup_insert_ne by lia. reflexivity.
    + cbn [sweep_loop]. rewrite Hi, IH.
      unfold freed_at at 2. rewrite Hi. reflexivity.
Qed.

Lemma elem_of_omap_seq {A} (f : nat -> option A) (x : A) i n :
  x ∈ omap f (seq i n) <-> exists j, (i <= j < i + n)%nat /\ f j = Some x.
Proof.
  rewrite list_elem_of_omap. split.
  - intros (j & Hj & Hf). apply elem_of_seq in Hj. exists j. split; [lia|exact Hf].
  - intros (j & Hj & Hf). exists j. split; [apply elem_of_seq; lia | exact Hf].
Qed.

Section Sweep.
Context `{!gl_local}.

(** Slot [j] is one of [r_particletexture[0 .. PT_MAX-1]]. *)
Definition pointed_by (pointers : list nat) (j : nat) : bool :=
  existsb (fun i => bool_decide (pointers !! i = Some j)) (seq 0 PT_MAX).

(** Slot [j] is [r_notexture] or a particle texture. *)
Definition protected (s : gl_globals) (j : nat) : bool :=
  bool_decide (j = r_notexture s) || pointed_by (r_particletexture s) j.

(** The image array once [r_notexture] and the particle textures have been
    given the current sequence. *)
Definition touched (s : gl_globals) : list image_t :=
  touch_particles (registration_sequence s) (r_particletexture s)
    (alter (touch (registration_sequence s)) (r_notexture s) (gltextures s)).

Lemma touch_fold_lookup cur pointers slots : forall textures j,
  fold_left (touch_step cur pointers) slots textures !! j =
  (if existsb (fun i => bool_decide (pointers !! i = Some j)) slots
   then touch cur else fun image => image) <$> textures !! j.
Proof.
  induction slots as [|i slots IH]; intros textures j; cbn [fold_left existsb].
  - destruct (textures !! j); reflexivity.
  - rewrite IH. unfold touch_step.
    destruct (pointers !! i) as [p|] eqn:Hp.
    + destruct (decide (p = j)) as [->|Hne].
      * rewrite bool_decide_eq_true_2 by reflexivity.
        rewrite list_lookup_alter_eq. cbn [orb].
        destruct (existsb _ slots), (textures !! j); reflexivity.
      * rewrite bool_decide_eq_false_2 by congruence.
        rewrite list_lookup_alter_ne by congruence. reflexivity.
    + rewrite bool_decide_eq_false_2 by congruence. reflexivity.
Qed.

Lemma touched_lookup s j :
  touched s !! j =
  (if protected s j then touch (registration_sequence s)
   else fun image => image)
    <$> gltextures s !! j.
Proof.
  unfold touched, protected, pointed_by.
  rewrite touch_particles_fold, touch_fold_lookup.
  destruct (decide (j = r_notexture s)) as [->|Hne].
  - rewrite bool_decide_eq_true_2 by reflexivity.
    rewrite list_lookup_alter_eq. cbn [orb].
    destruct (existsb _ _), (gltextures s !! r_notexture s); reflexivity.
  - rewrite bool_decide_eq_false_2 by exact Hne.
    rewrite list_lookup_alter_ne by congruence. reflexivity.
Qed.

Lemma GL_FreeUnusedImages_fields s :
  let r := sweep_loop (registration_sequence s) (touched s)
             (deleted_textures s) 0 (numgltextures s) in
  gltextures (GL_FreeUnusedImages s) = fst r /\
  deleted_textures (GL_FreeUnusedImages s) = snd r /\
  numgltextures (GL_FreeUnusedImages s) = numgltextures s /\
  registration_sequence (GL_FreeUnusedImages s) = registration_sequence s.
Proof.
  unfold GL_FreeUnusedImages. fold (touched s).
  destruct (sweep_loop _ _ _ _ _) as [textures deleted]. repeat split.
Qed.

Lemma touch_kept cur image : kept cur (touch cur image) = true.
Proof. unfold kept. cbn. rewrite Z.eqb_refl. reflexivity. Qed.

(** X9. What [GL_FreeUnusedImages] does to the image of a slot in use:
    [r_notexture] and the particle textures stay, with the current
    sequence; any other image stays as it is when it was used in this
    sequence, is a free slot or is a pic; every other image is zeroed and
    its texture deleted. *)
Theorem GL_FreeUnusedImages_keeps_and_frees (s : gl_globals) (j : nat)
    (image : image_t) :
  (j < numgltextures s)%nat -> gltextures s !! j = Some image ->
  let cur := registration_sequence s in
  let s' := GL_FreeUnusedImages s in
  (protected s j = true -> gltextures s' !! j = Some (touch cur image)) /\
  (protected s j = false -> kept cur image = true ->
     gltextures s' !! j = Some image) /\
  (protected s j = false -> kept cur image = false ->
     gltextures s' !! j = Some image_zero /\
     img_texnum image ∈ deleted_textures s').
Proof.
  intros Hj Him cur s'.
  destruct (GL_FreeUnusedImages_fields s) as (Htex & Hdel & _).
  fold s' cur in Htex, Hdel.
  assert (gltextures s' !! j =
          (fun image => if kept cur image then image else image_zero)
            <$> touched s !! j) as Hslot.
  { rewrite Htex, sweep_loop_lookup.
    rewrite bool_decide_eq_true_2 by lia. reflexivity. }
  rewrite touched_lookup, Him in Hslot. fold cur in Hslot.
  split; [|split].
  - intros Hp. rewrite Hp in Hslot. cbn in Hslot.
    rewrite Hslot, touch_kept. reflexivity.
  - intros Hp Hk. rewrite Hp in Hslot. cbn in Hslot.
    rewrite Hk in Hslot. exact Hslot.
  - intros Hp Hk. rewrite Hp in Hslot. cbn in Hslot.
    rewrite Hk in Hslot. split; [exact Hslot|].
    rewrite Hdel, sweep_loop_deleted. apply elem_of_app. right.
    apply elem_of_omap_seq. exists j. split; [lia|].
    unfold freed_at. rewrite touched_lookup, Him, Hp. cbn.
    fold cur. rewrite Hk. reflexivity.
Qed.

(** X10. The sweep deletes no texture but those of the images it frees:
    every texture it deletes is that of an image in use which is neither
    protected nor kept, and whose slot holds zeroes afterwards. *)
Theorem GL_FreeUnusedImages_deletes_only_freed (s : gl_globals) (t : Z) :
  let cur := registration_sequence s in
  let s' := GL_FreeUnusedImages s in
  t ∈ deleted_textures s' ->
  t ∈ deleted_textures s \/
  exists j image, (j < numgltextures s)%nat /\
    gltextures s !! j = Some image /\ img_texnum image = t /\
    protected s j = false /\ kept cur image = false /\
    gltextures s' !! j = Some image_zero.
Proof.
  intros cur s' Ht.
  destruct (GL_FreeUnusedImages_fields s) as (Htex & Hdel & _).
  fold s' cur in Htex, Hdel.
  rewrite Hdel, sweep_loop_deleted in Ht.
  apply elem_of_app in Ht as [Ht|Ht]; [now left|]. right.
  apply elem_of_omap_seq in Ht as (j & Hj & Hf).
  unfold freed_at in Hf. rewrite touched_lookup in Hf.
  destruct (gltextures s !! j) as [image|] eqn:Him; [|discriminate].
  exists j, image. fold cur in Hf. cbn in Hf.
  destruct (protected s j) eqn:Hp.
  - rewrite touch_kept in Hf. discriminate.
  - cbn in Hf. destruct (kept cur image) eqn:Hk; [discriminate|].
    injection Hf as <-.
    split; [lia|]. split; [exact Him|]. split; [reflexivity|].
    split; [reflexivity|]. split; [reflexivity|].
    rewrite Htex, sweep_loop_lookup, bool_decide_eq_true_2 by lia.
    rewrite touched_lookup, Him, Hp. cbn. rewrite Hk. reflexivity.
Qed.

End Sweep.

#[local] Existing Instance quake2_gl_local.

(** A map texture of the previous registration sequence, in slot 6 of the
    booted renderer, when the sequence has moved on to 2. *)
Definition stale_wall : image_t :=
  mk_image "textures/e1u1/wall.wal" it_wall 64 64 1 1 1 (1153 + 6) 0 0 1 1 false.

Definition next_map : gl_globals :=
  mk_globals
    (map particle_image [0; 1; 2; 3; 4] ++ [notexture_image; stale_wall]
       ++ replicate 1017 image_zero)
    7 2 (d_8to24table booted) (scrap_allocated booted) ∅ false 1 1
    5%nat [0; 1; 2; 3; 4]%nat [].

Lemma GL_FreeUnusedImages_keeps_and_frees_witness :
  (6 < numgltextures next_map)%nat /\
  gltextures next_map !! 6%nat = Some stale_wall /\
  gltextures (GL_FreeUnusedImages next_map) !! 6%nat = Some image_zero /\
  img_texnum stale_wall ∈ deleted_textures (GL_FreeUnusedImages next_map).
Proof.
  assert (6 < numgltextures next_map)%nat as Hj by (vm_compute; lia).
  assert (gltextures next_map !! 6%nat = Some stale_wall) as Him by reflexivity.
  split; [exact Hj|]. split; [exact Him|].
  apply (proj2 (proj2 (GL_FreeUnusedImages_keeps_and_frees next_map 6 stale_wall
                         Hj Him))); reflexivity.
Defined.

Lemma GL_FreeUnusedImages_deletes_only_freed_witness :
  1159 ∈ deleted_textures (GL_FreeUnusedImages next_map) /\
  (1159 ∈ deleted_textures next_map \/
   exists j image, (j < numgltextures next_map)%nat /\
     gltextures next_map !! j = Some image /\ img_texnum image = 1159 /\
     protected next_map j = false /\
     kept (registration_sequence next_map) image = false /\
     gltextures (GL_FreeUnusedImages next_map) !! j = Some image_zero).
Proof.
  assert (1159 ∈ deleted_textures (GL_FreeUnusedImages next_map)) as Ht
    by (vm_compute; apply list_elem_of_here).
  split; [exact Ht|].
  exact (GL_FreeUnusedImages_deletes_only_freed next_map 1159 Ht).
Defined.

(** ** [GL_ShutdownImages] *)

(** The loop of [GL_ShutdownImages] from slot [i], with
    [todo = numgltextures - i] slots left. *)
Fixpoint shutdown_loop (textures : list image_t) (deleted : list Z)
    (i todo : nat) : list image_t * list Z :=
  match todo with
  | O => (textures, deleted)
  | S todo' =>
      match textures !! i with
      | None => shutdown_loop textures deleted (S i) todo'
      | Some image =>
          if img_registration_sequence image =? 0
          then shutdown_loop textures deleted (S i) todo'
          else shutdown_loop (<[i := image_zero]> textures)
                 (deleted ++ [img_texnum image]) (S i) todo'
      end
  end.

(** [void GL_ShutdownImages (void)] *)
Definition GL_ShutdownImages (s : gl_globals) : gl_globals :=
  let '(textures, deleted) :=
    shutdown_loop (gltextures s) (deleted_textures s) 0 (numgltextures s) in
  mk_globals textures (numgltextures s) (registration_sequence s)
    (d_8to24table s) (scrap_allocated s) (scrap_texels s) (scrap_dirty s)
    (upload_width s) (upload_height s) (r_notexture s)
    (r_particletexture s) deleted.

(** A slot in use. *)
Definition used (image : image_t) : Prop := img_registration_sequence image <> 0.

Lemma shutdown_step textures deleted i todo image :
  textures !! i = Some image ->
  shutdown_loop textures deleted i (S todo) =
  if img_registration_sequence image =? 0
  then shutdown_loop textures deleted (S i) todo
  else shutdown_loop (<[i := image_zero]> textures)
         (deleted ++ [img_texnum image]) (S i) todo.
Proof. intros Hi. cbn [shutdown_loop]. rewrite Hi. reflexivity. Qed.

Lemma shutdown_loop_lookup todo : forall textures deleted i j,
  fst (shutdown_loop textures deleted i todo) !! j =
  if bool_decide (i <= j < i + todo)%nat
  then (fun image => if img_registration_sequence image =? 0
                     then image else image_zero) <$> textures !! j
  else textures !! j.
Proof.
  induction todo as [|todo IH]; intros textures deleted i j.
  - cbn [shutdown_loop fst]. rewrite bool_decide_eq_false_2 by lia. reflexivity.
  - destruct (textures !! i) as [image|] eqn:Hi.
    + rewrite (shutdown_step _ _ _ _ _ Hi).
      assert (i < length textures)%nat as Hlt
        by (eapply lookup_lt_Some; exact Hi).
      destruct (img_registration_sequence image =? 0) eqn:Hk; rewrite IH.
      * destruct (decide (j = i)) as [->|Hne].
        -- rewrite bool_decide_eq_false_2, bool_decide_eq_true_2 by lia.
           rewrite Hi. simpl. rewrite Hk. reflexivity.
        -- destruct (decide (S i <= j < S i + todo)%nat).
           ++ rewrite !bool_decide_eq_true_2 by lia. reflexivity.
           ++ rewrite !bool_decide_eq_false_2 by lia. reflexivity.
      * destruct (decide (j = i)) as [->|Hne].
        -- rewrite bool_decide_eq_false_2, bool_decide_eq_true_2 by lia.
           rewrite list_lookup_insert_eq by exact Hlt.
           rewrite Hi. simpl. rewrite Hk. reflexivity.
        -- rewrite list_lookup_insert_ne by congruence.
           destruct (decide (S i <= j < S i + todo)%nat).
           ++ rewrite !bool_decide_eq_true_2 by lia. reflexivity.
           ++ rewrite !bool_decide_eq_false_2 by lia. reflexivity.
    + cbn [shutdown_loop]. rewrite Hi, IH.
      destruct (decide (j = i)) as [->|Hne].
      * rewrite bool_decide_eq_false_2, bool_decide_eq_true_2 by lia.
        rewrite Hi. reflexivity.
      * destruct (decide (S i <= j < S i + todo)%nat).
        -- rewrite !bool_decide_eq_true_2 by lia. reflexivity.
        -- rewrite !bool_decide_eq_false_2 by lia. reflexivity.
Qed.

Lemma shutdown_loop_deleted todo : forall textures deleted i,
  snd (shutdown_loop textures deleted i todo) =
  deleted ++ (img_texnum <$> filter used (take todo (drop i textures))).
Proof.
  induction todo as [|todo IH]; intros textures deleted i.
  - cbn [shutdown_loop snd]. rewrite take_0, filter_nil, app_nil_r.
    reflexivity.
  - destruct (textures !! i) as [image|] eqn:Hi.
    + rewrite (shutdown_step _ _ _ _ _ Hi).
      rewrite (drop_S _ _ _ Hi), firstn_cons, filter_cons.
      destruct (Z.eqb_spec (img_registration_sequence image) 0) as [E|E];
        rewrite IH.
      * destruct (decide (used image)) as [Hu|_]; [contradiction|reflexivity].
      * destruct (decide (used image)) as [_|Hu]; [|contradiction].
        rewrite drop_insert_lt by lia.
        rewrite <- app_assoc. reflexivity.
    + cbn [shutdown_loop]. rewrite Hi, IH.
      apply lookup_ge_None in Hi.
      rewrite !drop_ge by lia. rewrite !take_nil. reflexivity.
Qed.

Lemma shutdown_loop_noop todo : forall textures deleted i,
  (forall j image, (i <= j < i + todo)%nat -> textures !! j = Some image ->
     ~ used image) ->
  shutdown_loop textures deleted i todo = (textures, deleted).
Proof.
  induction todo as [|todo IH]; intros textures deleted i Hfree;
    [reflexivity|].
  assert (shutdown_loop textures deleted (S i) todo = (textures, deleted))
    as Hrest by (apply IH; intros j im Hj; apply Hfree; lia).
  destruct (textures !! i) as [image|] eqn:Hi.
  - rewrite (shutdown_step _ _ _ _ _ Hi).
    destruct (Z.eqb_spec (img_registration_sequence image) 0) as [E|E];
      [exact Hrest|].
    exfalso. apply (Hfree i image); [lia | exact Hi | exact E].
  - cbn [shutdown_loop]. rewrite Hi. exact Hrest.
Qed.

Lemma filter_none {A} (P : A -> Prop) `{!forall x, Decision (P x)} (l : list A) :
  (forall i x, l !! i = Some x -> ~ P x) -> filter P l = [].
Proof.
  induction l as [|x l IH]; intros Hnone; [reflexivity|].
  rewrite filter_cons.
  destruct (decide (P x)) as [Hx|_]; [exfalso; exact (Hnone 0%nat x eq_refl Hx)|].
  apply IH. intros i y Hy. exact (Hnone (S i) y Hy).
Qed.

(** X11. [GL_ShutdownImages] leaves no image in the cache: it deletes the
    texture of every slot in use, in slot order, and zeroes the slot.  It
    does not reset [numgltextures], and a second call does nothing. *)
Theorem GL_ShutdownImages_empties_cache (s : gl_globals) :
  let s' := GL_ShutdownImages s in
  image_count s' = 0%nat /\
  deleted_textures s' =
    deleted_textures s ++
    (img_texnum <$> filter used (take (numgltextures s) (gltextures s))) /\
  numgltextures s' = numgltextures s /\
  GL_ShutdownImages s' = s'.
Proof.
  intros s'. subst s'. unfold GL_ShutdownImages.
  pose proof (shutdown_loop_lookup (numgltextures s) (gltextures s)
                (deleted_textures s) 0) as Hlook.
  pose proof (shutdown_loop_deleted (numgltextures s) (gltextures s)
                (deleted_textures s) 0) as Hdel.
  destruct (shutdown_loop (gltextures s) (deleted_textures s) 0
              (numgltextures s)) as [textures deleted].
  cbn [fst snd] in Hlook, Hdel.
  assert (forall j image, (j < numgltextures s)%nat ->
            textures !! j = Some image -> ~ used image) as Hfree.
  { intros j image Hj Him. rewrite Hlook in Him.
    rewrite bool_decide_eq_true_2 in Him by lia.
    destruct (gltextures s !! j) as [im|]; [|discriminate].
    cbn in Him. unfold used.
    destruct (Z.eqb_spec (img_registration_sequence im) 0) as [E|E];
      injection Him as <-; [lia | cbn; lia]. }
  cbn [gltextures deleted_textures numgltextures registration_sequence
       d_8to24table scrap_allocated scrap_texels scrap_dirty upload_width
       upload_height r_notexture r_particletexture].
  split; [|split; [|split]].
  - unfold image_count. cbn [gltextures numgltextures].
    rewrite (filter_none (fun image => img_registration_sequence image <> 0));
      [reflexivity|].
    intros j image Him.
    destruct (decide (j < numgltextures s)%nat) as [Hj|Hj].
    + rewrite lookup_take_lt in Him by exact Hj. exact (Hfree j image Hj Him).
    + apply lookup_lt_Some in Him. rewrite length_take in Him. lia.
  - rewrite Hdel. cbn [drop]. reflexivity.
  - reflexivity.
  - rewrite shutdown_loop_noop; [reflexivity|].
    intros j image Hj. apply Hfree. lia.
Qed.

(** ** Loading into the cache and finding again *)

Section Lookup.
Context `{!gl_local}.
Variable env : assets.
Variable cfg : gl_settings.

(** [image_t gltextures[MAX_GLTEXTURES]], with [numgltextures] within the
    array. *)
Definition cache_ok (s : gl_globals) : Prop :=
  length (gltextures s) = MAX_GLTEXTURES /\
  (numgltextures s <= MAX_GLTEXTURES)%nat.

Lemma find_free_slot_spec textures todo : forall i,
  let k := find_free_slot textures i todo in
  (i <= k <= i + todo)%nat /\
  (forall j image, (i <= j < k)%nat -> textures !! j = Some image ->
     img_texnum image <> 0) /\
  ((k < i + todo)%nat ->
     exists image, textures !! k = Some image /\ img_texnum image = 0).
Proof.
  induction todo as [|todo IH]; intros i; cbn [find_free_slot].
  - split; [lia|]. split; intros; lia.
  - assert ((forall image, textures !! i = Some image -> img_texnum image <> 0) ->
            let k := find_free_slot textures (S i) todo in
            (i <= k <= i + S todo)%nat /\
            (forall j image, (i <= j < k)%nat -> textures !! j = Some image ->
               img_texnum image <> 0) /\
            ((k < i + S todo)%nat ->
               exists image, textures !! k = Some image /\ img_texnum image = 0))
      as Hnext.
    { intros Hi k. destruct (IH (S i)) as (Hk & Hbusy & Hfree). fold k in Hk, Hbusy, Hfree.
      split; [lia|]. split.
      - intros j image Hj Him. destruct (decide (j = i)) as [->|Hne].
        + exact (Hi image Him).
        + apply (Hbusy j image); [lia | exact Him].
      - intros Hlt. apply Hfree. lia. }
    destruct (textures !! i) as [image|] eqn:Hi.
    + destruct (Z.eqb_spec (img_texnum image) 0) as [E|E].
      * split; [lia|]. split; [intros; lia|]. intros _. exists image. auto.
      * apply Hnext. intros im [= <-]. exact E.
    + apply Hnext. intros im [=].
Qed.

(** What a successful [GL_LoadPic] leaves outside the slot it fills. *)
Lemma GL_LoadPic_frame name pic width height type bits s i s' :
  GL_LoadPic env cfg name pic width height type bits s = Done (i, s') ->
  i = find_free_slot (gltextures s) 0 (numgltextures s) /\
  ((i < numgltextures s)%nat /\ numgltextures s' = numgltextures s \/
   i = numgltextures s /\ numgltextures s <> MAX_GLTEXTURES /\
   numgltextures s' = S (numgltextures s)) /\
  (forall j, j <> i -> gltextures s' !! j = gltextures s !! j) /\
  length (gltextures s') = length (gltextures s) /\
  registration_sequence s' = registration_sequence s /\
  r_notexture s' = r_notexture s /\
  r_particletexture s' = r_particletexture s /\
  deleted_textures s' = deleted_textures s /\
  d_8to24table s' = d_8to24table s.
Proof.
  unfold GL_LoadPic. intros Hrun.
  pose proof (find_free_slot_spec (gltextures s) (numgltextures s) 0)
    as ((_ & Hle) & _).
  set (k := find_free_slot (gltextures s) 0 (numgltextures s)) in *.
  assert (forall num,
            (if (k =? numgltextures s)%nat
             then if (numgltextures s =? MAX_GLTEXTURES)%nat
                  then Drop drop_MAX_GLTEXTURES
                  else Done (S (numgltextures s))
             else Done (numgltextures s)) = Done num ->
            (k < numgltextures s)%nat /\ num = numgltextures s \/
            k = numgltextures s /\ numgltextures s <> MAX_GLTEXTURES /\
            num = S (numgltextures s)) as Hnum.
  { intros num Hn.
    destruct (Nat.eqb_spec k (numgltextures s)) as [E|E].
    - destruct (Nat.eqb_spec (numgltextures s) MAX_GLTEXTURES) as [E'|E'];
        [discriminate|]. injection Hn as <-. right. auto.
    - injection Hn as <-. left. split; [lia | reflexivity]. }
  destruct (if (k =? numgltextures s)%nat then _ else _) as [num| |] eqn:En;
    try discriminate.
  specialize (Hnum num eq_refl).
  unfold mbind, outcome_bind in Hrun.
  repeat case_match; simplify_eq;
    cbn [gltextures numgltextures registration_sequence r_notexture
         r_particletexture deleted_textures d_8to24table];
    (split; [reflexivity|]); (split; [exact Hnum|]);
    (split; [intros j Hj; apply list_lookup_insert_ne; congruence|]);
    (split; [apply length_insert|]); repeat split.
Qed.

(** The search of [GL_FindImage] looks at names only. *)
Lemma find_cached_names textures textures' pngname tganame name todo :
  forall i,
  (forall j, (i <= j < i + todo)%nat ->
     img_name <$> textures' !! j = img_name <$> textures !! j) ->
  find_cached textures' pngname tganame name i todo =
  find_cached textures pngname tganame name i todo.
Proof.
  induction todo as [|todo IH]; intros i Hnames; [reflexivity|].
  cbn [find_cached].
  pose proof (Hnames i ltac:(lia)) as Hi.
  rewrite (IH (S i)) by (intros j Hj; apply Hnames; lia).
  destruct (textures' !! i) as [im'|], (textures !! i) as [im|];
    cbn in Hi; try discriminate; [|reflexivity].
  injection Hi as ->. reflexivity.
Qed.

Lemma set_textures_same s :
  set_textures s (gltextures s) (numgltextures s) = s.
Proof. destruct s; reflexivity. Qed.

(** A slot that holds an image of one of the three names and of the current
    sequence, with no such name before it, is what [GL_FindImage] returns,
    and nothing changes. *)
Lemma GL_FindImage_hit name type s i image :
  (5 <= String.length name)%nat ->
  let pngname := (COM_StripExtension env name ++ ".png")%string in
  let tganame := (COM_StripExtension env name ++ ".tga")%string in
  (i < numgltextures s)%nat -> gltextures s !! i = Some image ->
  img_name image = pngname \/ img_name image = tganame \/ img_name image = name ->
  img_registration_sequence image = registration_sequence s ->
  (forall j, (j < i)%nat -> ~ cached_at (gltextures s) pngname tganame name j) ->
  GL_FindImage env cfg (Some name) type s = Done (Some i, s).
Proof.
  intros Hlen pngname tganame Hi Him Hname Hseq Hfirst.
  unfold GL_FindImage.
  destruct (Nat.ltb_spec (String.length name) 5); [lia|].
  fold pngname tganame.
  pose proof (find_cached_spec (gltextures s) pngname tganame name
                (numgltextures s) 0) as Hspec.
  assert (cached_at (gltextures s) pngname tganame name i) as Hc
    by (exists image; split; assumption).
  destruct (find_cached (gltextures s) pngname tganame name 0 (numgltextures s))
    as [k|].
  - destruct Hspec as (Hk & Hck & Hmin).
    assert (k = i) as ->.
    { destruct (Nat.lt_trichotomy k i) as [Hlt|[Heq|Hgt]]; [|exact Heq|].
      - exfalso. exact (Hfirst k Hlt Hck).
      - exfalso. apply (Hmin i); [lia | exact Hc]. }
    rewrite alter_touch_id; [rewrite set_textures_same; reflexivity|].
    intros im Him'. rewrite Him in Him'. injection Him' as <-. exact Hseq.
  - exfalso. apply (Hspec i); [lia | exact Hc].
Qed.

Lemma with_slot_done {A} (r : outcome (nat * A)) i (s1 : A) :
  with_slot r = Done (Some i, s1) -> r = Done (i, s1).
Proof.
  destruct r as [[i' s']| |]; cbn; intros Hr; [|discriminate..].
  injection Hr as -> ->. reflexivity.
Qed.

Lemma GL_FindImage_after_load name type vname pic w h ty bits s i s1 :
  (5 <= String.length name)%nat -> cache_ok s ->
  let pngname := (COM_StripExtension env name ++ ".png")%string in
  let tganame := (COM_StripExtension env name ++ ".tga")%string in
  find_cached (gltextures s) pngname tganame name 0 (numgltextures s) = None ->
  vname = pngname \/ vname = tganame \/ vname = name ->
  GL_LoadPic env cfg vname pic w h ty bits s = Done (i, s1) ->
  GL_FindImage env cfg (Some name) type s1 = Done (Some i, s1).
Proof.
  intros Hlen (Harr & Hnum) pngname tganame Hmiss Hv Hload.
  destruct (GL_LoadPic_frame _ _ _ _ _ _ _ _ _ Hload)
    as (_ & Hslot & Hother & _ & Hseq & _).
  assert (i < length (gltextures s))%nat as Hi by (destruct Hslot; lia).
  destruct (GL_LoadPic_name env cfg _ _ _ _ _ _ _ _ _ Hload Hi)
    as (image & Him & Hname & Hcur).
  pose proof (find_cached_spec (gltextures s) pngname tganame name
                (numgltextures s) 0) as Hspec.
  rewrite Hmiss in Hspec.
  apply (GL_FindImage_hit name type s1 i image Hlen).
  - destruct Hslot as [(? & ->)|(? & _ & ->)]; lia.
  - exact Him.
  - rewrite Hname. exact Hv.
  - rewrite Hcur, Hseq. reflexivity.
  - intros j Hj (im & Hjm & Hn). rewrite Hother in Hjm by lia.
    apply (Hspec j); [destruct Hslot; lia|]. exists im. split; assumption.
Qed.

(** The three ways [GL_FindImage] comes to return an image: a cache hit, a
    load through [GL_LoadPic], or a missing .wal answered by [r_notexture]
    (which happens whatever the type asked for). *)
Lemma GL_FindImage_cases name type s i s1 :
  GL_FindImage env cfg (Some name) type s = Done (Some i, s1) ->
  let pngname := (COM_StripExtension env name ++ ".png")%string in
  let tganame := (COM_StripExtension env name ++ ".tga")%string in
  (5 <= String.length name)%nat /\
  ((find_cached (gltextures s) pngname tganame name 0 (numgltextures s) = Some i /\
    s1 = set_textures s
           (alter (touch (registration_sequence s)) i (gltextures s))
           (numgltextures s)) \/
   (find_cached (gltextures s) pngname tganame name 0 (numgltextures s) = None /\
    exists vname pic w h ty bits,
      (vname = pngname \/ vname = tganame \/ vname = name) /\
      GL_LoadPic env cfg vname pic w h ty bits s = Done (i, s1)) \/
   (i = r_notexture s /\ s1 = s /\
    forall type',
      GL_FindImage env cfg (Some name) type' s = Done (Some (r_notexture s), s))).
Proof.
  intros Hfind pngname tganame.
  assert (5 <= String.length name)%nat as Hlen.
  { unfold GL_FindImage in Hfind.
    destruct (Nat.ltb_spec (String.length name) 5); [discriminate | lia]. }
  split; [exact Hlen|].
  unfold GL_FindImage in Hfind.
  destruct (Nat.ltb_spec (String.length name) 5) as [|_]; [lia|].
  fold pngname tganame in Hfind.
  destruct (find_cached (gltextures s) pngname tganame name 0 (numgltextures s))
    as [k|] eqn:Hc.
  { injection Hfind as -> <-. left. split; reflexivity. }
  assert (forall vname pic w h ty bits,
            vname = pngname \/ vname = tganame \/ vname = name ->
            with_slot (GL_LoadPic env cfg vname pic w h ty bits s)
              = Done (Some i, s1) ->
            exists vname pic w h ty bits,
              (vname = pngname \/ vname = tganame \/ vname = name) /\
              GL_LoadPic env cfg vname pic w h ty bits s = Done (i, s1))
    as Hload.
  { intros vname pic w h ty bits Hv Hrun. apply with_slot_done in Hrun.
    exists vname, pic, w, h, ty, bits. split; assumption. }
  destruct (LoadPNG env pngname) as [[pic [w h]]|] eqn:Hpng.
  { right. left. split; [reflexivity|]. eapply Hload; [|exact Hfind]. auto. }
  destruct (LoadTGA env tganame) as [[pic [w h]]|] eqn:Htga.
  { right. left. split; [reflexivity|]. eapply Hload; [|exact Hfind]. auto. }
  destruct (String.eqb (tail4 name) ".pcx") eqn:Hpcx.
  { destruct (LoadPCX env name) as [[pic [w h]]|]; [|discriminate].
    right. left. split; [reflexivity|]. eapply Hload; [|exact Hfind]. auto. }
  destruct (String.eqb (tail4 name) ".wal") eqn:Hwal; [|discriminate].
  unfold GL_LoadWal in Hfind.
  destruct (FS_LoadFile env name) as [mt|] eqn:Hmt.
  { right. left. split; [reflexivity|]. eapply Hload; [|exact Hfind]. auto. }
  apply with_slot_done in Hfind. injection Hfind as <- <-.
  right. right. split; [reflexivity|]. split; [reflexivity|].
  intros type'. unfold GL_FindImage.
  destruct (Nat.ltb_spec (String.length name) 5) as [|_]; [lia|].
  fold pngname tganame.
  rewrite Hc, Hpng, Htga, Hpcx, Hwal. unfold GL_LoadWal. rewrite Hmt.
  reflexivity.
Qed.

(** X12. Finding is stable: once [GL_FindImage] has returned an image for a
    name, asking again for that name, as whatever type, returns the same
    slot and changes nothing, neither loading nor touching anything. *)
Theorem GL_FindImage_again (name : string) (type type' : imagetype_t)
    (s s1 : gl_globals) (i : nat) :
  cache_ok s ->
  GL_FindImage env cfg (Some name) type s = Done (Some i, s1) ->
  GL_FindImage env cfg (Some name) type' s1 = Done (Some i, s1).
Proof.
  intros Hok Hfind.
  destruct (GL_FindImage_cases name type s i s1 Hfind)
    as (Hlen & [(Hc & ->)|[(Hc & Hload)|(-> & -> & Hmiss)]]).
  - pose proof (find_cached_spec (gltextures s)
                  (COM_StripExtension env name ++ ".png")
                  (COM_StripExtension env name ++ ".tga") name
                  (numgltextures s) 0) as Hspec.
    rewrite Hc in Hspec. destruct Hspec as (Hk & (image & Him & Hn) & Hmin).
    apply (GL_FindImage_hit name type' _ i
             (touch (registration_sequence s) image) Hlen).
    + cbn. lia.
    + cbn. rewrite list_lookup_alter_eq, Him. reflexivity.
    + exact Hn.
    + reflexivity.
    + intros j Hj (im & Hjm & Hjn). cbn in Hjm.
      rewrite list_lookup_alter_ne in Hjm by lia.
      apply (Hmin j); [lia|]. exists im. split; assumption.
  - destruct Hload as (vname & pic & w & h & ty & bits & Hv & Hrun).
    exact (GL_FindImage_after_load name type' vname pic w h ty bits s i s1
             Hlen Hok Hc Hv Hrun).
  - apply Hmiss.
Qed.

(** The image [GL_LoadPic] stores: its name, type and sequence. *)
Lemma GL_LoadPic_image name pic width height type bits s i s' :
  GL_LoadPic env cfg name pic width height type bits s = Done (i, s') ->
  (i < length (gltextures s))%nat ->
  exists image, gltextures s' !! i = Some image /\
    img_name image = name /\ img_type image = type /\
    img_registration_sequence image = registration_sequence s /\
    (img_width image, img_height image) = hires_size env name width height.
Proof.
  unfold GL_LoadPic. intros Hrun Hi.
  unfold mbind, outcome_bind in Hrun.
  destruct (hires_size env name width height) as [iw ih].
  repeat case_match; simplify_eq; cbn [gltextures];
    (eexists; split; [apply list_lookup_insert_eq; assumption|]);
    repeat split.
Qed.

(** X13. A [GL_LoadPic] that returns has filled the first slot whose
    [texnum] is zero, or the slot after the last when there is none; the
    array and the count stay within [MAX_GLTEXTURES]; the slot holds an
    image of the name and type given, of the current sequence; every other
    slot is as it was. *)
Theorem GL_LoadPic_fills_first_free_slot (name : string) (pic : list Z)
    (width height : Z) (type : imagetype_t) (bits : Z) (s s' : gl_globals)
    (i : nat) :
  cache_ok s ->
  GL_LoadPic env cfg name pic width height type bits s = Done (i, s') ->
  (forall j image, (j < i)%nat -> gltextures s !! j = Some image ->
     img_texnum image <> 0) /\
  ((i < numgltextures s)%nat ->
     exists old, gltextures s !! i = Some old /\ img_texnum old = 0) /\
  (i < numgltextures s')%nat /\ cache_ok s' /\
  (numgltextures s <= numgltextures s' <= S (numgltextures s))%nat /\
  (exists image, gltextures s' !! i = Some image /\
     img_name image = name /\ img_type image = type /\
     img_registration_sequence image = registration_sequence s') /\
  (forall j, j <> i -> gltextures s' !! j = gltextures s !! j).
Proof.
  intros (Harr & Hnum) Hrun.
  destruct (GL_LoadPic_frame _ _ _ _ _ _ _ _ _ Hrun)
    as (Hi & Hslot & Hother & Hlen & Hseq & _).
  pose proof (find_free_slot_spec (gltextures s) (numgltextures s) 0)
    as (_ & Hbusy & Hfree).
  cbn zeta in Hbusy, Hfree. rewrite <- Hi in Hbusy, Hfree.
  assert (i < length (gltextures s))%nat as Hlt by (destruct Hslot; lia).
  destruct (GL_LoadPic_image _ _ _ _ _ _ _ _ _ Hrun Hlt)
    as (image & Him & Hn & Hty & Hcur & _).
  split; [intros j im Hj; apply Hbusy; lia|].
  split; [intros Hin; apply Hfree; lia|].
  split; [destruct Hslot as [(? & ->)|(? & _ & ->)]; lia|].
  split; [split; [congruence | destruct Hslot as [(? & ->)|(? & ? & ->)]; lia]|].
  split; [destruct Hslot as [(? & ->)|(? & _ & ->)]; lia|].
  split; [|exact Hother].
  exists image. rewrite Hseq. auto.
Qed.

(** X14. With all [MAX_GLTEXTURES] slots taken, [GL_LoadPic] raises the
    MAX_GLTEXTURES error, whatever it is asked to load. *)
Theorem GL_LoadPic_table_full (name : string) (pic : list Z)
    (width height : Z) (type : imagetype_t) (bits : Z) (s : gl_globals) :
  numgltextures s = MAX_GLTEXTURES ->
  (forall j image, (j < MAX_GLTEXTURES)%nat -> gltextures s !! j = Some image ->
     img_texnum image <> 0) ->
  GL_LoadPic env cfg name pic width height type bits s
    = Drop drop_MAX_GLTEXTURES.
Proof.
  intros Hnum Hfull. unfold GL_LoadPic.
  pose proof (find_free_slot_spec (gltextures s) (numgltextures s) 0)
    as (Hk & _ & Hfree).
  cbn zeta in Hk, Hfree.
  set (k := find_free_slot (gltextures s) 0 (numgltextures s)) in *.
  assert (k = numgltextures s) as ->.
  { destruct (decide (k < numgltextures s)%nat) as [Hlt|Hge]; [|lia].
    destruct (Hfree ltac:(lia)) as (image & Him & Hz).
    exfalso. apply (Hfull k image); [lia | exact Him | exact Hz]. }
  rewrite Nat.eqb_refl, Hnum, Nat.eqb_refl. reflexivity.
Qed.

End Lookup.

(** ** Registration: find, then sweep *)

Section Registration.
Context `{!gl_local}.
Variable env : assets.
Variable cfg : gl_settings.

(** The sweep keeps an image that is protected or of the current
    sequence. *)
Lemma sweep_keeps_current s i image :
  gltextures s !! i = Some image ->
  protected s i = true \/
    img_registration_sequence image = registration_sequence s ->
  gltextures (GL_FreeUnusedImages s) !! i
    = Some (touch (registration_sequence s) image).
Proof.
  intros Him Hcur.
  destruct (GL_FreeUnusedImages_fields s) as (-> & _).
  assert (touched s !! i = Some (touch (registration_sequence s) image)) as Ht.
  { rewrite touched_lookup, Him. cbn.
    destruct (protected s i); [reflexivity|].
    destruct Hcur as [?|Hseq]; [discriminate|].
    rewrite touch_current by exact Hseq. reflexivity. }
  rewrite sweep_loop_lookup, Ht.
  destruct (bool_decide _); [|reflexivity].
  cbn [fmap option_fmap option_map]. rewrite touch_kept. reflexivity.
Qed.

(** X15. An image [GL_FindImage] has returned is not freed by the sweep
    that follows: [GL_FreeUnusedImages] leaves it in its slot, with the
    current sequence and every other field as it was. *)
Theorem registered_image_survives_sweep (name : string) (type : imagetype_t)
    (s s1 : gl_globals) (i : nat) (image : image_t) :
  cache_ok s ->
  GL_FindImage env cfg (Some name) type s = Done (Some i, s1) ->
  gltextures s1 !! i = Some image ->
  gltextures (GL_FreeUnusedImages s1) !! i
    = Some (touch (registration_sequence s1) image) /\
  (i <> r_notexture s1 -> gltextures (GL_FreeUnusedImages s1) !! i = Some image).
Proof.
  intros Hok Hfind Him.
  assert (i = r_notexture s1 \/
          img_registration_sequence image = registration_sequence s1) as Hcur.
  { destruct (GL_FindImage_cases env cfg name type s i s1 Hfind)
      as (_ & [(Hc & ->)|[(Hc & Hload)|(-> & -> & _)]]).
    - right. cbn in Him |- *.
      rewrite list_lookup_alter_eq in Him.
      destruct (gltextures s !! i); [|discriminate].
      injection Him as <-. reflexivity.
    - right. destruct Hload as (vname & pic & w & h & ty & bits & _ & Hrun).
      destruct (GL_LoadPic_frame env cfg _ _ _ _ _ _ _ _ _ Hrun)
        as (_ & Hslot & _ & _ & Hseq & _).
      destruct Hok as (Harr & Hnum).
      destruct (GL_LoadPic_name env cfg _ _ _ _ _ _ _ _ _ Hrun)
        as (im & Him' & _ & Hs); [destruct Hslot; lia|].
      rewrite Him in Him'. injection Him' as <-. congruence.
    - left. reflexivity. }
  assert (gltextures (GL_FreeUnusedImages s1) !! i
          = Some (touch (registration_sequence s1) image)) as Hkeep.
  { apply sweep_keeps_current; [exact Him|].
    destruct Hcur as [->|Hseq]; [left | right; exact Hseq].
    unfold protected. rewrite bool_decide_eq_true_2 by reflexivity.
    reflexivity. }
  split; [exact Hkeep|]. intros Hne.
  destruct Hcur as [?|Hseq]; [contradiction|].
  rewrite Hkeep, touch_current by exact Hseq. reflexivity.
Qed.

End Registration.

Lemma booted_cache_ok : cache_ok booted.
Proof. split; [reflexivity | vm_compute; lia]. Qed.

Lemma GL_FindImage_again_witness :
  let name := "pics/conback.pcx"%string in
  cache_ok booted /\
  exists i s1,
    GL_FindImage one_png default_settings (Some name) it_pic booted
      = Done (Some i, s1) /\
    GL_FindImage one_png default_settings (Some name) it_sky s1
      = Done (Some i, s1).
Proof.
  intros name.
  split; [exact booted_cache_ok|].
  destruct (GL_FindImage one_png default_settings (Some name) it_pic booted)
    as [[[i|] s1]| |] eqn:Hfind;
    try (vm_compute in Hfind; discriminate Hfind).
  exists i, s1. split; [reflexivity|].
  exact (GL_FindImage_again one_png default_settings name it_pic it_sky
           booted s1 i booted_cache_ok Hfind).
Defined.

Lemma GL_LoadPic_fills_first_free_slot_witness :
  cache_ok booted /\
  exists s',
    GL_LoadPic no_files default_settings "pics/a_wide.pcx" (replicate 64 1)
               64 1 it_pic 8 booted = Done (6%nat, s') /\
    numgltextures s' = 7%nat /\
    forall j, j <> 6%nat -> gltextures s' !! j = gltextures booted !! j.
Proof.
  split; [exact booted_cache_ok|].
  destruct (GL_LoadPic no_files default_settings "pics/a_wide.pcx"
              (replicate 64 1) 64 1 it_pic 8 booted)
    as [[i s']| |] eqn:Hrun;
    try (vm_compute in Hrun; discriminate Hrun).
  assert (i = 6%nat) as ->.
  { assert ((fun r => match r with Done (k, _) => k | _ => 0%nat end)
              (GL_LoadPic no_files default_settings "pics/a_wide.pcx"
                 (replicate 64 1) 64 1 it_pic 8 booted) = 6%nat) as Hi
      by (vm_compute; reflexivity).
    rewrite Hrun in Hi. exact Hi. }
  exists s'. split; [reflexivity|].
  destruct (GL_LoadPic_fills_first_free_slot no_files default_settings
              "pics/a_wide.pcx" (replicate 64 1) 64 1 it_pic 8 booted s' 6
              booted_cache_ok Hrun)
    as (_ & _ & Hlt & _ & Hnum & _ & Hother).
  split; [|exact Hother].
  change (numgltextures booted) with 6%nat in Hnum. lia.
Defined.

(** A cache with every slot taken. *)
Definition full_cache : gl_globals :=
  mk_globals
    (map (fun i => mk_image "pics/x.pcx" it_pic 64 64 64 64 1
                     (1153 + Z.of_nat i) 0 0 1 1 false) (seq 0 1024))
    1024 1 (d_8to24table booted) (scrap_allocated booted) ∅ false 1 1
    5%nat [0; 1; 2; 3; 4]%nat [].

Lemma GL_LoadPic_table_full_witness :
  numgltextures full_cache = MAX_GLTEXTURES /\
  GL_LoadPic no_files default_settings "pics/a_wide.pcx" (replicate 64 1)
             64 1 it_pic 8 full_cache = Drop drop_MAX_GLTEXTURES.
Proof.
  split; [reflexivity|].
  apply GL_LoadPic_table_full; [reflexivity|].
  intros j image Hj Him. unfold full_cache in Him. cbn [gltextures] in Him.
  rewrite list_lookup_fmap in Him.
  destruct (seq 0 1024 !! j) as [k|]; [|discriminate].
  injection Him as <-. cbn. lia.
Defined.

Lemma registered_image_survives_sweep_witness :
  let name := "pics/conback.pcx"%string in
  cache_ok booted /\
  exists i s1 image,
    GL_FindImage one_png default_settings (Some name) it_pic booted
      = Done (Some i, s1) /\
    gltextures s1 !! i = Some image /\
    gltextures (GL_FreeUnusedImages s1) !! i
      = Some (touch (registration_sequence s1) image).
Proof.
  intros name.
  split; [exact booted_cache_ok|].
  destruct (GL_FindImage one_png default_settings (Some name) it_pic booted)
    as [[[i|] s1]| |] eqn:Hfind;
    try (vm_compute in Hfind; discriminate Hfind).
  destruct (gltextures s1 !! i) as [image|] eqn:Him.
  - exists i, s1, image. split; [reflexivity|]. split; [exact Him|].
    exact (proj1 (registered_image_survives_sweep one_png default_settings
                    name it_pic booted s1 i image booted_cache_ok Hfind Him)).
  - exfalso.
    assert ((fun r => match r with
                      | Done (Some i, s1) => is_Some (gltextures s1 !! i)
                      | _ => False
                      end)
              (GL_FindImage one_png default_settings (Some name) it_pic booted))
      as Hsome by (vm_compute; eauto).
    rewrite Hfind in Hsome. cbn beta iota in Hsome. rewrite Him in Hsome.
    destruct Hsome as (x & Hx). discriminate Hx.
Defined.

End ImageCache.

(** * [GL_MipMap]: the box filter in place *)

Module MipMap.
Import Image.

(** A read and a write through a [byte *] into the texel buffer, at a byte
    offset from its start. *)
Definition peek (buf : list Z) (i : Z) : outcome Z :=
  if i <? 0 then Undef else of_read (buf !! Z.to_nat i).

Definition poke (buf : list Z) (i v : Z) : outcome (list Z) :=
  if (0 <=? i) && (i <? Z.of_nat (length buf))
  then Done (<[Z.to_nat i := v mod 256]> buf) else Undef.

(** [out[c] = (in[c] + in[4+c] + in[width+c] + in[width+4+c])>>2;] *)
Definition mip_byte (buf : list Z) (inp outp width c : Z) : outcome (list Z) :=
  a ← peek buf (inp + c);
  b ← peek buf (inp + (4 + c));
  d ← peek buf (inp + (width + c));
  e ← peek buf (inp + (width + 4 + c));
  poke buf (outp + c) (Z.shiftr (a + b + d + e) 2).

(** The body of the inner loop. *)
Definition mip_texel (buf : list Z) (inp outp width : Z) : outcome (list Z) :=
  buf ← mip_byte buf inp outp width 0;
  buf ← mip_byte buf inp outp width 1;
  buf ← mip_byte buf inp outp width 2;
  mip_byte buf inp outp width 3.

(** [for (j=0 ; j<width ; j+=8, out+=4, in+=8)], from [j]; the buffer and
    the two pointers it leaves. *)
Fixpoint mip_row (buf : list Z) (inp outp width j : Z) (fuel : nat)
    : outcome (list Z * (Z * Z)) :=
  match fuel with
  | O => Done (buf, (inp, outp))
  | S fuel' =>
      if j <? width then
        buf ← mip_texel buf inp outp width;
        mip_row buf (inp + 8) (outp + 4) width (j + 8) fuel'
      else Done (buf, (inp, outp))
  end.

(** [for (i=0 ; i<height ; i++, in+=width)], with [todo] rows left. *)
Fixpoint mip_rows (buf : list Z) (inp outp width : Z) (todo : nat)
    : outcome (list Z) :=
  match todo with
  | O => Done buf
  | S todo' =>
      '(buf, (inp, outp)) ← mip_row buf inp outp width 0 (Z.to_nat width);
      mip_rows buf (inp + width) outp width todo'
  end.

(** [void GL_MipMap (byte *in, int width, int height)]: the buffer it
    leaves. *)
Definition GL_MipMap (buf : list Z) (width height : Z) : outcome (list Z) :=
  let width := Z.shiftl width 2 in
  let height := Z.shiftr height 1 in
  mip_rows buf 0 0 width (Z.to_nat height).

(** Channel [c] of the texel at ([row], [col]) of a [w] wide image. *)
Definition texel (buf : list Z) (w row col c : Z) : Z :=
  default 0 (buf !! Z.to_nat (4 * (row * w + col) + c)).

(** The 2x2 box filter. *)
Definition box (buf : list Z) (w i j c : Z) : Z :=
  (texel buf w (2 * i) (2 * j) c + texel buf w (2 * i) (2 * j + 1) c
   + texel buf w (2 * i + 1) (2 * j) c + texel buf w (2 * i + 1) (2 * j + 1) c)
  / 4.

Definition bytes (buf : list Z) : Prop := Forall (fun v => 0 <= v <= 255) buf.

Section InPlace.
Variable orig : list Z.
Variables k height : Z.
Hypothesis Hbytes : bytes orig.
Hypothesis Hk : 0 <= k.
Hypothesis Hlen : 4 * (2 * k) * height <= Z.of_nat (length orig).

(** The buffer when the first [m] bytes of the result have been written:
    they hold the filtered image, the rest is as it was. *)
Definition written (m : Z) (cur : list Z) : Prop :=
  length cur = length orig /\
  (forall i j c, 0 <= i -> 0 <= j < k -> 0 <= c < 4 ->
     4 * (i * k + j) + c < m ->
     cur !! Z.to_nat (4 * (i * k + j) + c) = Some (box orig (2 * k) i j c)) /\
  (forall x, m <= x -> cur !! Z.to_nat x = orig !! Z.to_nat x).

Lemma index_unique i j c i' j' c' :
  0 <= i -> 0 <= i' -> 0 <= j < k -> 0 <= j' < k -> 0 <= c < 4 -> 0 <= c' < 4 ->
  4 * (i * k + j) + c = 4 * (i' * k + j') + c' ->
  i = i' /\ j = j' /\ c = c'.
Proof.
  intros Hi Hi' Hj Hj' Hc Hc' Heq.
  assert (c = c') as <- by lia.
  assert (i * k + j = i' * k + j') as Hsum by lia.
  assert (i = i') as <-.
  { destruct (Z.lt_trichotomy i i') as [Hlt|[?|Hgt]]; [|assumption|].
    - assert ((i + 1) * k <= i' * k) by (apply Z.mul_le_mono_nonneg_r; lia). lia.
    - assert ((i' + 1) * k <= i * k) by (apply Z.mul_le_mono_nonneg_r; lia). lia. }
  split; [reflexivity|]. split; [lia | reflexivity].
Qed.

Lemma rows_fit i : 0 <= i -> 2 * i + 1 < height ->
  (2 * i + 2) * (2 * k) <= height * (2 * k).
Proof. intros Hi Hrow. apply Z.mul_le_mono_nonneg_r; lia. Qed.

Lemma peek_original m cur x :
  written m cur -> 0 <= m <= x -> x < Z.of_nat (length orig) ->
  exists a, peek cur x = Done a /\ orig !! Z.to_nat x = Some a /\ 0 <= a <= 255.
Proof.
  intros (Hl & _ & Hrest) Hx Hin. unfold peek.
  destruct (Z.ltb_spec x 0); [lia|]. rewrite (Hrest x) by lia.
  destruct (orig !! Z.to_nat x) as [a|] eqn:Ha.
  - exists a. split; [reflexivity|]. split; [reflexivity|].
    exact (proj1 (Forall_lookup _ _) Hbytes _ _ Ha).
  - apply lookup_ge_None in Ha. lia.
Qed.

(** One byte of the result: the reads all fall at or after the byte about
    to be written, where the buffer is as it was. *)
Lemma mip_byte_written cur i j c :
  0 <= i -> 2 * i + 1 < height -> 0 <= j < k -> 0 <= c < 4 ->
  written (4 * (i * k + j) + c) cur ->
  exists cur',
    mip_byte cur (4 * ((2 * i) * (2 * k) + 2 * j)) (4 * (i * k + j))
             (4 * (2 * k)) c = Done cur' /\
    written (4 * (i * k + j) + c + 1) cur'.
Proof.
  intros Hi Hrow Hj Hc Hw.
  pose proof (rows_fit i Hi Hrow) as Hfit.
  assert (0 <= i * k) as Hik by (apply Z.mul_nonneg_nonneg; lia).
  set (m := 4 * (i * k + j) + c) in *.
  set (n := 4 * ((2 * i) * (2 * k) + 2 * j)).
  assert (n = 16 * (i * k) + 8 * j) as Hn by (unfold n; lia).
  assert (forall d, 0 <= d -> d + c < 4 * (2 * k) + 8 ->
            exists a, peek cur (n + (d + c)) = Done a /\
                      orig !! Z.to_nat (n + (d + c)) = Some a /\ 0 <= a <= 255)
    as Hpeek.
  { intros d Hd Hd'. apply (peek_original m); [exact Hw | unfold m; lia | lia]. }
  unfold mip_byte. fold n.
  destruct (Hpeek 0) as (a & Ha & Oa & Ba); [lia | lia|].
  destruct (Hpeek 4) as (b & Hb & Ob & Bb); [lia | lia|].
  destruct (Hpeek (4 * (2 * k))) as (d & Hd & Od & Bd); [lia | lia|].
  destruct (Hpeek (4 * (2 * k) + 4)) as (e & He & Oe & Be); [lia | lia|].
  replace (n + c) with (n + (0 + c)) by lia. rewrite Ha.
  cbn [mbind outcome_bind]. rewrite Hb. cbn [mbind outcome_bind].
  rewrite Hd. cbn [mbind outcome_bind].
  replace (n + (4 * (2 * k) + 4 + c)) with (n + (4 * (2 * k) + 4 + c)) by lia.
  rewrite He. cbn [mbind outcome_bind].
  destruct Hw as (Hl & Hdone & Hrest).
  unfold poke. fold m.
  destruct (Z.leb_spec 0 m); [|lia].
  destruct (Z.ltb_spec m (Z.of_nat (length cur))); [|lia].
  cbn [andb]. eexists. split; [reflexivity|].
  assert (Z.shiftr (a + b + d + e) 2 mod 256 = box orig (2 * k) i j c) as Hval.
  { rewrite Z.shiftr_div_pow2 by lia. change (2 ^ 2) with 4.
    assert (0 <= (a + b + d + e) / 4 < 256) as Hq
      by (split; [apply Z.div_pos; lia | apply Z.div_lt_upper_bound; lia]).
    rewrite Z.mod_small by exact Hq.
    unfold box, texel.
    replace (4 * (2 * i * (2 * k) + 2 * j) + c) with (n + (0 + c)) by lia.
    replace (4 * (2 * i * (2 * k) + (2 * j + 1)) + c) with (n + (4 + c)) by lia.
    replace (4 * ((2 * i + 1) * (2 * k) + 2 * j) + c)
      with (n + (4 * (2 * k) + c)) by lia.
    replace (4 * ((2 * i + 1) * (2 * k) + (2 * j + 1)) + c)
      with (n + (4 * (2 * k) + 4 + c)) by lia.
    rewrite Oa, Ob, Od, Oe. reflexivity. }
  rewrite Hval. split; [rewrite length_insert; exact Hl|]. split.
  - intros i' j' c' Hi' Hj' Hc' Hlt.
    destruct (Z.eq_dec (4 * (i' * k + j') + c') m) as [Heq|Hne].
    + destruct (index_unique i' j' c' i j c) as (-> & -> & ->);
        [lia | lia | lia | lia | lia | lia | exact Heq |].
      fold m. apply list_lookup_insert_eq. lia.
    + assert (0 <= i' * k) by (apply Z.mul_nonneg_nonneg; lia).
      rewrite list_lookup_insert_ne by lia.
      apply Hdone; [lia | lia | lia | lia].
  - intros x Hx. rewrite list_lookup_insert_ne by lia. apply Hrest. lia.
Qed.

Ltac written_by W :=
  match goal with
  | |- written ?m _ =>
      match type of W with
      | written ?m' _ => replace m with m' by lia; exact W
      end
  end.

Lemma mip_texel_written cur i j :
  0 <= i -> 2 * i + 1 < height -> 0 <= j < k ->
  written (4 * (i * k + j)) cur ->
  exists cur',
    mip_texel cur (4 * ((2 * i) * (2 * k) + 2 * j)) (4 * (i * k + j))
              (4 * (2 * k)) = Done cur' /\
    written (4 * (i * k + (j + 1))) cur'.
Proof.
  intros Hi Hrow Hj Hw. unfold mip_texel.
  destruct (mip_byte_written cur i j 0) as (c1 & -> & W1);
    [lia | lia | lia | lia | written_by Hw|].
  cbn [mbind outcome_bind].
  destruct (mip_byte_written c1 i j 1) as (c2 & -> & W2);
    [lia | lia | lia | lia | written_by W1|].
  cbn [mbind outcome_bind].
  destruct (mip_byte_written c2 i j 2) as (c3 & -> & W3);
    [lia | lia | lia | lia | written_by W2|].
  cbn [mbind outcome_bind].
  destruct (mip_byte_written c3 i j 3) as (c4 & -> & W4);
    [lia | lia | lia | lia | written_by W3|].
  exists c4. split; [reflexivity|].
  written_by W4.
Qed.

Lemma mip_row_written i : 0 <= i -> 2 * i + 1 < height ->
  forall fuel cur j,
  0 <= j <= k -> (Z.to_nat (k - j) <= fuel)%nat ->
  written (4 * (i * k + j)) cur ->
  exists cur',
    mip_row cur (4 * ((2 * i) * (2 * k) + 2 * j)) (4 * (i * k + j))
            (4 * (2 * k)) (8 * j) fuel
      = Done (cur', (4 * ((2 * i) * (2 * k) + 2 * k), 4 * ((i + 1) * k))) /\
    written (4 * ((i + 1) * k)) cur'.
Proof.
  intros Hi Hrow. induction fuel as [|fuel IH]; intros cur j Hj Hfuel Hw.
  - assert (j = k) as -> by lia. cbn [mip_row]. exists cur.
    split; [do 3 f_equal; lia|].
    replace (4 * ((i + 1) * k)) with (4 * (i * k + k)) by lia. exact Hw.
  - cbn [mip_row]. destruct (Z.ltb_spec (8 * j) (4 * (2 * k))) as [Hlt|Hge].
    + destruct (mip_texel_written cur i j Hi Hrow ltac:(lia) Hw)
        as (cur1 & -> & W1).
      cbn [mbind outcome_bind].
      destruct (IH cur1 (j + 1) ltac:(lia) ltac:(lia) W1) as (cur' & Hrun & W').
      exists cur'. split; [|exact W'].
      rewrite <- Hrun. f_equal; lia.
    + assert (j = k) as -> by lia. exists cur.
      split; [do 3 f_equal; lia|].
      replace (4 * ((i + 1) * k)) with (4 * (i * k + k)) by lia. exact Hw.
Qed.

Lemma mip_rows_written todo : forall cur i,
  0 <= i -> 2 * (i + Z.of_nat todo) <= height ->
  written (4 * (i * k)) cur ->
  exists cur',
    mip_rows cur (4 * ((2 * i) * (2 * k))) (4 * (i * k)) (4 * (2 * k)) todo
      = Done cur' /\
    written (4 * ((i + Z.of_nat todo) * k)) cur'.
Proof.
  induction todo as [|todo IH]; intros cur i Hi Hrows Hw; cbn [mip_rows].
  - exists cur. split; [reflexivity|].
    replace (i + Z.of_nat 0) with i by lia. exact Hw.
  - destruct (mip_row_written i Hi ltac:(lia) (Z.to_nat (4 * (2 * k))) cur 0)
      as (cur1 & Hrow & W1); [lia | lia | |].
    { replace (4 * (i * k + 0)) with (4 * (i * k)) by lia. exact Hw. }
    replace (4 * (2 * i * (2 * k) + 2 * 0)) with (4 * (2 * i * (2 * k)))
      in Hrow by lia.
    replace (4 * (i * k + 0)) with (4 * (i * k)) in Hrow by lia.
    change (8 * 0) with 0 in Hrow. rewrite Hrow.
    cbn [mbind outcome_bind].
    destruct (IH cur1 (i + 1) ltac:(lia) ltac:(lia) W1) as (cur' & Hrun & W').
    exists cur'. split.
    + rewrite <- Hrun. f_equal; lia.
    + replace (i + Z.of_nat (S todo)) with (i + 1 + Z.of_nat todo) by lia.
      exact W'.
Qed.

End InPlace.

(** X16. [GL_MipMap] works in place and still computes the 2x2 box filter
    of the image it was given: for an image of even width, every texel of
    the half-size result is the average (rounded down) of the four texels
    of the original it covers, although the result overwrites the start of
    the buffer the loop is still reading.  The bytes behind the result are
    left as they were. *)
Theorem GL_MipMap_box_filter (buf : list Z) (k height : Z) :
  bytes buf -> 0 <= k -> 0 <= height ->
  4 * (2 * k) * height <= Z.of_nat (length buf) ->
  exists out,
    GL_MipMap buf (2 * k) height = Done out /\
    length out = length buf /\
    (forall i j c, 0 <= i < height / 2 -> 0 <= j < k -> 0 <= c < 4 ->
       out !! Z.to_nat (4 * (i * k + j) + c) = Some (box buf (2 * k) i j c)) /\
    (forall x, 4 * ((height / 2) * k) <= x ->
       out !! Z.to_nat x = buf !! Z.to_nat x).
Proof.
  intros Hbytes Hk Hh Hlen. unfold GL_MipMap.
  rewrite Z.shiftl_mul_pow2, Z.shiftr_div_pow2 by lia.
  change (2 ^ 2) with 4. change (2 ^ 1) with 2.
  destruct (mip_rows_written buf k height Hbytes Hk Hlen
              (Z.to_nat (height / 2)) buf 0) as (out & Hrun & Hw).
  - lia.
  - rewrite Z2Nat.id by (apply Z.div_pos; lia).
    pose proof (Z.mul_div_le height 2). lia.
  - split; [reflexivity|]. split; [intros; lia | reflexivity].
  - change (4 * (2 * 0 * (2 * k))) with 0 in Hrun.
    change (4 * (0 * k)) with 0 in Hrun.
    replace (2 * k * 4) with (4 * (2 * k)) by lia.
    exists out. split; [exact Hrun|].
    rewrite Z2Nat.id in Hw by (apply Z.div_pos; lia).
    destruct Hw as (Hl & Hdone & Hrest).
    split; [exact Hl|]. split; [|replace (0 + height / 2) with (height / 2) in Hrest by lia; exact Hrest].
    intros i j c Hi Hj Hc. apply Hdone; [lia | lia | lia|].
    assert ((i + 1) * k <= (0 + height / 2) * k)
      by (apply Z.mul_le_mono_nonneg_r; lia).
    lia.
Qed.

Lemma GL_MipMap_box_filter_witness :
  let buf := [10; 20; 30; 40; 50; 60; 70; 80;
              90; 100; 110; 120; 130; 140; 150; 160] in
  bytes buf /\ 0 <= 1 /\ 0 <= 2 /\ 4 * (2 * 1) * 2 <= Z.of_nat (length buf) /\
  exists out,
    GL_MipMap buf (2 * 1) 2 = Done out /\
    length out = length buf /\
    (forall i j c, 0 <= i < 2 / 2 -> 0 <= j < 1 -> 0 <= c < 4 ->
       out !! Z.to_nat (4 * (i * 1 + j) + c) = Some (box buf (2 * 1) i j c)) /\
    (forall x, 4 * ((2 / 2) * 1) <= x ->
       out !! Z.to_nat x = buf !! Z.to_nat x).
Proof.
  intros buf.
  assert (bytes buf) as Hb by (unfold bytes, buf; repeat constructor; lia).
  assert (4 * (2 * 1) * 2 <= Z.of_nat (length buf)) as Hlen
    by (vm_compute; discriminate).
  split; [exact Hb|]. split; [lia|]. split; [lia|]. split; [exact Hlen|].
  exact (GL_MipMap_box_filter buf 1 2 Hb ltac:(lia) ltac:(lia) Hlen).
Defined.

Example mipmap_2x2 :
  GL_MipMap [10; 20; 30; 40; 50; 60; 70; 80;
             90; 100; 110; 120; 130; 140; 150; 160] 2 2
  = Done [70; 80; 90; 100; 50; 60; 70; 80;
          90; 100; 110; 120; 130; 140; 150; 160].
Proof. vm_compute. reflexivity. Qed.

(** ** A column of texels *)

Lemma peek_cases cur x :
  (peek cur x = Undef /\ (x < 0 \/ Z.of_nat (length cur) <= x)) \/
  (exists a, peek cur x = Done a /\ 0 <= x < Z.of_nat (length cur)).
Proof.
  unfold peek. destruct (Z.ltb_spec x 0); [left; split; [reflexivity|lia]|].
  destruct (cur !! Z.to_nat x) as [a|] eqn:Ha.
  - right. exists a. split; [reflexivity|].
    apply lookup_lt_Some in Ha. lia.
  - left. split; [reflexivity|]. apply lookup_ge_None in Ha. lia.
Qed.

(** A byte of the result is written only when the last of the four reads,
    at [in[width+4+c]], is inside the buffer. *)
Lemma mip_byte_cases cur inp outp width c :
  0 <= outp <= inp -> 0 <= c -> 0 <= width ->
  mip_byte cur inp outp width c = Undef \/
  exists cur', mip_byte cur inp outp width c = Done cur' /\
    length cur' = length cur /\
    inp + (width + 4 + c) < Z.of_nat (length cur).
Proof.
  intros Hout Hc Hw. unfold mip_byte.
  destruct (peek_cases cur (inp + c)) as [(-> & _)|(a & -> & _)];
    [left; reflexivity|]. cbn [mbind outcome_bind].
  destruct (peek_cases cur (inp + (4 + c))) as [(-> & _)|(b & -> & _)];
    [left; reflexivity|]. cbn [mbind outcome_bind].
  destruct (peek_cases cur (inp + (width + c))) as [(-> & _)|(d & -> & _)];
    [left; reflexivity|]. cbn [mbind outcome_bind].
  destruct (peek_cases cur (inp + (width + 4 + c))) as [(-> & _)|(e & -> & He)];
    [left; reflexivity|]. cbn [mbind outcome_bind].
  right. unfold poke.
  destruct (Z.leb_spec 0 (outp + c)); [|lia].
  destruct (Z.ltb_spec (outp + c) (Z.of_nat (length cur))); [|lia].
  cbn [andb]. eexists. split; [reflexivity|].
  split; [apply length_insert | lia].
Qed.

Lemma mip_texel_cases cur inp outp width :
  0 <= outp <= inp -> 0 <= width ->
  mip_texel cur inp outp width = Undef \/
  exists cur', mip_texel cur inp outp width = Done cur' /\
    length cur' = length cur /\
    inp + (width + 4) < Z.of_nat (length cur).
Proof.
  intros Hout Hw. unfold mip_texel.
  destruct (mip_byte_cases cur inp outp width 0) as [->|(c1 & -> & L1 & B1)];
    [lia | lia | lia | left; reflexivity|]. cbn [mbind outcome_bind].
  destruct (mip_byte_cases c1 inp outp width 1) as [->|(c2 & -> & L2 & _)];
    [lia | lia | lia | left; reflexivity|]. cbn [mbind outcome_bind].
  destruct (mip_byte_cases c2 inp outp width 2) as [->|(c3 & -> & L3 & _)];
    [lia | lia | lia | left; reflexivity|]. cbn [mbind outcome_bind].
  destruct (mip_byte_cases c3 inp outp width 3) as [->|(c4 & -> & L4 & _)];
    [lia | lia | lia | left; reflexivity|].
  right. exists c4. split; [reflexivity|]. split; [congruence | lia].
Qed.

(** For a width of one texel the inner loop runs once, reading the texel
    of the next row twice and the one after it. *)
Lemma mip_rows_column todo : forall cur inp outp,
  0 <= outp <= inp ->
  Z.of_nat (length cur) <= inp + 12 * Z.of_nat todo - 4 ->
  (0 < todo)%nat ->
  mip_rows cur inp outp 4 todo = Undef.
Proof.
  induction todo as [|todo IH]; intros cur inp outp Hout Hlen Hpos; [lia|].
  cbn [mip_rows]. change (Z.to_nat 4) with 4%nat. cbn [mip_row].
  change (0 <? 4) with true. cbv iota.
  destruct (mip_texel_cases cur inp outp 4) as [->|(cur1 & -> & L1 & B1)];
    [lia | lia | reflexivity|].
  cbn [mbind outcome_bind]. change (0 + 8 <? 4) with false. cbv iota.
  destruct todo as [|todo]; [lia|].
  apply IH; [lia | rewrite L1; lia | lia].
Qed.

(** X17. On an image one texel wide and of even height, held in a buffer
    of just its size, [GL_MipMap] reads past the end of the buffer: each
    row reads [in[width+4 ..]], the texel two rows down. *)
Theorem GL_MipMap_column_reads_past_end (buf : list Z) (n : Z) :
  0 < n -> Z.of_nat (length buf) = 4 * (1 * (2 * n)) ->
  GL_MipMap buf 1 (2 * n) = Undef.
Proof.
  intros Hn Hlen. unfold GL_MipMap.
  rewrite Z.shiftr_div_pow2 by lia. change (2 ^ 1) with 2.
  change (Z.shiftl 1 2) with 4.
  replace (2 * n / 2) with n by (rewrite Z.mul_comm, Z.div_mul; lia).
  apply mip_rows_column; [lia | | lia].
  rewrite Z2Nat.id by lia. lia.
Qed.

Lemma GL_MipMap_column_reads_past_end_witness :
  0 < 1 /\ Z.of_nat (length [1; 2; 3; 255; 5; 6; 7; 255]) = 4 * (1 * (2 * 1)) /\
  GL_MipMap [1; 2; 3; 255; 5; 6; 7; 255] 1 (2 * 1) = Undef.
Proof.
  assert (Z.of_nat (length [1; 2; 3; 255; 5; 6; 7; 255]) = 4 * (1 * (2 * 1)))
    as Hlen by reflexivity.
  split; [lia|]. split; [exact Hlen|].
  exact (GL_MipMap_column_reads_past_end [1; 2; 3; 255; 5; 6; 7; 255] 1
           ltac:(lia) Hlen).
Defined.

End MipMap.

(** * [LoadTGA], and reading back a screenshot *)

Module Targa.
Import Image.

(** The [ERR_DROP] messages of [LoadTGA]. *)
Inductive tga_error : Type :=
| unsupported_image_type
| unsupported_pixel_size
| unsupported_colormap_size
| illegal_pixel_size.

(** [Loaded]: normal return.  [Failed]: an [ERR_DROP].  [Undefined]: a read
    outside the file, a read of a colour map entry that was never written,
    a write outside [*pic], or the overflow of [w * h * 4]. *)
Inductive loading (A : Type) : Type :=
| Loaded (a : A)
| Failed (e : tga_error)
| Undefined.
Arguments Loaded {A} a.
Arguments Failed {A} e.
Arguments Undefined {A}.

#[global] Instance loading_ret : MRet loading := fun A a => Loaded a.
#[global] Instance loading_bind : MBind loading := fun A B f m =>
  match m with
  | Loaded a => f a
  | Failed e => Failed e
  | Undefined => Undefined
  end.

(** [*pdata] at offset [pos] of the file. *)
Definition byte_at (data : list Z) (pos : nat) : loading Z :=
  match data !! pos with Some v => Loaded v | None => Undefined end.

(** [LittleShort( *((short * )pdata) )] stored in an [unsigned short]. *)
Definition short_at (data : list Z) (pos : nat) : loading Z :=
  lo ← byte_at data pos;
  hi ← byte_at data (S pos);
  Loaded (lo + 256 * hi).

Record TargaHeader : Type := mk_header {
  id_length : Z; colormap_type : Z; image_type : Z;
  colormap_index : Z; colormap_length : Z;
  colormap_size : Z;
  x_origin : Z; y_origin : Z; width : Z; height : Z;
  pixel_size : Z; attributes : Z
}.

Definition TGA_Map : Z := 1.
Definition TGA_RGB : Z := 2.
Definition TGA_Mono : Z := 3.
Definition TGA_RLEMap : Z := 9.
Definition TGA_RLERGB : Z := 10.
Definition TGA_RLEMono : Z := 11.
Definition TGA_CompMap : Z := 32.
Definition TGA_CompMap4 : Z := 33.
Definition TGA_IL_Two : Z := 1.
Definition TGA_IL_Four : Z := 2.
Definition TGA_O_UPPER : Z := 0.
Definition MAXCOLORS : Z := 16384.

(** The eighteen bytes of the header, field by field. *)
Definition read_header (data : list Z) : loading TargaHeader :=
  id_length ← byte_at data 0;
  colormap_type ← byte_at data 1;
  image_type ← byte_at data 2;
  colormap_index ← short_at data 3;
  colormap_length ← short_at data 5;
  colormap_size ← byte_at data 7;
  x_origin ← short_at data 8;
  y_origin ← short_at data 10;
  width ← short_at data 12;
  height ← short_at data 14;
  pixel_size ← byte_at data 16;
  attributes ← byte_at data 17;
  Loaded (mk_header id_length colormap_type image_type colormap_index
            colormap_length colormap_size x_origin y_origin width height
            pixel_size attributes).

(** The [byte] variables [r, g, b, a, l]. *)
Record pixel : Type := mk_pixel { p_r : Z; p_g : Z; p_b : Z; p_a : Z; p_l : Z }.

Definition as_byte (v : Z) : Z := v mod 256.

(** The three guns of a 15 or 16 bit pixel [k:j]. *)
Definition red5 (k : Z) : Z :=
  as_byte (Z.shiftl (Z.shiftr (Z.land k 124) 2) 3).
Definition green5 (j k : Z) : Z :=
  as_byte (Z.shiftl (Z.shiftl (Z.land k 3) 3 + Z.shiftr (Z.land j 224) 5) 3).
Definition blue5 (j : Z) : Z :=
  as_byte (Z.shiftl (Z.land j 31) 3).

(** The [switch( header.colormap_size )] of the colour map loop, which has
    no [default]. *)
Definition read_map_entry (data : list Z) (size : Z) (pos : nat) (p : pixel)
    : loading (pixel * nat) :=
  if size =? 8 then
    v ← byte_at data pos;
    Loaded (mk_pixel v v v 255 (p_l p), S pos)
  else if size =? 15 then
    j ← byte_at data pos;
    k ← byte_at data (S pos);
    Loaded (mk_pixel (red5 k) (green5 j k) (blue5 j) 255
              (as_byte (Z.shiftl k 8 + j)), S (S pos))
  else if size =? 16 then
    j ← byte_at data pos;
    k ← byte_at data (S pos);
    Loaded (mk_pixel (red5 k) (green5 j k) (blue5 j)
              (if Z.land k 128 =? 0 then 0 else 255)
              (as_byte (Z.shiftl k 8 + j)), S (S pos))
  else if size =? 24 then
    b ← byte_at data pos;
    g ← byte_at data (S pos);
    r ← byte_at data (S (S pos));
    Loaded (mk_pixel r g b 255 0, S (S (S pos)))
  else if size =? 32 then
    b ← byte_at data pos;
    g ← byte_at data (S pos);
    r ← byte_at data (S (S pos));
    a ← byte_at data (S (S (S pos)));
    Loaded (mk_pixel r g b a 0, S (S (S (S pos))))
  else Loaded (p, pos).

(** The colour map loop: the entries written to [ColorMap], in order. *)
Fixpoint read_colormap (data : list Z) (size : Z) (pos : nat) (p : pixel)
    (todo : nat) : loading (list Z * pixel * nat) :=
  match todo with
  | O => Loaded ([], p, pos)
  | S todo' =>
      '(p, pos) ← read_map_entry data size pos p;
      '(rest, p', pos') ← read_colormap data size pos p todo';
      Loaded (p_r p :: p_g p :: p_b p :: p_a p :: rest, p', pos')
  end.

(** The [switch( pixel_size )] of the pixel loop. *)
Definition read_pixel (data : list Z) (size : Z) (pos : nat)
    : loading (pixel * nat) :=
  if size =? 8 then
    v ← byte_at data pos;
    Loaded (mk_pixel v v v 255 v, S pos)
  else if (size =? 15) || (size =? 16) then
    j ← byte_at data pos;
    k ← byte_at data (S pos);
    Loaded (mk_pixel (red5 k) (green5 j k) (blue5 j) 255
              (as_byte (Z.shiftl k 8 + j)), S (S pos))
  else if size =? 24 then
    b ← byte_at data pos;
    g ← byte_at data (S pos);
    r ← byte_at data (S (S pos));
    Loaded (mk_pixel r g b 255 0, S (S (S pos)))
  else if size =? 32 then
    b ← byte_at data pos;
    g ← byte_at data (S pos);
    r ← byte_at data (S (S pos));
    a ← byte_at data (S (S (S pos)));
    Loaded (mk_pixel r g b a 0, S (S (S (S pos))))
  else Failed illegal_pixel_size.

(** What the pixel loop carries along: [pdata], [RLE_count], [RLE_flag],
    the pixel variables and the memory of [*pic]. *)
Record decoder : Type := mk_decoder {
  d_pos : nat;
  RLE_count : Z;
  RLE_flag : Z;
  d_pixel : pixel;
  d_pic : list Z
}.

(** [*dst++ = v] at offset [dst] of [*pic]. *)
Definition store (pic : list Z) (dst v : Z) : loading (list Z) :=
  if (0 <=? dst) && (dst <? Z.of_nat (length pic))
  then Loaded (<[Z.to_nat dst := v]> pic) else Undefined.

(** [ColorMap[i]], written or not. *)
Definition map_at (ColorMap : list Z) (i : Z) : loading Z :=
  match ColorMap !! Z.to_nat i with Some v => Loaded v | None => Undefined end.

(** The body of the loop over [x], writing at [dst]. *)
Definition decode_pixel (data : list Z) (rlencoded mapped : bool)
    (size : Z) (ColorMap : list Z) (dst : Z) (d : decoder) : loading decoder :=
  '(pos, count, flag, replicated) ←
    (if rlencoded then
       if RLE_count d =? 0 then
         i ← byte_at data (d_pos d);
         let flag := Z.land i 128 in
         let count := if flag =? 0 then i + 1 else i - 127 in
         Loaded (S (d_pos d), count - 1, flag, false)
       else
         Loaded (d_pos d, RLE_count d - 1, RLE_flag d,
                 negb (RLE_flag d =? 0))
     else Loaded (d_pos d, RLE_count d, RLE_flag d, false));
  '(p, pos) ← (if replicated : bool then Loaded (d_pixel d, pos)
               else read_pixel data size pos);
  '(v0, v1, v2, v3) ←
    (if mapped then
       let map_idx := p_l p * 4 in
       v0 ← map_at ColorMap (map_idx + 0);
       v1 ← map_at ColorMap (map_idx + 1);
       v2 ← map_at ColorMap (map_idx + 2);
       v3 ← map_at ColorMap (map_idx + 3);
       Loaded (v0, v1, v2, v3)
     else Loaded (p_r p, p_g p, p_b p, p_a p));
  pic ← store (d_pic d) dst v0;
  pic ← store pic (dst + 1) v1;
  pic ← store pic (dst + 2) v2;
  pic ← store pic (dst + 3) v3;
  Loaded (mk_decoder pos count flag p pic).

(** [for( x = 0; x < w; x++ )], with [todo = w - x] pixels left. *)
Fixpoint decode_row (data : list Z) (rlencoded mapped : bool) (size : Z)
    (ColorMap : list Z) (dst : Z) (d : decoder) (todo : nat)
    : loading decoder :=
  match todo with
  | O => Loaded d
  | S todo' =>
      d ← decode_pixel data rlencoded mapped size ColorMap dst d;
      decode_row data rlencoded mapped size ColorMap (dst + 4) d todo'
  end.

(** [for( y = 0; y < h; y++ )], with [todo = h - y] rows left. *)
Fixpoint decode_rows (data : list Z) (rlencoded mapped : bool) (size : Z)
    (ColorMap : list Z) (w h origin interleave truerow baserow : Z)
    (d : decoder) (todo : nat) : loading decoder :=
  match todo with
  | O => Loaded d
  | S todo' =>
      let realrow :=
        if origin =? TGA_O_UPPER then h - truerow - 1 else truerow in
      d ← decode_row data rlencoded mapped size ColorMap (realrow * w * 4)
            d (Z.to_nat w);
      let truerow :=
        if interleave =? TGA_IL_Four then truerow + 4
        else if interleave =? TGA_IL_Two then truerow + 2
        else truerow + 1 in
      let '(truerow, baserow) :=
        if truerow >=? h then (baserow + 1, baserow + 1)
        else (truerow, baserow) in
      decode_rows data rlencoded mapped size ColorMap w h origin interleave
        truerow baserow d todo'
  end.

Definition is_one_of (v : Z) (l : list Z) : bool :=
  existsb (Z.eqb v) l.

(** [void LoadTGA( char *filename, byte **pic, int *width, int *height )]
    on the contents [FS_LoadFile] yields: [None] is [*pic] left as it was,
    [NULL] where [GL_FindImage] calls it. *)
Definition LoadTGA (file : option (list Z)) : loading (option picture) :=
  match file with
  | None => Loaded None
  | Some data =>
      header ← read_header data;
      let pos := (18 + Z.to_nat (id_length header))%nat in
      _ ← (if is_one_of (image_type header)
                [TGA_Map; TGA_RGB; TGA_Mono; TGA_RLEMap; TGA_RLERGB; TGA_RLEMono]
           then Loaded tt else Failed unsupported_image_type);
      _ ← (if is_one_of (pixel_size header) [8; 15; 16; 24; 32]
           then Loaded tt else Failed unsupported_pixel_size);
      let p := mk_pixel 0 0 0 0 0 in
      let mapped :=
        is_one_of (image_type header)
          [TGA_Map; TGA_RLEMap; TGA_CompMap; TGA_CompMap4]
        && (colormap_type header =? 1) in
      map ← (if mapped then
               _ ← (if is_one_of (colormap_size header) [8; 16; 32; 24]
                    then Loaded tt else Failed unsupported_colormap_size);
               if colormap_index header + colormap_length header + 1
                    >=? MAXCOLORS
               then Loaded None
               else
                 m ← read_colormap data (colormap_size header) pos p
                       (Z.to_nat (colormap_length header));
                 Loaded (Some m)
             else Loaded (Some ([], p, pos)));
      match map with
      | None => Loaded None
      | Some (ColorMap, p, pos) =>
          let rlencoded :=
            is_one_of (image_type header)
              [TGA_RLEMap; TGA_RLERGB; TGA_RLEMono] in
          let w := width header in
          let h := height header in
          let size := w * h * 4 in
          if 2 ^ 31 <=? size then Undefined
          else
            let pic := replicate (Z.to_nat size) 0 in
            let origin := Z.shiftr (Z.land (attributes header) 32) 5 in
            let interleave := Z.shiftr (Z.land (attributes header) 192) 6 in
            d ← decode_rows data rlencoded mapped (pixel_size header)
                  ColorMap w h origin interleave 0 0
                  (mk_decoder pos 0 0 p pic) (Z.to_nat h);
            Loaded (Some (d_pic d, (w, h)))
      end
  end.

(** ** A true-colour file without run lengths *)




(** *** Where the pixels go *)

Section Canvas.
Variables w h : Z.
Hypothesis Hw : 0 <= w.

(** The byte of channel [c] of the [t]-th pixel of the file. *)
Variable src : Z -> Z -> Z.




(** *** The two loops, for a file that is not mapped, not interleaved and
    has its origin at the bottom *)

Variable data : list Z.
Variable rlencoded : bool.
Variable size : Z.

(** What the decoder must hold before pixel [t]: [pdata], [RLE_count],
    [RLE_flag] and the pixel variables. *)
Variable ready : Z -> nat -> Z -> Z -> pixel -> Prop.

Hypothesis decode_one : forall t pos count flag p pic dst,
  0 <= t < h * w -> ready t pos count flag p ->
  0 <= dst -> dst + 3 < Z.of_nat (length pic) ->
  exists pos' count' flag' p',
    decode_pixel data rlencoded false size [] dst
      (mk_decoder pos count flag p pic)
    = Loaded (mk_decoder pos' count' flag' p'
                (<[Z.to_nat (dst + 3) := src t 3]>
                   (<[Z.to_nat (dst + 2) := src t 2]>
                      (<[Z.to_nat (dst + 1) := src t 1]>
                         (<[Z.to_nat dst := src t 0]> pic))))) /\
    ready (t + 1) pos' count' flag' p'.



End Canvas.

(** *** Pixels of three bytes, one after the other *)



(** ** The file [GL_ScreenShot_f] writes *)










Example screenshot_2x1_reads_back :
  LoadTGA (Some (ScreenShot.tga_bytes ScreenShot.black_2x1))
  = Loaded (Some ([1; 2; 3; 255; 4; 5; 6; 255], (2, 1))).
Proof. vm_compute. reflexivity. Qed.

(** ** Files [LoadTGA] does not load *)

Definition supported_type (t : Z) : Prop :=
  t = 1 \/ t = 2 \/ t = 3 \/ t = 9 \/ t = 10 \/ t = 11.

Definition supported_depth (s : Z) : Prop :=
  s = 8 \/ s = 15 \/ s = 16 \/ s = 24 \/ s = 32.

Lemma read_header_short data :
  (length data < 18)%nat -> read_header data = Undefined.
Proof.
  intros Hlen.
  assert (data !! 17%nat = None) as H17 by (apply lookup_ge_None; lia).
  unfold read_header, short_at, byte_at.
  do 17 (match goal with
         | |- context [mbind _ (match data !! ?k with _ => _ end)] =>
             destruct (data !! k); cbn [mbind loading_bind]; [|reflexivity]
         end).
  rewrite H17. reflexivity.
Qed.

Lemma is_one_of_spec v l : is_one_of v l = true <-> In v l.
Proof.
  unfold is_one_of. rewrite existsb_exists. split.
  - intros (x & Hx & Heq). apply Z.eqb_eq in Heq. subst. exact Hx.
  - intros Hin. exists v. split; [exact Hin | apply Z.eqb_refl].
Qed.

(** X19. [LoadTGA] leaves [*pic] alone when there is no file.  It does not
    check the length of the file: one shorter than the 18 bytes of the
    header is read past its end.  A file of another image type than 1, 2,
    3, 9, 10 or 11 is refused with an error, and so is, after that, one of
    another pixel size than 8, 15, 16, 24 or 32. *)
Theorem LoadTGA_refuses (data : list Z) :
  LoadTGA None = Loaded None /\
  ((length data < 18)%nat -> LoadTGA (Some data) = Undefined) /\
  (forall header, read_header data = Loaded header ->
     (~ supported_type (image_type header) ->
        LoadTGA (Some data) = Failed unsupported_image_type) /\
     (supported_type (image_type header) ->
      ~ supported_depth (pixel_size header) ->
        LoadTGA (Some data) = Failed unsupported_pixel_size)).
Proof.
  split; [reflexivity|]. split.
  - intros Hlen. unfold LoadTGA. rewrite (read_header_short data Hlen).
    reflexivity.
  - intros header Hheader.
    assert (is_one_of (image_type header)
              [TGA_Map; TGA_RGB; TGA_Mono; TGA_RLEMap; TGA_RLERGB; TGA_RLEMono]
            = true <-> supported_type (image_type header)) as Htype.
    { rewrite is_one_of_spec. unfold supported_type. cbn [In].
      unfold TGA_Map, TGA_RGB, TGA_Mono, TGA_RLEMap, TGA_RLERGB, TGA_RLEMono.
      intuition lia. }
    assert (is_one_of (pixel_size header) [8; 15; 16; 24; 32] = true
            <-> supported_depth (pixel_size header)) as Hdepth.
    { rewrite is_one_of_spec. unfold supported_depth. cbn [In].
      intuition lia. }
    unfold LoadTGA. rewrite Hheader. cbn [mbind loading_bind].
    split.
    + intros Hbad. destruct (is_one_of (image_type header) _) eqn:E.
      * exfalso. apply Hbad, Htype. reflexivity.
      * reflexivity.
    + intros Hgood Hbad.
      rewrite (proj2 Htype Hgood). cbn [mbind loading_bind].
      destruct (is_one_of (pixel_size header) _) eqn:E.
      * exfalso. apply Hbad, Hdepth. reflexivity.
      * reflexivity.
Qed.

Lemma LoadTGA_refuses_witness :
  let data := [0; 0; 4; 0; 0; 0; 0; 0; 0; 0; 0; 0; 1; 0; 1; 0; 24; 0; 7; 7; 7] in
  read_header data = Loaded (mk_header 0 0 4 0 0 0 0 0 1 1 24 0) /\
  ~ supported_type 4 /\
  LoadTGA (Some data) = Failed unsupported_image_type.
Proof.
  intros data.
  assert (read_header data = Loaded (mk_header 0 0 4 0 0 0 0 0 1 1 24 0))
    as Hheader by reflexivity.
  assert (~ supported_type 4) as Hbad by (unfold supported_type; lia).
  split; [exact Hheader|]. split; [exact Hbad|].
  exact (proj1 (proj2 (proj2 (LoadTGA_refuses data)) _ Hheader) Hbad).
Defined.

(** ** Run lengths *)

(** A pixel as a 24-bit file has it: blue, green, red. *)
Definition bgr : Type := (Z * Z * Z)%type.

Definition bgr_bytes (q : bgr) : list Z :=
  let '(b, g, r) := q in [b; g; r].

(** A packet of a run-length encoded body: one pixel and how many times it
    stands for, or a number of pixels one by one. *)
Inductive packet : Type :=
| Run (n : nat) (q : bgr)
| Raw (qs : list bgr).


Definition encode (k : packet) : list Z :=
  match k with
  | Run n q => Z.of_nat (127 + n) :: bgr_bytes q
  | Raw qs => Z.of_nat (length qs - 1) :: concat (map bgr_bytes qs)
  end.


Definition rle_body (ps : list packet) : list Z := concat (map encode ps).

(** The header of a run-length encoded true-colour file of 24 bits. *)
Definition rle_header (w h : Z) : list Z :=
  [0; 0; 10; 0; 0; 0; 0; 0; 0; 0; 0; 0;
   w mod 256; w / 256; h mod 256; h / 256; 24; 0].



(** The file holds [l] from offset [pos]. *)
Definition prefix_at (data : list Z) (pos : nat) (l : list Z) : Prop :=
  forall i v, l !! i = Some v -> data !! (pos + i)%nat = Some v.


Lemma prefix_at_app data pos l1 l2 :
  prefix_at data pos (l1 ++ l2) -> prefix_at data (pos + length l1) l2.
Proof.
  intros Hp i v Hi. rewrite <- Nat.add_assoc. apply Hp.
  rewrite lookup_app_r by lia.
  replace (length l1 + i - length l1)%nat with i by lia. exact Hi.
Qed.







Section Packets.
Variable data : list Z.





End Packets.





(** A run of three pixels that crosses the end of the first row of the
    file, which is the bottom row of the picture. *)
Example run_across_rows :
  LoadTGA (Some (rle_header 2 2 ++ rle_body [Run 3 (10, 20, 30); Raw [(1, 2, 3)]]))
  = Loaded (Some ([30; 20; 10; 255; 3; 2; 1; 255;
                   30; 20; 10; 255; 30; 20; 10; 255], (2, 2))).
Proof. vm_compute. reflexivity. Qed.

End Targa.

(** * [PowerofTwo]: the texture size limit *)

Module RMain.

(** [powersoftwo[]], thirteen entries. *)
Definition powersoftwo : list Z :=
  [2; 4; 8; 16; 32; 64; 128; 256; 512; 1024; 2048; 4096; 8192].

(** [for (i=0 ; i<14 ; i++)] from [i], with [todo = 14 - i] rounds left:
    the value left in [*var], [None] when the table is read past its
    end. *)
Fixpoint PowerofTwo_from (var : Z) (i todo : nat) : option Z :=
  match todo with
  | O => Some var
  | S todo' =>
      p ← powersoftwo !! i;
      if p =? var then Some var
      else
        q ← powersoftwo !! S i;
        if q >? var then Some p
        else PowerofTwo_from var (S i) todo'
  end.

(** [void PowerofTwo (unsigned int *var)] *)
Definition PowerofTwo (var : Z) : option Z := PowerofTwo_from var 0 14.

Lemma powersoftwo_lookup i : (i < 13)%nat ->
  powersoftwo !! i = Some (2 ^ (Z.of_nat i + 1)).
Proof.
  intros Hi. do 13 (destruct i as [|i]; [reflexivity|]). lia.
Qed.

(** From round [i] on, for a value of at least [powersoftwo[i]]. *)
Lemma PowerofTwo_from_floor todo : forall i var,
  (i + todo = 14)%nat -> (i < 13)%nat ->
  2 ^ (Z.of_nat i + 1) <= var <= 8192 ->
  PowerofTwo_from var i todo = Some (2 ^ Z.log2 var).
Proof.
  induction todo as [|todo IH]; intros i var Hi Hlt Hvar; [lia|].
  cbn [PowerofTwo_from]. rewrite (powersoftwo_lookup i Hlt).
  cbn [mbind option_bind].
  assert (0 < 2 ^ (Z.of_nat i + 1)) as Hpos by (apply Z.pow_pos_nonneg; lia).
  destruct (Z.eqb_spec (2 ^ (Z.of_nat i + 1)) var) as [<-|Hne].
  - rewrite Z.log2_pow2 by lia. reflexivity.
  - destruct (decide (i = 12%nat)) as [->|H12].
    + change (2 ^ (Z.of_nat 12 + 1)) with 8192 in *. lia.
    + rewrite (powersoftwo_lookup (S i)) by lia. cbn [mbind option_bind].
      replace (Z.of_nat (S i) + 1) with (Z.of_nat i + 1 + 1) by lia.
      destruct (Z.gtb_spec (2 ^ (Z.of_nat i + 1 + 1)) var) as [Hgt|Hle].
      * f_equal. f_equal. symmetry. apply Z.log2_unique; [lia|].
        replace (Z.succ (Z.of_nat i + 1)) with (Z.of_nat i + 1 + 1) by lia.
        lia.
      * apply IH; [lia | lia|].
        replace (Z.of_nat (S i) + 1) with (Z.of_nat i + 1 + 1) by lia. lia.
Qed.

(** Past the last entry the loop goes on to read [powersoftwo[13]]. *)
Lemma PowerofTwo_from_overrun todo : forall i var,
  (i + todo = 14)%nat -> (i < 13)%nat -> 8192 < var ->
  PowerofTwo_from var i todo = None.
Proof.
  induction todo as [|todo IH]; intros i var Hi Hlt Hvar; [lia|].
  cbn [PowerofTwo_from]. rewrite (powersoftwo_lookup i Hlt).
  cbn [mbind option_bind].
  assert (2 ^ (Z.of_nat i + 1) <= 2 ^ 13) as Hle
    by (apply Z.pow_le_mono_r; lia).
  change (2 ^ 13) with 8192 in Hle.
  destruct (Z.eqb_spec (2 ^ (Z.of_nat i + 1)) var) as [|_]; [lia|].
  destruct (decide (i = 12%nat)) as [->|H12]; [reflexivity|].
  rewrite (powersoftwo_lookup (S i)) by lia. cbn [mbind option_bind].
  assert (2 ^ (Z.of_nat (S i) + 1) <= 2 ^ 13) as Hle'
    by (apply Z.pow_le_mono_r; lia).
  change (2 ^ 13) with 8192 in Hle'.
  destruct (Z.gtb_spec (2 ^ (Z.of_nat (S i) + 1)) var); [lia|].
  apply IH; [lia | lia | exact Hvar].
Qed.

(** X21. [PowerofTwo] rounds a size from 2 to 8192 down to a power of two,
    and a size of 0 or 1 up to 2.  For a size above 8192, such as a
    [GL_MAX_TEXTURE_SIZE] of 16384, it reads its table of thirteen powers
    past the end. *)
Theorem PowerofTwo_rounds_down (var : Z) :
  (0 <= var < 2 -> PowerofTwo var = Some 2) /\
  (2 <= var <= 8192 -> PowerofTwo var = Some (2 ^ Z.log2 var)) /\
  (8192 < var -> PowerofTwo var = None).
Proof.
  unfold PowerofTwo. split; [|split].
  - intros Hvar. cbn [PowerofTwo_from powersoftwo lookup list_lookup
                      mbind option_bind].
    destruct (Z.eqb_spec 2 var); [lia|].
    destruct (Z.gtb_spec 4 var); [reflexivity | lia].
  - intros Hvar. apply PowerofTwo_from_floor; [lia | lia|].
    change (2 ^ (Z.of_nat 0 + 1)) with 2. lia.
  - intros Hvar. apply PowerofTwo_from_overrun; [lia | lia | exact Hvar].
Qed.

Lemma PowerofTwo_rounds_down_witness :
  (0 <= 1 < 2 /\ PowerofTwo 1 = Some 2) /\
  (2 <= 4095 <= 8192 /\ PowerofTwo 4095 = Some (2 ^ Z.log2 4095)) /\
  (8192 < 16384 /\ PowerofTwo 16384 = None).
Proof.
  split; [|split].
  - split; [lia|]. apply (proj1 (PowerofTwo_rounds_down 1)). lia.
  - split; [lia|]. apply (proj1 (proj2 (PowerofTwo_rounds_down 4095))). lia.
  - split; [lia|]. apply (proj2 (proj2 (PowerofTwo_rounds_down 16384))). lia.
Defined.

Example PowerofTwo_4095 : PowerofTwo 4095 = Some 2048.
Proof. reflexivity. Qed.

End RMain.

(** * Reflectors: adding a height twice *)

Module ReflTwice.
Import Refl.

(** Only a NaN differs from itself. *)
Lemma float_eq_irrefl z : float_eq z z = false -> z = S754_nan.
Proof.
  unfold float_eq, SFeqb, SFcompare.
  destruct z as [s|s| |s m e]; try reflexivity.
  - destruct s; discriminate.
  - destruct s; discriminate.
  - rewrite Z.compare_refl.
    change (PosDef.Pos.compare_cont Eq m m) with (Pos.compare m m).
    rewrite Pos.compare_refl. destruct s; discriminate.
Qed.

Lemma float_eq_nan e : float_eq e S754_nan = false.
Proof. destruct e as [s|s| |s m x]; reflexivity. Qed.

Lemma is_duplicate_hit arr Zv todo : forall i k e,
  arr !! k = Some e -> float_eq e Zv = true -> (i <= k < i + todo)%nat ->
  is_duplicate arr Zv i todo = true.
Proof.
  induction todo as [|todo IH]; intros i k e Hk He Hrange; [lia|].
  cbn [is_duplicate].
  destruct (decide (k = i)) as [->|Hne].
  - rewrite Hk, He. reflexivity.
  - destruct (arr !! i) as [z|].
    + destruct (float_eq z Zv); [reflexivity|].
      apply (IH (S i) k e); [assumption | assumption | lia].
    + apply (IH (S i) k e); [assumption | assumption | lia].
Qed.

Lemma is_duplicate_nan arr todo : forall i,
  is_duplicate arr S754_nan i todo = false.
Proof.
  induction todo as [|todo IH]; intros i; [reflexivity|].
  cbn [is_duplicate]. destruct (arr !! i) as [z|]; [|apply IH].
  rewrite float_eq_nan. apply IH.
Qed.

(** X22. Adding a height a second time changes nothing, unless the height
    is a NaN: a NaN equals no entry, itself included, and is stored every
    time there is room. *)
Theorem R_add_refl_twice (Zv : spec_float) (g : refl_globals) :
  length (g_refl_Z g) = MAX_REFL ->
  (float_eq Zv Zv = true ->
     R_add_refl Zv (R_add_refl Zv g) = R_add_refl Zv g) /\
  (float_eq Zv Zv = false -> (g_num_refl g + 2 <= MAX_REFL)%nat ->
     reflectors (R_add_refl Zv (R_add_refl Zv g)) = reflectors g ++ [Zv; Zv]).
Proof.
  intros Hlen. split.
  - intros Hrefl.
    destruct (is_duplicate (g_refl_Z g) Zv 0 (g_num_refl g)) eqn:Hdup.
    + assert (R_add_refl Zv g = g) as Hsame
        by (unfold R_add_refl; rewrite Hdup; reflexivity).
      rewrite !Hsame. reflexivity.
    + destruct (Nat.ltb_spec (g_num_refl g) MAX_REFL) as [Hroom|Hfull].
      * assert (R_add_refl Zv g
                = mk_refl (S (g_num_refl g))
                    (<[g_num_refl g := Zv]> (g_refl_Z g))) as ->.
        { unfold R_add_refl. rewrite Hdup.
          destruct (Nat.ltb_spec (g_num_refl g) MAX_REFL); [reflexivity | lia]. }
        unfold R_add_refl. cbn [g_refl_Z g_num_refl].
        rewrite (is_duplicate_hit _ Zv _ 0 (g_num_refl g) Zv);
          [reflexivity | | exact Hrefl | lia].
        apply list_lookup_insert_eq. lia.
      * assert (R_add_refl Zv g = g) as Hsame.
        { unfold R_add_refl. rewrite Hdup.
          destruct (Nat.ltb_spec (g_num_refl g) MAX_REFL); [lia | reflexivity]. }
        rewrite !Hsame. reflexivity.
  - intros Hnan Hroom. apply float_eq_irrefl in Hnan. subst Zv.
    unfold R_add_refl. rewrite is_duplicate_nan.
    destruct (Nat.ltb_spec (g_num_refl g) MAX_REFL) as [_|]; [|lia].
    cbn [g_refl_Z g_num_refl]. rewrite is_duplicate_nan.
    destruct (Nat.ltb_spec (S (g_num_refl g)) MAX_REFL) as [_|]; [|lia].
    unfold reflectors. cbn [g_refl_Z g_num_refl].
    set (n := g_num_refl g) in *. set (arr := g_refl_Z g) in *.
    destruct (Nat.ltb_spec (S n) MAX_REFL) as [_|]; [|lia].
    cbn [g_refl_Z g_num_refl].
    rewrite (take_S_r _ (S n) S754_nan)
      by (apply list_lookup_insert_eq; rewrite length_insert; lia).
    rewrite take_insert_ge by lia.
    rewrite (take_S_r _ n S754_nan) by (apply list_lookup_insert_eq; lia).
    rewrite take_insert_ge by lia.
    rewrite <- app_assoc. reflexivity.
Qed.

Lemma R_add_refl_twice_witness :
  let g := mk_refl 0 [S754_zero false; S754_zero false] in
  length (g_refl_Z g) = MAX_REFL /\
  float_eq S754_nan S754_nan = false /\ (g_num_refl g + 2 <= MAX_REFL)%nat /\
  reflectors (R_add_refl S754_nan (R_add_refl S754_nan g))
    = reflectors g ++ [S754_nan; S754_nan].
Proof.
  intros g.
  assert (length (g_refl_Z g) = MAX_REFL) as Hlen by reflexivity.
  assert (g_num_refl g + 2 <= MAX_REFL)%nat as Hroom
    by (unfold MAX_REFL; cbn; lia).
  split; [exact Hlen|]. split; [reflexivity|]. split; [exact Hroom|].
  exact (proj2 (R_add_refl_twice S754_nan g Hlen) eq_refl Hroom).
Defined.

End ReflTwice.

(** * [GL_LightScaleTexture] and the tables of [GL_InitImages] *)

Module LightScale.
Import Image.

(** What [GL_InitImages] computes its tables from: whether [g == 1] holds
    for the gamma in force, the value of
    [255 * pow ((i+0.5)/255.5, g) + 0.5], and [intensity->value] as
    [Cvar_Get] returns it. *)
Record tables_input : Type := mk_tables_input {
  gamma_is_one : bool;
  gamma_curve : Z -> Q;
  intensity_value : Q
}.

(** [gammatable[i]] *)
Definition gamma_entry (inp : tables_input) (i : Z) : Z :=
  if gamma_is_one inp then i
  else
    let inf := gamma_curve inp i in
    let inf := if Palette.Qgt_bool 0 inf then 0%Q
               else if Palette.Qgt_bool inf 255 then 255%Q else inf in
    Palette.float_to_int inf.

(** [intensity->value] once [if ( intensity->value < 1 ) Cvar_Set(
    "intensity", "1" )] is through. *)
Definition intensity_in_force (inp : tables_input) : Q :=
  if Palette.Qgt_bool 1 (intensity_value inp) then 1%Q
  else intensity_value inp.

(** [intensitytable[i]] *)
Definition intensity_entry (inp : tables_input) (i : Z) : Z :=
  let j := i * Palette.float_to_int (intensity_in_force inp) in
  if j >? 255 then 255 else j.

(** The two tables [GL_InitImages] fills: [gammatable], [intensitytable]. *)
Definition GL_InitImages_tables (inp : tables_input) : list Z * list Z :=
  (map (fun i => gamma_entry inp (Z.of_nat i)) (seq 0 256),
   map (fun i => intensity_entry inp (Z.of_nat i)) (seq 0 256)).

(** [p[k] = gammatable[p[k]]] or [p[k] = gammatable[intensitytable[p[k]]]] *)
Definition scale_at (gammatable intensitytable : list Z) (only_gamma : bool)
    (buf : list Z) (k : nat) : outcome (list Z) :=
  v ← of_read (buf !! k);
  v ← (if only_gamma then Done v
       else of_read (intensitytable !! Z.to_nat v));
  v ← of_read (gammatable !! Z.to_nat v);
  Done (<[k := v]> buf).

(** [for (i=0 ; i<c ; i++, p+=inc)], with [p] at offset [p] and [todo]
    texels left. *)
Fixpoint scale_loop (gammatable intensitytable : list Z) (only_gamma : bool)
    (buf : list Z) (p inc todo : nat) : outcome (list Z) :=
  match todo with
  | O => Done buf
  | S todo' =>
      buf ← scale_at gammatable intensitytable only_gamma buf p;
      buf ← scale_at gammatable intensitytable only_gamma buf (p + 1);
      buf ← scale_at gammatable intensitytable only_gamma buf (p + 2);
      scale_loop gammatable intensitytable only_gamma buf (p + inc) inc todo'
  end.

(** [void GL_LightScaleTexture (unsigned *in, int inwidth, int inheight,
    qboolean only_gamma, int bpp)]: the buffer it leaves. *)
Definition GL_LightScaleTexture (gammatable intensitytable : list Z)
    (buf : list Z) (inwidth inheight : Z) (only_gamma : bool) (bpp : Z)
    : outcome (list Z) :=
  let inc := if bpp =? 24 then 3%nat else 4%nat in
  scale_loop gammatable intensitytable only_gamma buf 0 inc
    (Z.to_nat (inwidth * inheight)).

Definition byte_table (table : list Z) : Prop :=
  length table = 256%nat /\ Forall (fun v => 0 <= v <= 255) table.

(** What a colour byte becomes. *)
Definition scaled (gammatable intensitytable : list Z) (only_gamma : bool)
    (v : Z) : Z :=
  let v := if only_gamma then v
           else default 0 (intensitytable !! Z.to_nat v) in
  default 0 (gammatable !! Z.to_nat v).

Section Scaling.
Variables gammatable intensitytable : list Z.
Variable only_gamma : bool.
Variable orig : list Z.
Hypothesis Hgamma : byte_table gammatable.
Hypothesis Hintensity : byte_table intensitytable.
Hypothesis Horig : Forall (fun v => 0 <= v <= 255) orig.

Lemma table_lookup table v :
  byte_table table -> 0 <= v <= 255 ->
  exists u, table !! Z.to_nat v = Some u /\ 0 <= u <= 255.
Proof.
  intros (Hlen & Hbytes) Hv.
  destruct (table !! Z.to_nat v) as [u|] eqn:E.
  - exists u. split; [reflexivity|].
    exact (proj1 (Forall_lookup _ _) Hbytes _ _ E).
  - apply lookup_ge_None in E. lia.
Qed.

(** The buffer when the loop has passed the first [m] bytes: the colour
    bytes among them are scaled, all else is as it was. *)
Definition scaled_up_to (m : nat) (cur : list Z) : Prop :=
  length cur = length orig /\
  forall k,
    cur !! k =
    (fun v => if (k <? m)%nat && negb (k mod 4 =? 3)%nat
              then scaled gammatable intensitytable only_gamma v else v)
      <$> orig !! k.

Lemma scale_at_next cur m :
  scaled_up_to m cur -> (m < length orig)%nat -> (m mod 4 <> 3)%nat ->
  exists cur',
    scale_at gammatable intensitytable only_gamma cur m = Done cur' /\
    scaled_up_to (S m) cur'.
Proof.
  intros (Hlen & Hcur) Hm Hmod. unfold scale_at. rewrite Hcur.
  destruct (orig !! m) as [v|] eqn:Hv; [|apply lookup_ge_None in Hv; lia].
  rewrite Nat.ltb_irrefl.
  cbn [andb fmap option_fmap option_map of_read mbind outcome_bind].
  assert (0 <= v <= 255) as Bv
    by exact (proj1 (Forall_lookup _ _) Horig _ _ Hv).
  assert (exists u,
            (v' ← (if only_gamma then Done v
                   else of_read (intensitytable !! Z.to_nat v));
             of_read (gammatable !! Z.to_nat v')) = Done u /\
            u = scaled gammatable intensitytable only_gamma v) as (u & Hu & Hval).
  { unfold scaled. destruct only_gamma.
    - cbn [mbind outcome_bind].
      destruct (table_lookup gammatable v Hgamma Bv) as (u & Hu & _).
      exists u. rewrite Hu. split; reflexivity.
    - destruct (table_lookup intensitytable v Hintensity Bv) as (j & Hj & Bj).
      destruct (table_lookup gammatable j Hgamma Bj) as (u & Hu & _).
      exists u. rewrite Hj. cbn [of_read mbind outcome_bind].
      rewrite Hu. split; [reflexivity|]. simpl. rewrite Hu. reflexivity. }
  exists (<[m := u]> cur). split.
  - destruct (if only_gamma then Done v else _) as [v'| |];
      cbn [mbind outcome_bind] in Hu |- *; try discriminate.
    destruct (of_read (gammatable !! Z.to_nat v')) as [u'| |];
      cbn [mbind outcome_bind] in Hu |- *; try discriminate.
    injection Hu as ->. reflexivity.
  - split; [rewrite length_insert; exact Hlen|]. intros k.
    destruct (decide (k = m)) as [->|Hne].
    + rewrite list_lookup_insert_eq by lia. rewrite Hv.
      destruct (Nat.ltb_spec m (S m)); [|lia].
      destruct (Nat.eqb_spec (m mod 4) 3); [contradiction|].
      cbn. rewrite Hval. reflexivity.
    + rewrite list_lookup_insert_ne by congruence. rewrite Hcur.
      destruct (Nat.ltb_spec k m), (Nat.ltb_spec k (S m)); try lia;
        reflexivity.
Qed.

Lemma skip_alpha cur m :
  scaled_up_to m cur -> (m mod 4 = 3)%nat -> scaled_up_to (S m) cur.
Proof.
  intros (Hlen & Hcur) Hmod. split; [exact Hlen|]. intros k.
  rewrite Hcur. destruct (decide (k = m)) as [->|Hne].
  - rewrite Hmod. cbn [Nat.eqb negb]. rewrite !andb_false_r. reflexivity.
  - destruct (Nat.ltb_spec k m), (Nat.ltb_spec k (S m)); try lia; reflexivity.
Qed.

Lemma scale_loop_spec todo : forall t cur,
  scaled_up_to (4 * t) cur -> (4 * (t + todo) <= length orig)%nat ->
  exists out,
    scale_loop gammatable intensitytable only_gamma cur (4 * t) 4 todo
      = Done out /\
    scaled_up_to (4 * (t + todo)) out.
Proof.
  induction todo as [|todo IH]; intros t cur Hcur Hlen.
  - exists cur. split; [reflexivity|]. rewrite Nat.add_0_r. exact Hcur.
  - cbn [scale_loop].
    assert ((4 * t) mod 4 = 0)%nat as M0
      by (rewrite Nat.mul_comm; apply Nat.Div0.mod_mul).
    assert ((4 * t + 1) mod 4 = 1 /\ (4 * t + 2) mod 4 = 2 /\
            (4 * t + 3) mod 4 = 3)%nat as (M1 & M2 & M3).
    { rewrite !(Nat.add_comm (4 * t)), !(Nat.mul_comm 4 t).
      rewrite !Nat.Div0.mod_add. repeat split. }
    destruct (scale_at_next cur (4 * t) Hcur) as (c1 & -> & H1); [lia | lia|].
    cbn [mbind outcome_bind].
    replace (S (4 * t)) with (4 * t + 1)%nat in H1 by lia.
    destruct (scale_at_next c1 (4 * t + 1) H1) as (c2 & -> & H2); [lia | lia|].
    cbn [mbind outcome_bind].
    replace (S (4 * t + 1)) with (4 * t + 2)%nat in H2 by lia.
    destruct (scale_at_next c2 (4 * t + 2) H2) as (c3 & -> & H3); [lia | lia|].
    cbn [mbind outcome_bind].
    replace (S (4 * t + 2)) with (4 * t + 3)%nat in H3 by lia.
    apply skip_alpha in H3; [|exact M3].
    replace (S (4 * t + 3)) with (4 * S t)%nat in H3 by lia.
    replace (4 * t + 4)%nat with (4 * S t)%nat by lia.
    destruct (IH (S t) c3 H3) as (out & Hrun & Hout); [lia|].
    exists out. split; [exact Hrun|].
    replace (t + S todo)%nat with (S t + todo)%nat by lia. exact Hout.
Qed.

End Scaling.

(** X23. [GL_LightScaleTexture] on 32-bit texels (any [bpp] but 24), with
    tables of 256 bytes: the red, green and blue byte of each of the
    [inwidth * inheight] texels is replaced by its table value
    ([gammatable[intensitytable[v]]], or [gammatable[v]] when only gamma is
    asked for); every alpha byte, and every byte behind the image, is left
    as it is. *)
Theorem GL_LightScaleTexture_rgba (gammatable intensitytable buf : list Z)
    (inwidth inheight bpp : Z) (only_gamma : bool) :
  byte_table gammatable -> byte_table intensitytable ->
  Forall (fun v => 0 <= v <= 255) buf -> bpp <> 24 ->
  (4 * Z.to_nat (inwidth * inheight) <= length buf)%nat ->
  exists out,
    GL_LightScaleTexture gammatable intensitytable buf inwidth inheight
      only_gamma bpp = Done out /\
    length out = length buf /\
    forall k v, buf !! k = Some v ->
      out !! k =
      Some (if (k <? 4 * Z.to_nat (inwidth * inheight))%nat
               && negb (k mod 4 =? 3)%nat
            then scaled gammatable intensitytable only_gamma v else v).
Proof.
  intros Hgamma Hintensity Hbuf Hbpp Hlen. unfold GL_LightScaleTexture.
  destruct (Z.eqb_spec bpp 24) as [|_]; [contradiction|].
  destruct (scale_loop_spec gammatable intensitytable only_gamma buf
              Hgamma Hintensity Hbuf (Z.to_nat (inwidth * inheight)) 0 buf)
    as (out & Hrun & Hl & Hout).
  - split; [reflexivity|]. intros k. cbn [Nat.ltb Nat.leb andb].
    destruct (buf !! k); reflexivity.
  - exact Hlen.
  - change (4 * 0)%nat with 0%nat in Hrun. exists out.
    split; [exact Hrun|]. split; [exact Hl|].
    intros k v Hv. rewrite Hout, Hv. reflexivity.
Qed.



Lemma GL_LightScaleTexture_rgba_witness :
  let table := map Z.of_nat (seq 0 256) in
  let buf := [1; 2; 3; 4] in
  byte_table table /\ byte_table table /\
  Forall (fun v => 0 <= v <= 255) buf /\ 32 <> 24 /\
  (4 * Z.to_nat (1 * 1) <= length buf)%nat /\
  exists out,
    GL_LightScaleTexture table table buf 1 1 false 32 = Done out /\
    length out = length buf /\
    forall k v, buf !! k = Some v ->
      out !! k =
      Some (if (k <? 4 * Z.to_nat (1 * 1))%nat && negb (k mod 4 =? 3)%nat
            then scaled table table false v else v).
Proof.
  intros table buf.
  assert (byte_table table) as Htable.
  { split; [reflexivity|]. apply Forall_lookup. intros i v Hv.
    unfold table in Hv. rewrite list_lookup_fmap in Hv.
    destruct (decide (i < 256)%nat) as [Hlt|Hge].
    - rewrite lookup_seq_lt in Hv by lia. injection Hv as <-. lia.
    - rewrite lookup_seq_ge in Hv by lia. discriminate. }
  assert (Forall (fun v => 0 <= v <= 255) buf) as Hbuf
    by (repeat constructor; lia).
  assert (4 * Z.to_nat (1 * 1) <= length buf)%nat as Hlen by (cbn; lia).
  split; [exact Htable|]. split; [exact Htable|]. split; [exact Hbuf|].
  split; [lia|]. split; [exact Hlen|].
  exact (GL_LightScaleTexture_rgba table table buf 1 1 32 false Htable Htable
           Hbuf ltac:(lia) Hlen).
Defined.


Example light_scale_doubles :
  let inp := mk_tables_input true (fun _ => 0%Q) 2%Q in
  GL_LightScaleTexture (fst (GL_InitImages_tables inp))
    (snd (GL_InitImages_tables inp)) [100; 200; 3; 4] 1 1 false 32
  = Done [200; 255; 6; 4].
Proof. vm_compute. reflexivity. Qed.

End LightScale.

(** * The sky pass: the rotation is a rotation *)

Module SkyRotation.
Import Glsl SkyVert.
Local Open Scope R_scope.

(** About a unit axis, [rotationMatrix] keeps lengths and fixes the axis. *)
Lemma rotationMatrix_rigid (axis p : vec3) (angle : R) :
  dot3 axis axis = 1 ->
  dot3 (mat3_mul_vec (rotationMatrix axis angle) p)
       (mat3_mul_vec (rotationMatrix axis angle) p) = dot3 p p /\
  mat3_mul_vec (rotationMatrix axis angle) axis = axis.
Proof.
  intros Hunit. pose proof (sin2_cos2 angle) as Htrig. unfold Rsqr in Htrig.
  destruct axis as [x y z], p as [px py pz].
  unfold dot3, mat3_mul_vec, rotationMatrix in *.
  cbn [v3_x v3_y v3_z m3_c0 m3_c1 m3_c2] in *.
  set (s := sin angle) in *. set (c := cos angle) in *.
  replace 1.0 with 1 by lra.
  split; [nsatz|]. f_equal; nsatz.
Qed.

(** X25. The sky pass keeps the length of the direction it rotates, leaves
    a direction along the sky axis where it is, and puts every vertex on
    the far plane: the depth it outputs is the [w] it outputs. *)
Theorem sky_rotation_is_rigid (u : SkyUniforms) (a_Position : vec3) :
  u_SkyAxis u <> zero3 ->
  dot3 (fst (main u a_Position)) (fst (main u a_Position))
    = dot3 a_Position a_Position /\
  fst (main u (normalize (u_SkyAxis u))) = normalize (u_SkyAxis u) /\
  v4_z (snd (main u a_Position)) = v4_w (snd (main u a_Position)).
Proof.
  intros Haxis. pose proof (normalize_unit (u_SkyAxis u) Haxis) as Hunit.
  unfold main. cbn [fst snd v4_z v4_w].
  destruct (rotationMatrix_rigid (normalize (u_SkyAxis u)) a_Position
              (radians (u_SkyRotate u * u_Time u)) Hunit) as (Hlen & Hfix).
  split; [exact Hlen|]. split; [exact Hfix | reflexivity].
Qed.

Lemma sky_rotation_is_rigid_witness :
  let u := mk_uniforms identity4 (mk_vec3 0 0 2) 90 1 in
  u_SkyAxis u <> zero3 /\
  dot3 (fst (main u (mk_vec3 1 2 3))) (fst (main u (mk_vec3 1 2 3)))
    = dot3 (mk_vec3 1 2 3) (mk_vec3 1 2 3).
Proof.
  intros u.
  assert (u_SkyAxis u <> zero3) as Haxis.
  { unfold u, zero3. cbn. intros H. injection H as H. lra. }
  split; [exact Haxis|].
  exact (proj1 (sky_rotation_is_rigid u (mk_vec3 1 2 3) Haxis)).
Defined.

End SkyRotation.

(** * The dynamic light pass *)

Module DlightFrag.
Import Glsl.
Local Open Scope R_scope.

Record FragUniforms : Type := mk_uniforms {
  u_LightOrigin : vec3;
  u_LightColor : vec3;
  u_LightRadius : R
}.

Definition vec3_sub (a b : vec3) : vec3 :=
  mk_vec3 (v3_x a - v3_x b) (v3_y a - v3_y b) (v3_z a - v3_z b).

(** A [vec3] times a [float], as in [u_LightColor * 0.2]. *)
Definition vec3_times (v : vec3) (k : R) : vec3 :=
  mk_vec3 (v3_x v * k) (v3_y v * k) (v3_z v * k).

(** [void main()]: [FragColor]. *)
Definition main (u : FragUniforms) (v_Position : vec3) : vec4 :=
  let dist := length3 (vec3_sub v_Position (u_LightOrigin u)) in
  let attenuation := 1.0 - clamp (dist / u_LightRadius u) 0.0 1.0 in
  let attenuation := attenuation * attenuation in
  let color := vec3_times (vec3_times (u_LightColor u) 0.2) attenuation in
  mk_vec4 (v3_x color) (v3_y color) (v3_z color) attenuation.

(** The distance of the fragment from the light. *)
Definition distance (u : FragUniforms) (v_Position : vec3) : R :=
  length3 (vec3_sub v_Position (u_LightOrigin u)).

Lemma clamp_unit x : 0 <= clamp x 0 1 <= 1.
Proof.
  unfold clamp, Rmin, Rmax.
  destruct (Rle_dec x 0); destruct (Rle_dec _ 1); lra.
Qed.

Lemma clamp_inside x : 0 <= x <= 1 -> clamp x 0 1 = x.
Proof.
  intros Hx. unfold clamp, Rmin, Rmax.
  destruct (Rle_dec x 0); destruct (Rle_dec _ 1); lra.
Qed.

Lemma clamp_above x : 1 <= x -> clamp x 0 1 = 1.
Proof.
  intros Hx. unfold clamp, Rmin, Rmax.
  destruct (Rle_dec x 0); destruct (Rle_dec _ 1); lra.
Qed.

(** X26. A dynamic light of positive radius: the alpha the pass outputs
    lies between 0 and 1; a fragment at or beyond the radius gets nothing
    (colour and alpha 0); within the radius the alpha is
    [(1 - dist/radius)^2] and the colour is 0.2 times the light colour
    times that alpha. *)
Theorem dlight_falloff (u : FragUniforms) (v_Position : vec3) :
  0 < u_LightRadius u ->
  let d := distance u v_Position in
  let out := main u v_Position in
  0 <= v4_w out <= 1 /\
  rgb out = vec3_times (vec3_times (u_LightColor u) 0.2) (v4_w out) /\
  (u_LightRadius u <= d -> out = mk_vec4 0 0 0 0) /\
  (d <= u_LightRadius u ->
     v4_w out = (1 - d / u_LightRadius u) * (1 - d / u_LightRadius u)).
Proof.
  intros Hr d out.
  assert (0 <= d) as Hd by (unfold d, distance, length3; apply sqrt_pos).
  assert (0 <= d / u_LightRadius u) as Hq
    by (apply Rmult_le_pos; [exact Hd | left; apply Rinv_0_lt_compat, Hr]).
  pose proof (clamp_unit (d / u_LightRadius u)) as Hc.
  assert (v4_w out
          = (1 - clamp (d / u_LightRadius u) 0 1)
            * (1 - clamp (d / u_LightRadius u) 0 1)) as Hw.
  { unfold out, main, d, distance. cbn [v4_w].
    replace 1.0 with 1 by lra. replace 0.0 with 0 by lra. reflexivity. }
  split; [rewrite Hw; nra|]. split; [reflexivity|]. split.
  - intros Hfar.
    assert (1 <= d / u_LightRadius u) as Hone.
    { apply (Rmult_le_reg_r (u_LightRadius u)); [exact Hr|].
      unfold Rdiv. rewrite Rmult_assoc, Rinv_l by lra. lra. }
    assert (v4_w out = 0) as Hzero
      by (rewrite Hw, (clamp_above _ Hone); ring).
    unfold out, main in Hzero |- *. cbn [v4_w] in Hzero.
    fold (distance u v_Position) in Hzero |- *. fold d in Hzero |- *.
    rewrite Hzero. unfold vec3_times. cbn [v3_x v3_y v3_z].
    f_equal; ring.
  - intros Hnear.
    assert (d / u_LightRadius u <= 1) as Hone.
    { apply (Rmult_le_reg_r (u_LightRadius u)); [exact Hr|].
      unfold Rdiv. rewrite Rmult_assoc, Rinv_l by lra. lra. }
    rewrite Hw, clamp_inside by lra. reflexivity.
Qed.

Lemma dlight_falloff_witness :
  let u := mk_uniforms (mk_vec3 0 0 0) (mk_vec3 1 1 1) 2 in
  0 < u_LightRadius u /\
  0 <= v4_w (main u (mk_vec3 1 0 0)) <= 1.
Proof.
  intros u.
  assert (0 < u_LightRadius u) as Hr by (cbn; lra).
  split; [exact Hr|].
  exact (proj1 (dlight_falloff u (mk_vec3 1 0 0) Hr)).
Defined.

End DlightFrag.

(** * [mesa_frustum] *)

Module Frustum.
Import Glsl.
Local Open Scope R_scope.

(** [void mesa_frustum(GLdouble left, GLdouble right, GLdouble bottom,
    GLdouble top, GLdouble nearval, GLdouble farval)]: the matrix [m] it
    hands to [qglMultMatrixd], [M(row,col)] being [m[col*4+row]]. *)
Definition mesa_frustum (left right bottom top nearval farval : R) : mat4 :=
  let x := (2.0 * nearval) / (right - left) in
  let y := (2.0 * nearval) / (top - bottom) in
  let a := (right + left) / (right - left) in
  let b := (top + bottom) / (top - bottom) in
  let c := - (farval + nearval) / (farval - nearval) in
  let d := - (2.0 * farval * nearval) / (farval - nearval) in
  mk_mat4 (mk_vec4 x 0 0 0)
          (mk_vec4 0 y 0 0)
          (mk_vec4 a b c (-1))
          (mk_vec4 0 0 d 0).

(** X27. The matrix of [mesa_frustum] takes the corners of the near
    rectangle to the corners of the clip cube on its near face (x, y and z
    equal to minus or plus w, with w the near distance), and every point
    of the far plane to depth z = w, the far face. *)
Theorem mesa_frustum_corners (left right bottom top nearval farval : R) :
  right <> left -> top <> bottom -> farval <> nearval ->
  let m := mesa_frustum left right bottom top nearval farval in
  mat4_mul_vec m (mk_vec4 left bottom (- nearval) 1)
    = mk_vec4 (- nearval) (- nearval) (- nearval) nearval /\
  mat4_mul_vec m (mk_vec4 right top (- nearval) 1)
    = mk_vec4 nearval nearval (- nearval) nearval /\
  forall x y,
    v4_z (mat4_mul_vec m (mk_vec4 x y (- farval) 1)) = farval /\
    v4_w (mat4_mul_vec m (mk_vec4 x y (- farval) 1)) = farval.
Proof.
  intros Hx Hy Hz m. unfold m, mesa_frustum, mat4_mul_vec.
  cbn [v4_x v4_y v4_z v4_w m4_c0 m4_c1 m4_c2 m4_c3].
  replace 2.0 with 2 by lra.
  assert (right - left <> 0) as Dx by lra.
  assert (top - bottom <> 0) as Dy by lra.
  assert (farval - nearval <> 0) as Dz by lra.
  split; [f_equal; field; assumption|].
  split; [f_equal; field; assumption|].
  intros x y. split; field; assumption.
Qed.

Lemma mesa_frustum_corners_witness :
  2 <> -2 /\ 1 <> -1 /\ 4096 <> 4 /\
  mat4_mul_vec (mesa_frustum (-2) 2 (-1) 1 4 4096) (mk_vec4 (-2) (-1) (- 4) 1)
    = mk_vec4 (- 4) (- 4) (- 4) 4.
Proof.
  assert (2 <> -2) as Hx by lra.
  assert (1 <> -1) as Hy by lra.
  assert (4096 <> 4) as Hz by lra.
  split; [exact Hx|]. split; [exact Hy|]. split; [exact Hz|].
  exact (proj1 (mesa_frustum_corners (-2) 2 (-1) 1 4 4096 Hx Hy Hz)).
Defined.

End Frustum.
